(** * Secure mesh gateway: topology, discovery and routing core

    A shallow embedding of [TopologyManager], of the query matching, the
    search, the search index and the cache of [DiscoveryProtocol], and of
    [MessageRouter], followed by the properties established about them.

    Conventions of the embedding:
    - a JavaScript [Map] keyed by strings is an association list in insertion
      order ([Map.set] on a present key keeps its position, on an absent key
      appends; iteration follows the list);
    - a JavaScript [Set] of strings is a duplicate-free list in insertion
      order;
    - [Infinity] among the non-negative integers used as distances is [None]
      of [option nat];
    - the numbers of the clustering coefficient are binary64 doubles, as the
      engine has them ([Binary64.calculateNodeClustering],
      [Binary64.calculateClusteringCoefficient]); the same two functions are
      also read over exact rationals ([Q]), for the bounds that hold of the
      quotients before rounding;
    - [null], [undefined] and strings, where the code lets them mix, are the
      three constructors of [jsval];
    - the classes [MeshNetwork] and [Node] are not part of the sources read
      here: the registry [meshNetwork.nodes] is an argument of the functions
      that consult it, and the outcomes of [Node.receiveMessage] and
      [MeshNetwork.sendMessage] are section variables. *)

From Stdlib Require Import PrimFloat.
From Stdlib Require Uint63.
From Stdlib Require Import List String Ascii Bool Arith ZArith QArith Lia.
From Stdlib Require Import Permutation Sorted.
Import ListNotations.
Open Scope string_scope.
Open Scope list_scope.
Open Scope nat_scope.

(** ** JavaScript values that the code lets flow together *)

Inductive jsval : Type :=
| JNull
| JUndef
| JStr (s : string).

Definition jsval_eqb (a b : jsval) : bool :=
  match a, b with
  | JNull, JNull => true
  | JUndef, JUndef => true
  | JStr s, JStr t => String.eqb s t
  | _, _ => false
  end.

(** Template-literal rendering [`${v}`]. *)
Definition js_to_string (v : jsval) : string :=
  match v with
  | JNull => "null"
  | JUndef => "undefined"
  | JStr s => s
  end.

(** ** [Map] with string keys, in insertion order *)

Definition jmap (V : Type) : Type := list (string * V).

Section JsMap.
Context {V : Type}.

Fixpoint jget (m : jmap V) (k : string) : option V :=
  match m with
  | [] => None
  | (k', v) :: r => if String.eqb k' k then Some v else jget r k
  end.

Definition jhas (m : jmap V) (k : string) : bool :=
  match jget m k with Some _ => true | None => false end.

Fixpoint jset (m : jmap V) (k : string) (v : V) : jmap V :=
  match m with
  | [] => [(k, v)]
  | (k', v') :: r =>
      if String.eqb k' k then (k, v) :: r else (k', v') :: jset r k v
  end.

Definition jdelete (m : jmap V) (k : string) : jmap V :=
  filter (fun e => negb (String.eqb (fst e) k)) m.

Definition jkeys (m : jmap V) : list string := map fst m.

(** [m.get(v)] when the key may be [null] or [undefined]. *)
Definition jget_val (m : jmap V) (v : jsval) : option V :=
  match v with
  | JStr s => jget m s
  | _ => None
  end.
End JsMap.

(** ** [Set] of strings, in insertion order *)

Definition jsset : Type := list string.

Definition shas (s : jsset) (x : string) : bool := existsb (String.eqb x) s.

Definition sadd (s : jsset) (x : string) : jsset :=
  if shas s x then s else s ++ [x].

Definition sdelete (s : jsset) (x : string) : jsset :=
  filter (fun y => negb (String.eqb y x)) s.

(** ** Nodes and connections *)

Inductive capval : Type :=
| CapBool (b : bool)
| CapStr (s : string)
| CapNum (z : Z).

Module Node.
Record t : Type := mk {
  id : string;
  name : string;
  type : string;
  status : string;
  capabilities : list (string * capval);
  trustScore : Z
}.
End Node.

Module Connection.
Record t : Type := mk {
  id : string;
  sourceNode : string;
  targetNode : string
}.
End Connection.

(** The registry [meshNetwork.nodes]. *)
Definition registry : Type := jmap Node.t.

(** ** TopologyManager *)

Record TopologyManager : Type := mkTopology {
  connections : jmap Connection.t;
  nodes : jmap Node.t;
  topologyGraph : jmap jsset;
  totalConnections : nat
}.

Definition newTopologyManager : TopologyManager :=
  mkTopology [] [] [] 0.

Definition addNode (tm : TopologyManager) (node : Node.t) : TopologyManager :=
  mkTopology
    (connections tm)
    (jset (nodes tm) (Node.name node) node)
    (jset (topologyGraph tm) (Node.name node) [])
    (totalConnections tm).

Definition removeEdgeFrom (g : jmap jsset) (k x : string) : jmap jsset :=
  match jget g k with
  | Some ns => jset g k (sdelete ns x)
  | None => g
  end.

Definition removeConnection (tm : TopologyManager) (connectionId : string)
  : TopologyManager :=
  match jget (connections tm) connectionId with
  | None => tm
  | Some connection =>
      let src := Connection.sourceNode connection in
      let tgt := Connection.targetNode connection in
      let g1 := removeEdgeFrom (topologyGraph tm) src tgt in
      let g2 := removeEdgeFrom g1 tgt src in
      let cs := jdelete (connections tm) connectionId in
      mkTopology cs (nodes tm) g2 (List.length cs)
  end.

Definition involves (nodeName : string) (e : string * Connection.t) : bool :=
  String.eqb (Connection.sourceNode (snd e)) nodeName
  || String.eqb (Connection.targetNode (snd e)) nodeName.

Definition removeNode (tm : TopologyManager) (node : Node.t) : TopologyManager :=
  let connectionsToRemove :=
    map fst (filter (involves (Node.name node)) (connections tm)) in
  let tm1 := fold_left removeConnection connectionsToRemove tm in
  mkTopology
    (connections tm1)
    (jdelete (nodes tm1) (Node.name node))
    (jdelete (topologyGraph tm1) (Node.name node))
    (totalConnections tm1).

Definition ensureEntry (g : jmap jsset) (k : string) : jmap jsset :=
  if jhas g k then g else jset g k [].

Definition addEdgeTo (g : jmap jsset) (k x : string) : jmap jsset :=
  match jget g k with
  | Some ns => jset g k (sadd ns x)
  | None => g
  end.

Definition addConnection (mesh : registry) (tm : TopologyManager)
  (connection : Connection.t) : TopologyManager :=
  let cs := jset (connections tm) (Connection.id connection) connection in
  let src := Connection.sourceNode connection in
  let tgt := Connection.targetNode connection in
  let g :=
    if jhas mesh src && jhas mesh tgt then
      let g1 := ensureEntry (topologyGraph tm) src in
      let g2 := ensureEntry g1 tgt in
      let g3 := addEdgeTo g2 src tgt in
      addEdgeTo g3 tgt src
    else topologyGraph tm in
  mkTopology cs (nodes tm) g (List.length cs).

Definition joins (a b : jsval) (e : string * Connection.t) : bool :=
  (jsval_eqb (JStr (Connection.sourceNode (snd e))) a
   && jsval_eqb (JStr (Connection.targetNode (snd e))) b)
  || (jsval_eqb (JStr (Connection.sourceNode (snd e))) b
      && jsval_eqb (JStr (Connection.targetNode (snd e))) a).

Definition getConnection (tm : TopologyManager) (sourceNodeName targetNodeName : jsval)
  : option Connection.t :=
  option_map snd (find (joins sourceNodeName targetNodeName) (connections tm)).

Definition getNodeConnections (tm : TopologyManager) (nodeName : jsval)
  : list Connection.t :=
  map snd
    (filter (fun e =>
               jsval_eqb (JStr (Connection.sourceNode (snd e))) nodeName
               || jsval_eqb (JStr (Connection.targetNode (snd e))) nodeName)
            (connections tm)).

(** The neighbour set the code reads for a name:
    [this.topologyGraph.get(name) || new Set()]. *)
Definition neighborsIn (g : jmap jsset) (a : string) : jsset :=
  match jget g a with
  | Some ns => ns
  | None => []
  end.

Definition neighbors (tm : TopologyManager) (a : string) : jsset :=
  neighborsIn (topologyGraph tm) a.

(** ** Graph analytics of the TopologyManager *)

(** A distance: a non-negative integer, or [Infinity] ([None]). *)
Definition dist : Type := option nat.

Definition dist_add (a b : dist) : dist :=
  match a, b with
  | Some x, Some y => Some (x + y)
  | _, _ => None
  end.

Definition dist_ltb (a b : dist) : bool :=
  match a, b with
  | Some x, Some y => x <? y
  | Some _, None => true
  | None, _ => false
  end.

Definition matrix : Type := list (list dist).

(** [d[i][j]]; every use below has [i] and [j] within the matrix. *)
Definition mget (d : matrix) (i j : nat) : dist := nth j (nth i d []) None.

Fixpoint replace_nth {A : Type} (l : list A) (i : nat) (x : A) : list A :=
  match l, i with
  | [], _ => []
  | _ :: r, 0 => x :: r
  | y :: r, S i' => y :: replace_nth r i' x
  end.

(** [d[i][j] = v], within the matrix. *)
Definition mset (d : matrix) (i j : nat) (v : dist) : matrix :=
  replace_nth d i (replace_nth (nth i d []) j v).

Fixpoint indexOf (l : list string) (x : string) : option nat :=
  match l with
  | [] => None
  | y :: r => if String.eqb y x then Some 0 else option_map S (indexOf r x)
  end.

Definition setDirect (nodeIds : list string) (d : matrix)
  (e : string * Connection.t) : matrix :=
  match indexOf nodeIds (Connection.sourceNode (snd e)),
        indexOf nodeIds (Connection.targetNode (snd e)) with
  | Some sourceIndex, Some targetIndex =>
      mset (mset d sourceIndex targetIndex (Some 1)) targetIndex sourceIndex (Some 1)
  | _, _ => d
  end.

Definition relax (k i : nat) (d : matrix) (j : nat) : matrix :=
  if dist_ltb (dist_add (mget d i k) (mget d k j)) (mget d i j)
  then mset d i j (dist_add (mget d i k) (mget d k j))
  else d.

(** The matrix after the two initialisation loops of [floydWarshall]: 0 on
    the diagonal, then 1 for the two ends of every stored connection whose
    ends are both among the node names. *)
Definition directDistances (tm : TopologyManager) : matrix :=
  let nodeIds := jkeys (nodes tm) in
  let n := List.length nodeIds in
  let d0 : matrix := repeat (repeat None n) n in
  let d1 := fold_left (fun d i => mset d i i (Some 0)) (seq 0 n) d0 in
  fold_left (setDirect nodeIds) (connections tm) d1.

(** One round of the outermost loop. *)
Definition relaxRound (n : nat) (d : matrix) (k : nat) : matrix :=
  fold_left (fun d i => fold_left (relax k i) (seq 0 n) d) (seq 0 n) d.

Definition floydWarshall (tm : TopologyManager) : matrix :=
  let n := List.length (jkeys (nodes tm)) in
  fold_left (relaxRound n) (seq 0 n) (directDistances tm).

Definition scanEntry (distances : matrix) (i : nat) (maxDiameter j : nat) : nat :=
  match mget distances i j with
  | Some x => if maxDiameter <? x then x else maxDiameter
  | None => maxDiameter
  end.

Definition scanMatrix (distances : matrix) (n : nat) : nat :=
  fold_left
    (fun maxDiameter i => fold_left (scanEntry distances i) (seq 0 n) maxDiameter)
    (seq 0 n) 0.

Definition calculateNetworkDiameter (tm : TopologyManager) : nat :=
  let n := List.length (nodes tm) in
  if n <=? 1 then 0 else scanMatrix (floydWarshall tm) n.

(** [this.topologyGraph.get(neighbor1)?.has(neighbor2)] *)
Definition linked (g : jmap jsset) (neighbor1 neighbor2 : string) : bool :=
  match jget g neighbor1 with
  | Some s => shas s neighbor2
  | None => false
  end.

(** The two nested loops over [neighborArray], [j] running after [i]. *)
Fixpoint countTriangles (g : jmap jsset) (neighborArray : list string) : nat :=
  match neighborArray with
  | [] => 0
  | neighbor1 :: rest =>
      List.length (filter (linked g neighbor1) rest) + countTriangles g rest
  end.

(** *** The two functions over exact rationals

    The quotients before rounding; the engine's own numbers are the doubles
    of [Binary64] below. *)

Definition Qnat (n : nat) : Q := inject_Z (Z.of_nat n).

Definition calculateNodeClustering (tm : TopologyManager) (nodeId : string)
  (neighbors : jsset) : Q :=
  let size := List.length neighbors in
  if size <? 2 then 0%Q
  else
    let triangles := countTriangles (topologyGraph tm) neighbors in
    let maxTriangles := (Qnat (size * (size - 1)) / 2)%Q in
    if Qle_bool maxTriangles 0 then 0%Q else (Qnat triangles / maxTriangles)%Q.

Definition clusteringStep (tm : TopologyManager) (acc : Q * nat)
  (e : string * jsset) : Q * nat :=
  if 2 <=? List.length (snd e)
  then ((fst acc + calculateNodeClustering tm (fst e) (snd e))%Q, S (snd acc))
  else acc.

Definition calculateClusteringCoefficient (tm : TopologyManager) : Q :=
  if List.length (nodes tm) =? 0 then 0%Q
  else
    let '(totalClustering, validNodes) :=
      fold_left (clusteringStep tm) (topologyGraph tm) (0%Q, 0) in
    if 0 <? validNodes then (totalClustering / Qnat validNodes)%Q else 0%Q.

(** *** The two functions over doubles

    [neighbors.size], [triangles] and [validNodes] are integers below 2^53,
    which a double holds exactly; [maxTriangles], the two quotients and the
    running sum [totalClustering] are doubles and round as the engine's. *)
Module Binary64.

(** The double of a size or of a counter. *)
Definition ofSize (n : nat) : float := of_uint63 (Uint63.of_Z (Z.of_nat n)).

Definition calculateNodeClustering (tm : TopologyManager) (nodeId : string)
  (neighbors : jsset) : float :=
  let size := List.length neighbors in
  if size <? 2 then 0%float
  else
    let triangles := countTriangles (topologyGraph tm) neighbors in
    let maxTriangles := (ofSize size * (ofSize size - 1) / 2)%float in
    if (0 <? maxTriangles)%float then (ofSize triangles / maxTriangles)%float
    else 0%float.

Definition clusteringStep (tm : TopologyManager) (acc : float * nat)
  (e : string * jsset) : float * nat :=
  if 2 <=? List.length (snd e)
  then ((fst acc + calculateNodeClustering tm (fst e) (snd e))%float, S (snd acc))
  else acc.

Definition calculateClusteringCoefficient (tm : TopologyManager) : float :=
  if List.length (nodes tm) =? 0 then 0%float
  else
    let '(totalClustering, validNodes) :=
      fold_left (clusteringStep tm) (topologyGraph tm) (0%float, 0) in
    if 0 <? validNodes then (totalClustering / ofSize validNodes)%float
    else 0%float.

End Binary64.

(** *** findShortestPath *)

Record dijkstra : Type := mkDijkstra {
  distances : jmap dist;
  previous : jmap string;
  unvisited : jsset
}.

Definition initEntry (st : dijkstra) (e : string * Node.t) : dijkstra :=
  mkDijkstra (jset (distances st) (fst e) None) (previous st)
             (sadd (unvisited st) (fst e)).

(** One round of the search for the unvisited node of least distance; a
    missing distance ([undefined]) compares false. *)
Definition pickMin (ds : jmap dist) (acc : option string * dist) (nodeId : string)
  : option string * dist :=
  match jget ds nodeId with
  | Some d => if dist_ltb d (snd acc) then (Some nodeId, d) else acc
  | None => acc
  end.

Definition relaxNeighbor (current : string) (st : dijkstra) (neighbor : string)
  : dijkstra :=
  if shas (unvisited st) neighbor then
    match jget (distances st) current, jget (distances st) neighbor with
    | Some dc, Some dn =>
        let newDistance := dist_add dc (Some 1) in
        if dist_ltb newDistance dn
        then mkDijkstra (jset (distances st) neighbor newDistance)
                        (jset (previous st) neighbor current)
                        (unvisited st)
        else st
    | _, _ => st
    end
  else st.

(** The loop [while (unvisited.size > 0)]: every round that does not leave
    the loop deletes one element of [unvisited], so the number of rounds is
    bounded by the initial size, which is what [rounds] counts. *)
Fixpoint dijkstraLoop (rounds : nat) (tm : TopologyManager) (targetId : string)
  (st : dijkstra) : dijkstra :=
  match rounds with
  | 0 => st
  | S rounds' =>
      match unvisited st with
      | [] => st
      | _ :: _ =>
          match fold_left (pickMin (distances st)) (unvisited st) (None, None) with
          | (Some current, Some _) =>
              let st1 := mkDijkstra (distances st) (previous st)
                                    (sdelete (unvisited st) current) in
              if String.eqb current targetId then st1
              else dijkstraLoop rounds' tm targetId
                     (fold_left (relaxNeighbor current) (neighbors tm current) st1)
          | _ => st
          end
      end
  end.

(** [previous.get(current)]: a [Map] answers [undefined] for a key it does
    not hold, never [null]. *)
Definition previousOf (prev : jmap string) (current : jsval) : jsval :=
  match jget_val prev current with
  | Some p => JStr p
  | None => JUndef
  end.

(** The loop [while (current !== null)] that rebuilds the path; [fuel] bounds
    the number of rounds and [None] says that the bound was reached with the
    loop still running. *)
Fixpoint reconstructPath (fuel : nat) (prev : jmap string) (current : jsval)
  (path : list jsval) : option (list jsval) :=
  match fuel with
  | 0 => None
  | S fuel' =>
      match current with
      | JNull => Some path
      | _ => reconstructPath fuel' prev (previousOf prev current) (current :: path)
      end
  end.

(** The first half of [findShortestPath]: initialisation and search loop,
    for a source and a target given by their [id]. *)
Definition searchFrom (tm : TopologyManager) (sourceId targetId : string)
  : dijkstra :=
  let st0 := fold_left initEntry (nodes tm) (mkDijkstra [] [] []) in
  let st1 := mkDijkstra (jset (distances st0) sourceId (Some 0))
                        (previous st0) (unvisited st0) in
  dijkstraLoop (List.length (unvisited st1)) tm targetId st1.

(** [Some (Some path)] is a returned path, [Some None] a returned [null], and
    [None] a call still inside its reconstruction loop after [fuel] rounds. *)
Definition findShortestPath (fuel : nat) (mesh : registry) (tm : TopologyManager)
  (sourceNodeName targetNodeName : jsval) : option (option (list jsval)) :=
  match jget_val mesh sourceNodeName, jget_val mesh targetNodeName with
  | Some sourceNode, Some targetNode =>
      let st := searchFrom tm (Node.id sourceNode) (Node.id targetNode) in
      match reconstructPath fuel (previous st) (JStr (Node.id targetNode)) [] with
      | None => None
      | Some path => Some (if 1 <? List.length path then Some path else None)
      end
  | _, _ => Some None
  end.

(** ** DiscoveryProtocol: query matching *)

Definition lower_ascii (c : ascii) : ascii :=
  let n := nat_of_ascii c in
  if (65 <=? n) && (n <=? 90) then ascii_of_nat (n + 32) else c.

(** [toLowerCase] on the ASCII letters. *)
Fixpoint toLowerCase (s : string) : string :=
  match s with
  | EmptyString => EmptyString
  | String c r => String (lower_ascii c) (toLowerCase r)
  end.

(** [s.includes(sub)] *)
Fixpoint includes (s sub : string) : bool :=
  if String.prefix sub s then true
  else match s with
       | EmptyString => false
       | String _ r => includes r sub
       end.

Module Query.
Record t : Type := mk {
  name : option string;
  type : option string;
  capability : option string;
  status : option string;
  minTrustScore : option Z
}.
End Query.

(** A query field that is absent or the empty string is falsy. *)
Definition truthy (o : option string) : option string :=
  match o with
  | Some EmptyString => None
  | _ => o
  end.

(** The predicate handed to [Object.values(node.capabilities).some]. *)
Definition capabilityHit (queried : string) (cap : capval) : bool :=
  match cap with
  | CapBool true => true
  | CapStr s => includes (toLowerCase s) (toLowerCase queried)
  | _ => false
  end.

Definition nameMatches (node : Node.t) (query : Query.t) : bool :=
  match truthy (Query.name query) with
  | Some q => includes (toLowerCase (Node.name node)) (toLowerCase q)
  | None => true
  end.

Definition typeMatches (node : Node.t) (query : Query.t) : bool :=
  match truthy (Query.type query) with
  | Some q => String.eqb (Node.type node) q
  | None => true
  end.

Definition capabilityMatches (node : Node.t) (query : Query.t) : bool :=
  match truthy (Query.capability query) with
  | Some q => existsb (capabilityHit q) (map snd (Node.capabilities node))
  | None => true
  end.

Definition statusMatches (node : Node.t) (query : Query.t) : bool :=
  match truthy (Query.status query) with
  | Some q => String.eqb (Node.status node) q
  | None => true
  end.

Definition trustMatches (node : Node.t) (query : Query.t) : bool :=
  match Query.minTrustScore query with
  | Some m => if (m =? 0)%Z then true else negb (Node.trustScore node <? m)%Z
  | None => true
  end.

Definition nodeMatchesQuery (node : Node.t) (query : Query.t) : bool :=
  if negb (nameMatches node query) then false
  else if negb (typeMatches node query) then false
  else if negb (capabilityMatches node query) then false
  else if negb (statusMatches node query) then false
  else if negb (trustMatches node query) then false
  else true.

(** ** MessageRouter *)

Module Message.
Record t : Type := mk {
  id : string;
  sourceNode : string;
  targetNode : string;
  routingAttempts : nat;
  maxRoutingAttempts : nat
}.
End Message.

Inductive taskStatus : Type := Pending | Delivered | Failed.

Module Task.
Record t : Type := mk {
  message : Message.t;
  routingPath : list jsval;
  currentHop : nat;
  status : taskStatus
}.
End Task.

Module Failure.
Record t : Type := mk {
  message : Message.t;
  error : string;
  routingPath : option (list jsval)
}.
End Failure.

Record RoutingStats : Type := mkStats {
  messagesRouted : nat;
  messagesDelivered : nat;
  messagesFailed : nat
}.

Record MessageRouter : Type := mkRouter {
  messageQueue : list Message.t;
  deliveryQueue : list Task.t;
  failedMessages : list Failure.t;
  routingStats : RoutingStats;
  isInitialized : bool
}.

(** A call that returns a value or throws an [Error] with a message. *)
Inductive result (A : Type) : Type :=
| Ok (a : A)
| Throw (msg : string).
Arguments Ok {A} a.
Arguments Throw {A} msg.

Definition withAttempts (m : Message.t) (n : nat) : Message.t :=
  Message.mk (Message.id m) (Message.sourceNode m) (Message.targetNode m)
             n (Message.maxRoutingAttempts m).

Definition routeMessage (r : MessageRouter) (message : Message.t)
  : result MessageRouter :=
  if negb (isInitialized r) then Throw "Message router not initialized"
  else
    let routedMessage :=
      Message.mk (Message.id message) (Message.sourceNode message)
                 (Message.targetNode message) 0 3 in
    Ok (mkRouter (messageQueue r ++ [routedMessage]) (deliveryQueue r)
                 (failedMessages r)
                 (mkStats (S (messagesRouted (routingStats r)))
                          (messagesDelivered (routingStats r))
                          (messagesFailed (routingStats r)))
                 (isInitialized r)).

Definition countFailure (st : RoutingStats) : RoutingStats :=
  mkStats (messagesRouted st) (messagesDelivered st) (S (messagesFailed st)).

Definition countDelivery (st : RoutingStats) : RoutingStats :=
  mkStats (messagesRouted st) (S (messagesDelivered st)) (messagesFailed st).

Definition handleMessageFailure (r : MessageRouter) (message : Message.t)
  (error : string) : MessageRouter :=
  let message' := withAttempts message (Message.routingAttempts message + 1) in
  if Message.routingAttempts message' <? Message.maxRoutingAttempts message'
  then mkRouter (messageQueue r ++ [message']) (deliveryQueue r)
                (failedMessages r) (routingStats r) (isInitialized r)
  else mkRouter (messageQueue r) (deliveryQueue r)
                (failedMessages r ++ [Failure.mk message' error None])
                (countFailure (routingStats r)) (isInitialized r).

Definition handleDeliveryFailure (r : MessageRouter) (task : Task.t)
  (error : string) : MessageRouter :=
  let message' :=
    withAttempts (Task.message task)
                 (Message.routingAttempts (Task.message task) + 1) in
  if Message.routingAttempts message' <? Message.maxRoutingAttempts message'
  then mkRouter (messageQueue r)
                (deliveryQueue r
                 ++ [Task.mk message' (Task.routingPath task)
                             (Task.currentHop task) Pending])
                (failedMessages r) (routingStats r) (isInitialized r)
  else mkRouter (messageQueue r) (deliveryQueue r)
                (failedMessages r
                 ++ [Failure.mk message' error (Some (Task.routingPath task))])
                (countFailure (routingStats r)) (isInitialized r).

Fixpoint findIndex {A : Type} (p : A -> bool) (l : list A) : option nat :=
  match l with
  | [] => None
  | x :: r => if p x then Some 0 else option_map S (findIndex p r)
  end.

Fixpoint removeAt {A : Type} (i : nat) (l : list A) : list A :=
  match l, i with
  | [], _ => []
  | _ :: r, 0 => r
  | x :: r, S i' => x :: removeAt i' r
  end.

Definition hasMessageId (messageId : string) (f : Failure.t) : bool :=
  String.eqb (Message.id (Failure.message f)) messageId.

Definition retryFailedMessage (r : MessageRouter) (messageId : string)
  : result MessageRouter :=
  match findIndex (hasMessageId messageId) (failedMessages r) with
  | None => Throw ("Failed message not found: " ++ messageId)
  | Some failureIndex =>
      match nth_error (failedMessages r) failureIndex with
      | None => Throw ("Failed message not found: " ++ messageId)
      | Some failure =>
          let message := withAttempts (Failure.message failure) 0 in
          Ok (mkRouter (messageQueue r ++ [message]) (deliveryQueue r)
                       (removeAt failureIndex (failedMessages r))
                       (routingStats r) (isInitialized r))
      end
  end.

Definition clearFailedMessages (r : MessageRouter) : MessageRouter * nat :=
  let count := List.length (failedMessages r) in
  (mkRouter (messageQueue r) (deliveryQueue r) []
            (mkStats (messagesRouted (routingStats r))
                     (messagesDelivered (routingStats r)) 0)
            (isInitialized r),
   count).

(** Truthiness of [node.capabilities.routing]. *)
Definition hasRoutingCapability (node : Node.t) : bool :=
  match jget (Node.capabilities node) "routing" with
  | Some (CapBool b) => b
  | Some (CapStr s) => negb (String.eqb s "")
  | Some (CapNum z) => negb (z =? 0)%Z
  | None => false
  end.

Section Router.
(** The collaborators of the router: the registry and the topology manager
    reached through [this.meshNetwork], and the two asynchronous calls
    whose code is outside the sources read here; [Some e] is a rejection
    with message [e]. *)
Variable mesh : registry.
Variable tm : TopologyManager.
Variable receiveMessage : Node.t -> Message.t -> option string.
Variable sendMessage : Node.t -> Node.t -> Message.t -> option string.

(** [path.map(nodeId => node ? node.name : nodeId)] *)
Definition nodeNames (path : list jsval) : list jsval :=
  map (fun nodeId =>
         match jget_val mesh nodeId with
         | Some node => JStr (Node.name node)
         | None => nodeId
         end) path.

Definition otherEnd (connection : Connection.t) (node : jsval) : string :=
  if jsval_eqb (JStr (Connection.sourceNode connection)) node
  then Connection.targetNode connection
  else Connection.sourceNode connection.

Definition enqueueNext (visited : jsset) (node : string) (path : list string)
  (queue : list (string * list string)) (connection : Connection.t)
  : list (string * list string) :=
  let nextNode := otherEnd connection (JStr node) in
  if negb (shas visited nextNode)
  then queue ++ [(nextNode, path ++ [nextNode])]
  else queue.

(** The loop [while (queue.length > 0)] of [findFallbackPath]; [fuel]
    bounds its rounds. *)
Fixpoint fallbackLoop (fuel : nat) (targetNodeName : string) (visited : jsset)
  (queue : list (string * list string)) : option (option (list string)) :=
  match fuel with
  | 0 => None
  | S fuel' =>
      match queue with
      | [] => Some None
      | (node, path) :: rest =>
          if String.eqb node targetNodeName then Some (Some path)
          else if shas visited node
               then fallbackLoop fuel' targetNodeName visited rest
               else
                 let visited' := sadd visited node in
                 fallbackLoop fuel' targetNodeName visited'
                   (fold_left (enqueueNext visited' node path)
                              (getNodeConnections tm (JStr node)) rest)
      end
  end.

Definition findFallbackPath (fuel : nat) (sourceNodeName targetNodeName : string)
  : option (option (list string)) :=
  fallbackLoop fuel targetNodeName [] [(sourceNodeName, [sourceNodeName])].

Definition determineRoutingPath (fuel : nat) (message : Message.t)
  : option (option (list jsval)) :=
  let src := Message.sourceNode message in
  let tgt := Message.targetNode message in
  if negb (jhas mesh src) || negb (jhas mesh tgt) then Some None
  else
    match getConnection tm (JStr src) (JStr tgt) with
    | Some _ => Some (Some [JStr src; JStr tgt])
    | None =>
        match findShortestPath fuel mesh tm (JStr src) (JStr tgt) with
        | None => None
        | Some (Some path) => Some (Some (nodeNames path))
        | Some None =>
            match findFallbackPath fuel src tgt with
            | None => None
            | Some None => Some None
            | Some (Some path) => Some (Some (map JStr path))
            end
        end
    end.

Definition processMessage (fuel : nat) (r : MessageRouter) (message : Message.t)
  : option (result MessageRouter) :=
  if negb (jhas mesh (Message.targetNode message))
  then Some (Throw ("Target node not found: " ++ Message.targetNode message))
  else if negb (jhas mesh (Message.sourceNode message))
  then Some (Throw ("Source node not found: " ++ Message.sourceNode message))
  else
    match determineRoutingPath fuel message with
    | None => None
    | Some None => Some (Throw "No valid routing path found")
    | Some (Some routingPath) =>
        Some (Ok (mkRouter (messageQueue r)
                           (deliveryQueue r
                            ++ [Task.mk message routingPath 0 Pending])
                           (failedMessages r) (routingStats r)
                           (isInitialized r)))
    end.

Definition processMessageStep (fuel : nat) (acc : option MessageRouter)
  (message : Message.t) : option MessageRouter :=
  match acc with
  | None => None
  | Some r =>
      match processMessage fuel r message with
      | None => None
      | Some (Ok r') => Some r'
      | Some (Throw error) => Some (handleMessageFailure r message error)
      end
  end.

Definition processMessageQueue (fuel : nat) (r : MessageRouter)
  : option MessageRouter :=
  match messageQueue r with
  | [] => Some r
  | _ :: _ =>
      let messages := firstn 5 (messageQueue r) in
      let r0 := mkRouter (skipn 5 (messageQueue r)) (deliveryQueue r)
                         (failedMessages r) (routingStats r)
                         (isInitialized r) in
      fold_left (processMessageStep fuel) messages (Some r0)
  end.

Definition deliverMessage (r : MessageRouter) (message : Message.t)
  (targetNodeName : jsval) : result MessageRouter :=
  match jget_val mesh targetNodeName with
  | None => Throw ("Target node not found: " ++ js_to_string targetNodeName)
  | Some targetNode =>
      match receiveMessage targetNode message with
      | Some error => Throw error
      | None =>
          Ok (mkRouter (messageQueue r) (deliveryQueue r) (failedMessages r)
                       (countDelivery (routingStats r)) (isInitialized r))
      end
  end.

Definition canRouteThroughNode (nodeName nextNodeName : jsval) : bool :=
  match jget_val mesh nodeName with
  | None => false
  | Some node =>
      if negb (hasRoutingCapability node) then false
      else
        match getConnection tm nodeName nextNodeName with
        | None => false
        | Some _ => String.eqb (Node.status node) "active"
        end
  end.

Definition forwardMessage (message : Message.t)
  (currentNodeName nextNodeName : jsval) : result unit :=
  match jget_val mesh currentNodeName, jget_val mesh nextNodeName with
  | Some currentNode, Some nextNode =>
      match sendMessage currentNode nextNode message with
      | Some error => Throw error
      | None => Ok tt
      end
  | _, _ => Ok tt
  end.

Fixpoint alternativeLoop (fuel : nat) (currentNodeName targetNodeName : jsval)
  (conns : list Connection.t) : option (option (list jsval)) :=
  match conns with
  | [] => Some None
  | connection :: rest =>
      let nextNode := otherEnd connection currentNodeName in
      if negb (jsval_eqb (JStr nextNode) targetNodeName) then
        match findShortestPath fuel mesh tm (JStr nextNode) targetNodeName with
        | None => None
        | Some (Some alternativePath) =>
            Some (Some (currentNodeName :: nodeNames alternativePath))
        | Some None => alternativeLoop fuel currentNodeName targetNodeName rest
        end
      else alternativeLoop fuel currentNodeName targetNodeName rest
  end.

Definition findAlternativePath (fuel : nat) (message : Message.t)
  (currentNodeName targetNodeName : jsval) : option (option (list jsval)) :=
  alternativeLoop fuel currentNodeName targetNodeName
                  (getNodeConnections tm currentNodeName).

Definition markDelivered (task : Task.t) : Task.t :=
  Task.mk (Task.message task) (Task.routingPath task) (Task.currentHop task)
          Delivered.

(** Returns the router and the task as the call leaves them; a thrown
    error leaves both as they were. *)
Definition processDeliveryTask (fuel : nat) (r : MessageRouter) (task : Task.t)
  : option (result (MessageRouter * Task.t)) :=
  match Task.status task with
  | Pending =>
      let message := Task.message task in
      let routingPath := Task.routingPath task in
      let currentHop := Task.currentHop task in
      let len := List.length routingPath in
      if len <=? currentHop + 1 then
        match deliverMessage r message (nth (len - 1) routingPath JUndef) with
        | Throw error => Some (Throw error)
        | Ok r' => Some (Ok (r', markDelivered task))
        end
      else
        let currentNode := nth currentHop routingPath JUndef in
        let nextNode := nth (currentHop + 1) routingPath JUndef in
        if (len =? 2) && (currentHop =? 0) then
          match deliverMessage r message nextNode with
          | Throw error => Some (Throw error)
          | Ok r' => Some (Ok (r', markDelivered task))
          end
        else if canRouteThroughNode currentNode nextNode then
          match forwardMessage message currentNode nextNode with
          | Throw error => Some (Throw error)
          | Ok _ =>
              Some (Ok (r, Task.mk message routingPath (currentHop + 1)
                                   (Task.status task)))
          end
        else
          match findAlternativePath fuel message currentNode nextNode with
          | None => None
          | Some (Some alternativePath) =>
              Some (Ok (r, Task.mk message alternativePath 0 (Task.status task)))
          | Some None =>
              Some (Throw ("Cannot route through node: "
                           ++ js_to_string currentNode))
          end
  | _ => Some (Ok (r, task))
  end.

(** The body of the loop of [processDeliveryQueue]: the task was taken out
    of the queue by [splice]; after a call that returns, nothing refers to
    it any more. *)
Definition processDeliveryStep (fuel : nat) (acc : option MessageRouter)
  (task : Task.t) : option MessageRouter :=
  match acc with
  | None => None
  | Some r =>
      match processDeliveryTask fuel r task with
      | None => None
      | Some (Ok (r', _)) => Some r'
      | Some (Throw error) => Some (handleDeliveryFailure r task error)
      end
  end.

Definition processDeliveryQueue (fuel : nat) (r : MessageRouter)
  : option MessageRouter :=
  match deliveryQueue r with
  | [] => Some r
  | _ :: _ =>
      let deliveryTasks := firstn 3 (deliveryQueue r) in
      let r0 := mkRouter (messageQueue r) (skipn 3 (deliveryQueue r))
                         (failedMessages r) (routingStats r)
                         (isInitialized r) in
      fold_left (processDeliveryStep fuel) deliveryTasks (Some r0)
  end.
End Router.

(** ** Vocabulary of the properties *)

(** *** Topology invariants *)

Definition adjacent (tm : TopologyManager) (a b : string) : Prop :=
  In b (neighbors tm a).

Definition symmetricGraph (tm : TopologyManager) : Prop :=
  forall a b, adjacent tm a b -> adjacent tm b a.

(** Every name of the adjacency map, as a key or inside a neighbour set, is a
    node held by the topology manager. *)
Definition liveNames (tm : TopologyManager) : Prop :=
  forall a,
    (jhas (topologyGraph tm) a = true -> jhas (nodes tm) a = true)
    /\ (forall b, adjacent tm a b -> jhas (nodes tm) b = true).

(** Every stored connection has its two edges, each held once. *)
Definition connectionsHaveEdges (tm : TopologyManager) : Prop :=
  forall cid c, In (cid, c) (connections tm) ->
    let a := Connection.sourceNode c in
    let b := Connection.targetNode c in
    adjacent tm a b /\ adjacent tm b a
    /\ NoDup (neighbors tm a) /\ NoDup (neighbors tm b).

Definition topologyInvariants (tm : TopologyManager) : Prop :=
  symmetricGraph tm /\ liveNames tm /\ connectionsHaveEdges tm.

(** The connection [c] joins the unordered pair [a], [b]. *)
Definition joined (c : Connection.t) (a b : string) : Prop :=
  (Connection.sourceNode c = a /\ Connection.targetNode c = b)
  \/ (Connection.sourceNode c = b /\ Connection.targetNode c = a).

(** The invariant that the mutations carry along: besides the three above,
    identifiers of stored connections are unique, every edge belongs to a
    stored connection, and no two stored connections join the same pair. *)
Record carriedInvariant (tm : TopologyManager) : Prop := mkCarried {
  uniqueIds : NoDup (jkeys (connections tm));
  symmetricEdges : symmetricGraph tm;
  liveGraphKeys :
    forall a, jhas (topologyGraph tm) a = true -> jhas (nodes tm) a = true;
  neighborSets : forall a, NoDup (neighbors tm a);
  storedHasEdge :
    forall cid c, In (cid, c) (connections tm) ->
      adjacent tm (Connection.sourceNode c) (Connection.targetNode c);
  edgeHasStored :
    forall a b, adjacent tm a b ->
      exists cid c, In (cid, c) (connections tm) /\ joined c a b;
  noParallel :
    forall cid c cid' c',
      In (cid, c) (connections tm) -> In (cid', c') (connections tm) ->
      joined c' (Connection.sourceNode c) (Connection.targetNode c) ->
      cid = cid'
}.

Inductive mutation : Type :=
| AddNode (node : Node.t)
| RemoveNode (node : Node.t)
| AddConnection (mesh : registry) (connection : Connection.t)
| RemoveConnection (connectionId : string).

Definition mutate (tm : TopologyManager) (op : mutation) : TopologyManager :=
  match op with
  | AddNode node => addNode tm node
  | RemoveNode node => removeNode tm node
  | AddConnection mesh connection => addConnection mesh tm connection
  | RemoveConnection connectionId => removeConnection tm connectionId
  end.

Definition isNone {A : Type} (o : option A) : bool :=
  match o with None => true | Some _ => false end.

(** The calls a caller that keeps names and connection identifiers unique
    makes: a node is added under a name not yet present; a connection is
    added under a fresh identifier, between two nodes that the registry and
    the topology manager both hold and that no stored connection joins yet.
    Removals are unconstrained. *)
Definition wellFormedCall (tm : TopologyManager) (op : mutation) : bool :=
  match op with
  | AddNode node =>
      negb (jhas (nodes tm) (Node.name node))
      && negb (jhas (topologyGraph tm) (Node.name node))
  | AddConnection mesh c =>
      negb (jhas (connections tm) (Connection.id c))
      && jhas mesh (Connection.sourceNode c)
      && jhas mesh (Connection.targetNode c)
      && jhas (nodes tm) (Connection.sourceNode c)
      && jhas (nodes tm) (Connection.targetNode c)
      && isNone (getConnection tm (JStr (Connection.sourceNode c))
                               (JStr (Connection.targetNode c)))
  | RemoveNode _ => true
  | RemoveConnection _ => true
  end.

Fixpoint wellFormedTrace (tm : TopologyManager) (ops : list mutation) : bool :=
  match ops with
  | [] => true
  | op :: rest => wellFormedCall tm op && wellFormedTrace (mutate tm op) rest
  end.

(** *** Clustering coefficient, in the words of its description *)

Definition degree (e : string * jsset) : nat := List.length (snd e).

(** The pairs of members of a set, each pair once, the earlier member
    first. *)
Fixpoint pairsOf (l : list string) : list (string * string) :=
  match l with
  | [] => []
  | x :: rest => map (pair x) rest ++ pairsOf rest
  end.

(** The second name of the pair is in the neighbour set of the first. *)
Definition closed (tm : TopologyManager) (p : string * string) : bool :=
  shas (neighbors tm (fst p)) (snd p).

(** The closed triangles at a node: the pairs of its neighbours that are
    neighbours of each other. *)
Definition trianglesAt (tm : TopologyManager) (e : string * jsset) : nat :=
  List.length (filter (closed tm) (pairsOf (snd e))).

(** The possible pairs of neighbours, [deg * (deg - 1) / 2]. *)
Definition possiblePairs (e : string * jsset) : float :=
  (Binary64.ofSize (degree e) * (Binary64.ofSize (degree e) - 1) / 2)%float.

(** [triangles / (deg * (deg - 1) / 2)], which is
    [2 * triangles / (deg * (deg - 1))]; 0 where there is no possible pair. *)
Definition localCoefficient (tm : TopologyManager) (e : string * jsset) : float :=
  if (0 <? possiblePairs e)%float
  then (Binary64.ofSize (trianglesAt tm e) / possiblePairs e)%float
  else 0%float.

(** The nodes of degree at least two. *)
Definition eligible (tm : TopologyManager) : list (string * jsset) :=
  filter (fun e => 2 <=? degree e) (topologyGraph tm).





(** *** Capability condition of a query, in the words of its description *)

Definition capabilityPresent (node : Node.t) (queried : string) : Prop :=
  jget (Node.capabilities node) queried = Some (CapBool true)
  \/ exists k s, In (k, CapStr s) (Node.capabilities node)
                 /\ includes (toLowerCase s) (toLowerCase queried) = true.

(** *** Where an envelope is *)

Definition hasId (messageId : string) (m : Message.t) : bool :=
  String.eqb (Message.id m) messageId.

Definition taskHasId (messageId : string) (t : Task.t) : bool :=
  hasId messageId (Task.message t).

Definition inIntake (r : MessageRouter) (messageId : string) : nat :=
  List.length (filter (hasId messageId) (messageQueue r)).

Definition inDelivery (r : MessageRouter) (messageId : string) : nat :=
  List.length (filter (taskHasId messageId) (deliveryQueue r)).

Definition inArchive (r : MessageRouter) (messageId : string) : nat :=
  List.length (filter (hasMessageId messageId) (failedMessages r)).

(** *** Shapes of the router after a failure *)

Definition requeuedIntake (r : MessageRouter) (m : Message.t) : MessageRouter :=
  mkRouter (messageQueue r ++ [m]) (deliveryQueue r) (failedMessages r)
           (routingStats r) (isInitialized r).

Definition requeuedDelivery (r : MessageRouter) (t : Task.t) : MessageRouter :=
  mkRouter (messageQueue r) (deliveryQueue r ++ [t]) (failedMessages r)
           (routingStats r) (isInitialized r).

Definition archived (r : MessageRouter) (f : Failure.t) : MessageRouter :=
  mkRouter (messageQueue r) (deliveryQueue r) (failedMessages r ++ [f])
           (countFailure (routingStats r)) (isInitialized r).

(** *** Walks in a matrix of direct distances *)

(** [a <= b] with [Infinity] on top. *)
Definition dist_le (a b : dist) : Prop :=
  match b with
  | None => True
  | Some y => match a with Some x => x <= y | None => False end
  end.

(** An [n] by [n] matrix. *)
Definition square (n : nat) (d : matrix) : Prop :=
  List.length d = n /\ Forall (fun row => List.length row = n) d.

(** [walk W k i j w]: a walk from [i] to [j] of one step or more, of total
    weight [w], each step a finite entry of [W], every vertex strictly
    between the two ends below [k]. *)
Inductive walk (W : matrix) (k : nat) : nat -> nat -> nat -> Prop :=
| walk_step (i j x : nat) :
    mget W i j = Some x -> walk W k i j x
| walk_via (i m j x y : nat) :
    m < k -> walk W k i m x -> walk W k m j y -> walk W k i j (x + y).

(** Every entry of [d'] is at most the entry of [d]. *)
Definition below (d' d : matrix) : Prop :=
  forall i j, dist_le (mget d' i j) (mget d i j).

(** Every finite entry of [d] is the weight of a walk in [W]. *)
Definition walkSound (W : matrix) (n : nat) (d : matrix) : Prop :=
  forall i j x, mget d i j = Some x -> walk W n i j x.

(** No walk of [W] through vertices below [k] is lighter than the entry of
    [d] between its ends. *)
Definition walkBound (W : matrix) (k : nat) (d : matrix) : Prop :=
  forall i j w, walk W k i j w -> dist_le (mget d i j) (Some w).

(** The connection [e] has its ends at the positions [i] and [j] of
    [nodeIds], in one order or the other. *)
Definition hits (nodeIds : list string) (i j : nat) (e : string * Connection.t)
  : bool :=
  match indexOf nodeIds (Connection.sourceNode (snd e)),
        indexOf nodeIds (Connection.targetNode (snd e)) with
  | Some si, Some ti => ((si =? i) && (ti =? j)) || ((si =? j) && (ti =? i))
  | _, _ => false
  end.

(** Some stored connection has its two ends at the positions [i] and [j] of
    the node list [Array.from(this.nodes.keys())]. *)
Definition joinedAt (tm : TopologyManager) (i j : nat) : Prop :=
  existsb (hits (jkeys (nodes tm)) i j) (connections tm) = true.

(** [hops tm i j k]: a chain of [k] stored connections leads from the node at
    position [i] to the node at position [j], through nodes of the topology
    manager. *)
Inductive hops (tm : TopologyManager) : nat -> nat -> nat -> Prop :=
| hops_here (i : nat) :
    i < List.length (nodes tm) -> hops tm i i 0
| hops_next (i m j k : nat) :
    joinedAt tm i m -> hops tm m j k -> hops tm i j (S k).

(** [x] is the length of a shortest chain of stored connections from [i] to
    [j]. *)
Definition shortestChain (tm : TopologyManager) (i j x : nat) : Prop :=
  hops tm i j x /\ forall k, hops tm i j k -> x <= k.

(** *** Reading the distance matrix *)

Definition finiteOr0 (d : dist) : nat :=
  match d with Some x => x | None => 0 end.

Definition rowMax (D : matrix) (n : nat) (m i : nat) : nat :=
  fold_left (scanEntry D i) (seq 0 n) m.

(** Entries that are [Infinity] or 0. *)
Definition zeroOrInfinite (d : dist) : Prop := d = None \/ d = Some 0.

Definition matrixAll (P : dist -> Prop) (d : matrix) : Prop :=
  Forall (Forall P) d.

(** ** Sample networks *)

Definition sampleNode (nm : string) : Node.t :=
  Node.mk ("id-" ++ nm) nm "standard" "active" [("routing", CapBool true)] 50.

Definition meshABC : registry :=
  [("A", sampleNode "A"); ("B", sampleNode "B"); ("C", sampleNode "C")].

Definition threeNodes : TopologyManager :=
  addNode (addNode (addNode newTopologyManager (sampleNode "A")) (sampleNode "B"))
          (sampleNode "C").

(** A - B - C *)
Definition lineABC : TopologyManager :=
  addConnection meshABC
    (addConnection meshABC threeNodes (Connection.mk "c1" "A" "B"))
    (Connection.mk "c2" "B" "C").

(** A, B and C pairwise connected. *)
Definition triangleABC : TopologyManager :=
  addConnection meshABC lineABC (Connection.mk "c3" "C" "A").

(** [A] and [B] with one connection between them; [C] apart. *)
Definition linkAB : TopologyManager :=
  addConnection meshABC threeNodes (Connection.mk "c1" "A" "B").

(** [linkAB] after a second connection between [A] and [B] has been added
    and removed again: the connection [c1] is stored, and no neighbour set
    holds a name. *)
Definition edgelessLinkAB : TopologyManager :=
  removeConnection (addConnection meshABC linkAB (Connection.mk "c9" "A" "B")) "c9".


(** Nodes whose [id] is their name, and the line A - B - C - D over them. *)
Definition namedNode (nm : string) : Node.t :=
  Node.mk nm nm "standard" "active" [("routing", CapBool true)] 50.

Definition meshNamed : registry :=
  [("A", namedNode "A"); ("B", namedNode "B"); ("C", namedNode "C");
   ("D", namedNode "D")].

Definition lineNamed : TopologyManager :=
  fold_left mutate
    [AddNode (namedNode "A"); AddNode (namedNode "B"); AddNode (namedNode "C");
     AddNode (namedNode "D");
     AddConnection meshNamed (Connection.mk "c1" "A" "B");
     AddConnection meshNamed (Connection.mk "c2" "B" "C");
     AddConnection meshNamed (Connection.mk "c3" "C" "D")]
    newTopologyManager.

(** A hub [A] with the leaves [B], [C] and [D]. *)
Definition starNamed : TopologyManager :=
  fold_left mutate
    [AddNode (namedNode "A"); AddNode (namedNode "B"); AddNode (namedNode "C");
     AddNode (namedNode "D");
     AddConnection meshNamed (Connection.mk "c1" "A" "B");
     AddConnection meshNamed (Connection.mk "c2" "A" "C");
     AddConnection meshNamed (Connection.mk "c3" "A" "D")]
    newTopologyManager.

(** The triangle [A], [B], [C] with the leaf [D] at [A]. *)
Definition kiteNamed : TopologyManager :=
  fold_left mutate
    [AddNode (namedNode "A"); AddNode (namedNode "B"); AddNode (namedNode "C");
     AddNode (namedNode "D");
     AddConnection meshNamed (Connection.mk "c1" "A" "B");
     AddConnection meshNamed (Connection.mk "c2" "A" "C");
     AddConnection meshNamed (Connection.mk "c3" "A" "D");
     AddConnection meshNamed (Connection.mk "c4" "B" "C")]
    newTopologyManager.

Definition alwaysResolves2 (_ : Node.t) (_ : Message.t) : option string := None.
Definition alwaysResolves3 (_ _ : Node.t) (_ : Message.t) : option string := None.

Definition idleRouter : MessageRouter :=
  mkRouter [] [] [] (mkStats 0 0 0) true.

(** An archive with two entries under the identifier [m1]. *)
Definition twiceArchived : MessageRouter :=
  mkRouter [] []
    [Failure.mk (Message.mk "m1" "A" "Z" 3 3) "Target node not found: Z" None;
     Failure.mk (Message.mk "m1" "B" "Y" 3 3) "Target node not found: Y" None]
    (mkStats 2 0 2) true.

(** ** Further functions of the MessageRouter *)

Record RoutingReport : Type := mkReport {
  reportedStats : RoutingStats;
  queueLength : nat;
  deliveryQueueLength : nat;
  failedMessagesCount : nat
}.

Definition getRoutingStats (r : MessageRouter) : RoutingReport :=
  mkReport (routingStats r) (List.length (messageQueue r))
           (List.length (deliveryQueue r)) (List.length (failedMessages r)).

Definition isPending (t : Task.t) : bool :=
  match Task.status t with Pending => true | _ => false end.

Definition isDelivered (t : Task.t) : bool :=
  match Task.status t with Delivered => true | _ => false end.

Record QueueStatus : Type := mkQueueStatus {
  messageQueueLength : nat;
  deliveryLength : nat;
  pendingCount : nat;
  deliveredCount : nat;
  failedCount : nat;
  recentFailures : list Failure.t
}.

(** [array.slice(-k)]: the last [k] elements. *)
Definition lastN {A : Type} (k : nat) (l : list A) : list A :=
  skipn (List.length l - k) l.

Definition getQueueStatus (r : MessageRouter) : QueueStatus :=
  mkQueueStatus
    (List.length (messageQueue r))
    (List.length (deliveryQueue r))
    (List.length (filter isPending (deliveryQueue r)))
    (List.length (filter isDelivered (deliveryQueue r)))
    (List.length (failedMessages r))
    (lastN 5 (failedMessages r)).

(** [shutdown] of the router: both queues are emptied; the archive and the
    statistics stay. *)
Definition shutdown (r : MessageRouter) : MessageRouter :=
  mkRouter [] [] (failedMessages r) (routingStats r) false.

(** ** Further functions of the TopologyManager *)

(** The loop of [isNetworkFullyConnected] over the node names. *)
Fixpoint connectedLoop (fuel : nat) (mesh : registry) (tm : TopologyManager)
  (firstNodeId : string) (nodeIds : list string) : option bool :=
  match nodeIds with
  | [] => Some true
  | nodeId :: rest =>
      if String.eqb nodeId firstNodeId
      then connectedLoop fuel mesh tm firstNodeId rest
      else
        match findShortestPath fuel mesh tm (JStr firstNodeId) (JStr nodeId) with
        | None => None
        | Some None => Some false
        | Some (Some _) => connectedLoop fuel mesh tm firstNodeId rest
        end
  end.

(** [None]: the call is still inside [findShortestPath] after [fuel] rounds
    of its reconstruction loop. *)
Definition isNetworkFullyConnected (fuel : nat) (mesh : registry)
  (tm : TopologyManager) : option bool :=
  if List.length (nodes tm) <=? 1 then Some true
  else
    match jkeys (nodes tm) with
    | [] => Some true
    | firstNodeId :: _ =>
        connectedLoop fuel mesh tm firstNodeId (jkeys (nodes tm))
    end.

(** The object [connectivityDistribution]: counts under numeric keys, read
    through [hget]; the order of the pairs carries no meaning. *)
Definition histogram : Type := list (nat * nat).

Fixpoint hget (h : histogram) (k : nat) : option nat :=
  match h with
  | [] => None
  | (k', v) :: r => if k' =? k then Some v else hget r k
  end.

Fixpoint hset (h : histogram) (k v : nat) : histogram :=
  match h with
  | [] => [(k, v)]
  | (k', v') :: r => if k' =? k then (k, v) :: r else (k', v') :: hset r k v
  end.

Record ConnectivityAnalysis : Type := mkAnalysis {
  analysisTotalNodes : nat;
  analysisTotalConnections : nat;
  isolatedNodes : nat;
  highlyConnectedNodes : nat;
  connectivityDistribution : histogram
}.

Definition analysisStep (a : ConnectivityAnalysis) (e : string * jsset)
  : ConnectivityAnalysis :=
  let connectivity := List.length (snd e) in
  let isolated :=
    if connectivity =? 0 then S (isolatedNodes a) else isolatedNodes a in
  let highly :=
    if connectivity =? 0 then highlyConnectedNodes a
    else if 5 <=? connectivity then S (highlyConnectedNodes a)
         else highlyConnectedNodes a in
  let previousCount :=
    match hget (connectivityDistribution a) connectivity with
    | Some c => c
    | None => 0
    end in
  mkAnalysis (analysisTotalNodes a) (analysisTotalConnections a) isolated highly
             (hset (connectivityDistribution a) connectivity (previousCount + 1)).

Definition getConnectivityAnalysis (tm : TopologyManager) : ConnectivityAnalysis :=
  fold_left analysisStep (topologyGraph tm)
    (mkAnalysis (List.length (nodes tm)) (List.length (connections tm)) 0 0 []).

(** The sum that [updateTopologyStats] divides by the number of nodes to
    obtain [averageConnectivity]. *)
Definition degreeSum (tm : TopologyManager) : nat :=
  fold_left (fun totalConnections e => totalConnections + List.length (snd e))
            (topologyGraph tm) 0.

Definition averageConnectivity (tm : TopologyManager) : Q :=
  if List.length (nodes tm) =? 0 then 0%Q
  else (Qnat (degreeSum tm) / Qnat (List.length (nodes tm)))%Q.

(** ** Further functions of the DiscoveryProtocol *)

(** *** The search index

    [searchIndex] is a [Map] that receives the keys ['name'], ['type'] and
    ['capabilities'] on first use; a key not yet created is [None]. *)
Record SearchIndex : Type := mkIndex {
  byName : option (jmap string);
  byType : option (jmap jsset);
  byCapability : option (jmap jsset)
}.

Definition emptyIndex : SearchIndex := mkIndex None None None.

Definition orEmpty {V : Type} (o : option (jmap V)) : jmap V :=
  match o with Some m => m | None => [] end.

(** [if (!m.has(k)) m.set(k, new Set()); m.get(k).add(x)] *)
Definition addToSet (m : jmap jsset) (k x : string) : jmap jsset :=
  match jget m k with
  | Some s => jset m k (sadd s x)
  | None => jset m k (sadd [] x)
  end.

Definition indexCapability (nodeId : string) (m : jmap jsset)
  (entry : string * capval) : jmap jsset :=
  match snd entry with
  | CapBool true => addToSet m (fst entry) nodeId
  | _ => m
  end.

Definition updateSearchIndex (idx : SearchIndex) (node : Node.t) : SearchIndex :=
  mkIndex
    (Some (jset (orEmpty (byName idx)) (toLowerCase (Node.name node))
                (Node.id node)))
    (Some (addToSet (orEmpty (byType idx)) (Node.type node) (Node.id node)))
    (Some (fold_left (indexCapability (Node.id node)) (Node.capabilities node)
                     (orEmpty (byCapability idx)))).

Definition removeFromSet (nodeId : string) (e : string * jsset) : string * jsset :=
  (fst e, sdelete (snd e) nodeId).

Definition removeFromSearchIndex (idx : SearchIndex) (node : Node.t) : SearchIndex :=
  mkIndex
    (option_map (fun m => jdelete m (toLowerCase (Node.name node))) (byName idx))
    (option_map
       (fun m =>
          match jget m (Node.type node) with
          | Some s => jset m (Node.type node) (sdelete s (Node.id node))
          | None => m
          end)
       (byType idx))
    (option_map (map (removeFromSet (Node.id node))) (byCapability idx)).

(** Lookups of the index, as a reader of the three maps makes them. *)
Definition idOfName (idx : SearchIndex) (name : string) : option string :=
  jget (orEmpty (byName idx)) (toLowerCase name).

Definition idsOfType (idx : SearchIndex) (type : string) : jsset :=
  neighborsIn (orEmpty (byType idx)) type.

Definition idsOfCapability (idx : SearchIndex) (capability : string) : jsset :=
  neighborsIn (orEmpty (byCapability idx)) capability.

(** *** Search results *)

Module NodeInfo.
Record t : Type := mk {
  id : string;
  name : string;
  type : string;
  status : string;
  trustScore : Z;
  connections : nat;
  relevance : Q
}.
End NodeInfo.

(** Stable insertion sort; [after x y] says that the comparator puts [x]
    behind [y] (its value for [(x, y)] is positive).  [Array.prototype.sort]
    is stable, and for a comparator that orders its arguments consistently
    every stable sort gives this list. *)
Fixpoint insertSorted {A : Type} (after : A -> A -> bool) (x : A) (l : list A)
  : list A :=
  match l with
  | [] => [x]
  | y :: r => if after x y then y :: insertSorted after x r else x :: l
  end.

Definition sortWith {A : Type} (after : A -> A -> bool) (l : list A) : list A :=
  fold_right (insertSorted after) [] l.

Definition Qgtb (a b : Q) : bool := negb (Qle_bool a b).

(** [(a, b) => b.relevance - a.relevance] is positive *)
Definition lessRelevant (a b : NodeInfo.t) : bool :=
  Qgtb (NodeInfo.relevance b) (NodeInfo.relevance a).

Module Options.
Record t : Type := mk {
  excludeTypes : option (list string);
  minConnections : option nat;
  maxConnections : option nat;
  sortBy : option string;
  limit : option nat
}.
End Options.

Section Search.
(** What [createNodeInfo] reads of a node beyond the fields of [Node.t]:
    [node.connections.size], and the score [calculateRelevance] gives it. *)
Variable connectionsOf : Node.t -> nat.
Variable relevanceOf : Node.t -> Q.
(** [a.localeCompare(b)] *)
Variable localeCompare : string -> string -> Z.

Definition createNodeInfo (node : Node.t) : NodeInfo.t :=
  NodeInfo.mk (Node.id node) (Node.name node) (Node.type node) (Node.status node)
              (Node.trustScore node) (connectionsOf node) (relevanceOf node).

(** The loop of [performNodeSearch], with its [break] once [limit] results
    are collected. *)
Fixpoint collectMatches (limit : nat) (query : Query.t) (allNodes : list Node.t)
  (results : list NodeInfo.t) : list NodeInfo.t :=
  match allNodes with
  | [] => results
  | node :: rest =>
      if nodeMatchesQuery node query then
        let results' := results ++ [createNodeInfo node] in
        if limit <=? List.length results' then results'
        else collectMatches limit query rest results'
      else collectMatches limit query rest results
  end.

(** [options.limit || 50] *)
Definition effectiveLimit (limit : option nat) : nat :=
  match limit with
  | Some 0 => 50
  | Some l => l
  | None => 50
  end.

Definition performNodeSearch (mesh : registry) (query : Query.t)
  (limit : option nat) : list NodeInfo.t :=
  sortWith lessRelevant
    (collectMatches (effectiveLimit limit) query (map snd mesh) []).

(** A numeric option that is absent or 0 is falsy. *)
Definition truthyNat (o : option nat) : option nat :=
  match o with
  | Some 0 => None
  | _ => o
  end.

(** The comparator of [filterResults] for a given [sortBy]. *)
Definition sortedAfter (sortBy : string) (a b : NodeInfo.t) : bool :=
  if String.eqb sortBy "name"
  then (0 <? localeCompare (NodeInfo.name a) (NodeInfo.name b))%Z
  else if String.eqb sortBy "type"
  then (0 <? localeCompare (NodeInfo.type a) (NodeInfo.type b))%Z
  else if String.eqb sortBy "trustScore"
  then (NodeInfo.trustScore a <? NodeInfo.trustScore b)%Z
  else if String.eqb sortBy "connections"
  then NodeInfo.connections a <? NodeInfo.connections b
  else if String.eqb sortBy "relevance"
  then lessRelevant a b
  else false.

Definition keptByOptions (options : Options.t) (info : NodeInfo.t) : bool :=
  match Options.excludeTypes options with
  | Some types => negb (existsb (String.eqb (NodeInfo.type info)) types)
  | None => true
  end
  && match truthyNat (Options.minConnections options) with
     | Some m => m <=? NodeInfo.connections info
     | None => true
     end
  && match truthyNat (Options.maxConnections options) with
     | Some m => NodeInfo.connections info <=? m
     | None => true
     end.

Definition filterResults (results : list NodeInfo.t) (options : Options.t)
  : list NodeInfo.t :=
  let filtered0 := results in
  let filtered1 :=
    match Options.excludeTypes options with
    | Some types =>
        filter (fun info => negb (existsb (String.eqb (NodeInfo.type info)) types))
               filtered0
    | None => filtered0
    end in
  let filtered2 :=
    match truthyNat (Options.minConnections options) with
    | Some m => filter (fun info => m <=? NodeInfo.connections info) filtered1
    | None => filtered1
    end in
  let filtered3 :=
    match truthyNat (Options.maxConnections options) with
    | Some m => filter (fun info => NodeInfo.connections info <=? m) filtered2
    | None => filtered2
    end in
  let sorted :=
    match truthy (Options.sortBy options) with
    | Some sortBy => sortWith (sortedAfter sortBy) filtered3
    | None => filtered3
    end in
  match truthyNat (Options.limit options) with
  | Some l => firstn l sorted
  | None => sorted
  end.
End Search.

(** *** The discovery cache and its clock

    Times are milliseconds; [now] is the reading of the clock at the call. *)
Module CacheEntry.
Record t (P : Type) : Type := mk {
  payload : P;
  cachedAt : Z;
  accessCount : nat
}.
Arguments mk {P} payload cachedAt accessCount.
Arguments payload {P} t.
Arguments cachedAt {P} t.
Arguments accessCount {P} t.
End CacheEntry.

Definition isCacheValid {P : Type} (now : Z) (cacheEntry : CacheEntry.t P) : bool :=
  (now - CacheEntry.cachedAt cacheEntry <? 5 * 60 * 1000)%Z.

Definition cleanupDiscoveryCache {P : Type} (now : Z)
  (cache : jmap (CacheEntry.t P)) : jmap (CacheEntry.t P) :=
  filter (fun e => negb (30 * 60 * 1000 <? now - CacheEntry.cachedAt (snd e))%Z)
         cache.

(** [getCachedNodeInfo]: the cache after the call and the node returned. *)
Definition getCachedNodeInfo {P : Type} (now : Z) (cache : jmap (CacheEntry.t P))
  (nodeId : string) : jmap (CacheEntry.t P) * option P :=
  match jget cache nodeId with
  | Some cacheEntry =>
      if isCacheValid now cacheEntry
      then (jset cache nodeId
                 (CacheEntry.mk (CacheEntry.payload cacheEntry)
                                (CacheEntry.cachedAt cacheEntry)
                                (S (CacheEntry.accessCount cacheEntry))),
            Some (CacheEntry.payload cacheEntry))
      else (cache, None)
  | None => (cache, None)
  end.

(** ** Vocabulary of the further properties *)

(** In how many places of the router the envelope [messageId] is. *)
Definition whereabouts (r : MessageRouter) (messageId : string) : nat :=
  inIntake r messageId + inDelivery r messageId + inArchive r messageId.

(** Everything the router holds or has delivered. *)
Definition accountedFor (r : MessageRouter) : nat :=
  List.length (messageQueue r) + List.length (deliveryQueue r)
  + List.length (failedMessages r) + messagesDelivered (routingStats r).

(** A pending task that [processDeliveryTask] delivers rather than forwards:
    its path has at most two nodes. *)
Definition deliversAtOnce (t : Task.t) : bool :=
  isPending t && (List.length (Task.routingPath t) <=? 2).

Definition failedInSync (r : MessageRouter) : Prop :=
  messagesFailed (routingStats r) = List.length (failedMessages r).

Definition allPending (r : MessageRouter) : Prop :=
  forallb isPending (deliveryQueue r) = true.

(** Two names that some stored connection joins. *)
Definition directlyLinked (tm : TopologyManager) (a b : string) : Prop :=
  exists e, In e (connections tm) /\ joined (snd e) a b.

(** Consecutive names of the list are linked. *)
Fixpoint chained (tm : TopologyManager) (path : list string) : Prop :=
  match path with
  | a :: (b :: _) as rest => directlyLinked tm a b /\ chained tm rest
  | _ => True
  end.

(** The router after one more delivery has been counted. *)
Definition delivered (r : MessageRouter) : MessageRouter :=
  mkRouter (messageQueue r) (deliveryQueue r) (failedMessages r)
           (countDelivery (routingStats r)) (isInitialized r).

(** The router after a task has been appended to the delivery queue. *)
Definition handedOver (r : MessageRouter) (t : Task.t) : MessageRouter :=
  mkRouter (messageQueue r) (deliveryQueue r ++ [t]) (failedMessages r)
           (routingStats r) (isInitialized r).

Definition nextAttempt (m : Message.t) : Message.t :=
  withAttempts m (Message.routingAttempts m + 1).

(** Calls made on a running router, and a run of them; a call that throws
    leaves the router as it was. *)
Inductive routerCall : Type :=
| Route (message : Message.t)
| ProcessMessages
| ProcessDeliveries
| Retry (messageId : string).

Definition orUnchanged (r : MessageRouter) (outcome : result MessageRouter)
  : MessageRouter :=
  match outcome with
  | Ok r' => r'
  | Throw _ => r
  end.

Definition runCall (mesh : registry) (tm : TopologyManager)
  (receiveMessage : Node.t -> Message.t -> option string)
  (sendMessage : Node.t -> Node.t -> Message.t -> option string)
  (fuel : nat) (acc : option MessageRouter) (call : routerCall)
  : option MessageRouter :=
  match acc with
  | None => None
  | Some r =>
      match call with
      | Route message => Some (orUnchanged r (routeMessage r message))
      | ProcessMessages => processMessageQueue mesh tm fuel r
      | ProcessDeliveries =>
          processDeliveryQueue mesh tm receiveMessage sendMessage fuel r
      | Retry messageId => Some (orUnchanged r (retryFailedMessage r messageId))
      end
  end.

(** No task of the delivery queue would be forwarded. *)
Definition noForwarding (r : MessageRouter) : Prop :=
  forallb deliversAtOnce (deliveryQueue r) = true.









(** *** Reachability over the stored connections *)

(** The ends of a stored connection that are not in [visited]. *)
Definition openEnds (visited : jsset) (e : string * Connection.t) : nat :=
  (if shas visited (Connection.sourceNode (snd e)) then 0 else 1)
  + (if shas visited (Connection.targetNode (snd e)) then 0 else 1).

Definition unexplored (tm : TopologyManager) (visited : jsset) : nat :=
  list_sum (map (openEnds visited) (connections tm)).

(** [reaches tm visited x t]: stored connections lead from [x] to [t]
    through names outside [visited]. *)
Inductive reaches (tm : TopologyManager) (visited : jsset)
  : string -> string -> Prop :=
| reaches_here (x : string) :
    shas visited x = false -> reaches tm visited x x
| reaches_step (x y t : string) :
    shas visited x = false -> directlyLinked tm x y -> reaches tm visited y t ->
    reaches tm visited x t.

(** Some list of names leads from [s] to [t], each joined to the next by a
    stored connection. *)
Definition connectedBy (tm : TopologyManager) (s t : string) : Prop :=
  exists path, hd_error path = Some s /\ last path s = t /\ chained tm path.

(** An entry of the queue of [findFallbackPath], for a search from [s] that
    has expanded the nodes [visited]. *)
Definition soundEntry (tm : TopologyManager) (s : string) (visited : jsset)
  (entry : string * list string) : Prop :=
  exists pre,
    snd entry = pre ++ [fst entry]
    /\ hd_error (snd entry) = Some s
    /\ chained tm (snd entry)
    /\ NoDup (snd entry)
    /\ forall x, In x pre -> shas visited x = true.

(** The nodes of the adjacency map that have [k] neighbours. *)
Definition nodesOfDegree (tm : TopologyManager) (k : nat) : nat :=
  List.length (filter (fun e => List.length (snd e) =? k) (topologyGraph tm)).

(** The count that a histogram holds under [k]; nothing is 0. *)
Definition hcount (h : histogram) (k : nat) : nat :=
  match hget h k with
  | Some c => c
  | None => 0
  end.

(** *** Vocabulary of the properties of the search *)

(** [a] does not rank below [b]. *)
Definition ranksAtLeast (a b : NodeInfo.t) : Prop :=
  (NodeInfo.relevance b <= NodeInfo.relevance a)%Q.

(** The nodes of the registry that match the query, in registry order. *)
Definition matchingNodes (mesh : registry) (query : Query.t) : list Node.t :=
  filter (fun node => nodeMatchesQuery node query) (map snd mesh).

(** [results.slice(0, limit)] when [limit] is truthy. *)
Definition cutAt (limit : option nat) {A : Type} (l : list A) : list A :=
  match truthyNat limit with
  | Some k => firstn k l
  | None => l
  end.

Definition sampleInfo (nm type : string) (connections : nat) (relevance : Q)
  : NodeInfo.t :=
  NodeInfo.mk nm nm type "active" 50 connections relevance.

Definition byCodePoint (a b : string) : Z :=
  match String.compare a b with
  | Lt => (-1)%Z
  | Eq => 0%Z
  | Gt => 1%Z
  end.

(** The age of a cache entry at [now], in milliseconds. *)
Definition ageAt {P : Type} (now : Z) (cacheEntry : CacheEntry.t P) : Z :=
  (now - CacheEntry.cachedAt cacheEntry)%Z.

Definition fiveMinutes : Z := 300000.
Definition thirtyMinutes : Z := 1800000.

(** *** Counting the ends of connections *)

(** The neighbour-set entries that a connection accounts for: one in the
    set of each end, and a single one when its two ends are the same node. *)
Definition connectionEnds (connection : Connection.t) : nat :=
  if String.eqb (Connection.sourceNode connection) (Connection.targetNode connection)
  then 1 else 2.

Definition endsOfConnections (tm : TopologyManager) : nat :=
  list_sum (map (fun e => connectionEnds (snd e)) (connections tm)).

(** The sum of a weight over the values of a map. *)
Definition total {V : Type} (weight : V -> nat) (m : jmap V) : nat :=
  list_sum (map (fun e => weight (snd e)) m).

Definition handshake (tm : TopologyManager) : Prop :=
  carriedInvariant tm
  /\ NoDup (jkeys (topologyGraph tm))
  /\ degreeSum tm = endsOfConnections tm.

Definition isLoop (e : string * Connection.t) : bool :=
  String.eqb (Connection.sourceNode (snd e)) (Connection.targetNode (snd e)).

(** [reachesIn tm visited x t d]: [d] stored connections in a row lead from
    [x] to [t] through names outside [visited]. *)
Inductive reachesIn (tm : TopologyManager) (visited : jsset)
  : string -> string -> nat -> Prop :=
| reachesIn_here (x : string) :
    shas visited x = false -> reachesIn tm visited x x 0
| reachesIn_step (x y t : string) (d : nat) :
    shas visited x = false -> directlyLinked tm x y ->
    reachesIn tm visited y t d -> reachesIn tm visited x t (S d).

(** The queue of the breadth-first search holds paths of one length, followed
    by paths that are one name longer. *)
Definition layered (queue : list (string * list string)) : Prop :=
  exists h shorter longer,
    queue = shorter ++ longer
    /\ (forall e, In e shorter -> List.length (snd e) = h)
    /\ (forall e, In e longer -> List.length (snd e) = S h).

(** ** Properties of the router *)

(** C10. [clearFailedMessages] empties the archive, sets the cumulative
    [messagesFailed] statistic to 0 whatever it was, and returns the number of
    archived messages it removed. *)
Theorem clearFailedMessages_resets (r : MessageRouter) :
  failedMessages (fst (clearFailedMessages r)) = []
  /\ messagesFailed (routingStats (fst (clearFailedMessages r))) = 0
  /\ snd (clearFailedMessages r) = List.length (failedMessages r)
  /\ messageQueue (fst (clearFailedMessages r)) = messageQueue r
  /\ deliveryQueue (fst (clearFailedMessages r)) = deliveryQueue r.
Proof. repeat split. Qed.

Lemma findIndex_first {A : Type} (p : A -> bool) (pre post : list A) (x : A) :
  forallb (fun y => negb (p y)) pre = true ->
  p x = true ->
  findIndex p (pre ++ x :: post) = Some (List.length pre).
Proof.
  induction pre as [|y pre IH]; simpl; intros Hpre Hx.
  - now rewrite Hx.
  - apply andb_true_iff in Hpre as [Hy Hpre].
    apply negb_true_iff in Hy. rewrite Hy, (IH Hpre Hx). reflexivity.
Qed.

Lemma removeAt_middle {A : Type} (pre post : list A) (x : A) :
  removeAt (List.length pre) (pre ++ x :: post) = pre ++ post.
Proof. induction pre as [|y pre IH]; simpl; [reflexivity | now rewrite IH]. Qed.

Lemma nth_error_middle {A : Type} (pre post : list A) (x : A) :
  nth_error (pre ++ x :: post) (List.length pre) = Some x.
Proof. induction pre as [|y pre IH]; simpl; [reflexivity | exact IH]. Qed.

Lemma filter_length_app {A : Type} (p : A -> bool) (l1 l2 : list A) :
  List.length (filter p (l1 ++ l2))
  = List.length (filter p l1) + List.length (filter p l2).
Proof. now rewrite filter_app, length_app. Qed.

Lemma first_entry_with_id (i : string) (l : list Failure.t) (f : Failure.t) :
  In f l -> Message.id (Failure.message f) = i ->
  exists pre g post,
    l = pre ++ g :: post
    /\ Message.id (Failure.message g) = i
    /\ (forall h, In h pre -> Message.id (Failure.message h) <> i).
Proof.
  induction l as [|x l IH]; intros Hin Hid; [contradiction|].
  destruct (String.eqb_spec (Message.id (Failure.message x)) i) as [E|Hne].
  - exists [], x, l. split; [reflexivity|]. split; [exact E|]. intros h [].
  - destruct Hin as [->|Hin]; [congruence|].
    destruct (IH Hin Hid) as (pre & g & post & -> & Hg & Hpre).
    exists (x :: pre), g, post. split; [reflexivity|]. split; [exact Hg|].
    intros h [<-|Hh]; [exact Hne | now apply Hpre].
Qed.

Lemma retryFailedMessage_first (r : MessageRouter) (pre post : list Failure.t)
  (f : Failure.t) :
  failedMessages r = pre ++ f :: post ->
  (forall g, In g pre ->
     Message.id (Failure.message g) <> Message.id (Failure.message f)) ->
  retryFailedMessage r (Message.id (Failure.message f))
  = Ok (mkRouter (messageQueue r ++ [withAttempts (Failure.message f) 0])
                 (deliveryQueue r) (pre ++ post) (routingStats r)
                 (isInitialized r)).
Proof.
  intros Harchive Hfirst. unfold retryFailedMessage. rewrite Harchive.
  rewrite (findIndex_first _ pre post f).
  - now rewrite nth_error_middle, removeAt_middle.
  - apply forallb_forall. intros g Hg. apply negb_true_iff.
    unfold hasMessageId. apply String.eqb_neq. now apply Hfirst.
  - unfold hasMessageId. apply String.eqb_refl.
Qed.

Lemma unique_id_same_entry (l : list Failure.t) (f g : Failure.t) :
  NoDup (map (fun h => Message.id (Failure.message h)) l) ->
  In f l -> In g l ->
  Message.id (Failure.message f) = Message.id (Failure.message g) -> f = g.
Proof.
  induction l as [|x l IH]; simpl; intros Hnd Hf Hg Hid; [contradiction|].
  inversion Hnd as [|? ? Hx Hnd']; subst.
  destruct Hf as [->|Hf], Hg as [->|Hg]; [reflexivity| | |now apply IH].
  - exfalso. apply Hx. rewrite Hid.
    now apply (in_map (fun h => Message.id (Failure.message h))).
  - exfalso. apply Hx. rewrite <- Hid.
    now apply (in_map (fun h => Message.id (Failure.message h))).
Qed.

(** C8, as the code has it.  A message as [routeMessage] enqueues it (no
    attempt yet, cap 3): its first two failures put it back at the end of
    the queue of the stage that failed, with the attempt counter advanced;
    its third failure appends one entry to the failed archive, which then
    holds one entry more for this message, and adds exactly 1 to
    [messagesFailed].  [retryFailedMessage] is called with an identifier:
    for every archived message it takes the first entry that carries the
    identifier of the message out of the archive and appends the message of
    that entry to the intake queue with its attempt counter back at 0; this
    entry is the archived message itself when no earlier entry shares its
    identifier, and so whenever the identifiers in the archive are all
    different. *)
Theorem retry_cap_and_resubmission
  (i s t : string) (path : list jsval) (hop : nat) (st : taskStatus)
  (e1 e2 e3 : string) (r1 r2 r3 r : MessageRouter)
  (pre post : list Failure.t) (f : Failure.t) :
  let m := fun k => Message.mk i s t k 3 in
  let task := fun k st' => Task.mk (m k) path hop st' in
  let idOf := fun h => Message.id (Failure.message h) in
  (handleMessageFailure r1 (m 0) e1 = requeuedIntake r1 (m 1)
   /\ handleMessageFailure r2 (m 1) e2 = requeuedIntake r2 (m 2)
   /\ handleMessageFailure r3 (m 2) e3 = archived r3 (Failure.mk (m 3) e3 None))
  /\ (handleDeliveryFailure r1 (task 0 st) e1 = requeuedDelivery r1 (task 1 Pending)
      /\ handleDeliveryFailure r2 (task 1 st) e2 = requeuedDelivery r2 (task 2 Pending)
      /\ handleDeliveryFailure r3 (task 2 st) e3
         = archived r3 (Failure.mk (m 3) e3 (Some path)))
  /\ (failedMessages (archived r3 f) = failedMessages r3 ++ [f]
      /\ inArchive (archived r3 f) (idOf f) = S (inArchive r3 (idOf f))
      /\ messagesFailed (routingStats (archived r3 f))
         = S (messagesFailed (routingStats r3)))
  /\ (failedMessages r = pre ++ f :: post ->
      (forall g, In g pre -> idOf g <> idOf f) ->
      retryFailedMessage r (idOf f)
      = Ok (mkRouter (messageQueue r ++ [withAttempts (Failure.message f) 0])
                     (deliveryQueue r) (pre ++ post) (routingStats r)
                     (isInitialized r)))
  /\ (In f (failedMessages r) ->
      exists before g after,
        failedMessages r = before ++ g :: after
        /\ idOf g = idOf f
        /\ (forall h, In h before -> idOf h <> idOf f)
        /\ retryFailedMessage r (idOf f)
           = Ok (mkRouter (messageQueue r ++ [withAttempts (Failure.message g) 0])
                          (deliveryQueue r) (before ++ after) (routingStats r)
                          (isInitialized r))
        /\ (NoDup (map idOf (failedMessages r)) -> g = f)).
Proof.
  intros m task idOf.
  split; [repeat split|]. split; [repeat split|].
  split; [split; [reflexivity|split; [|reflexivity]]|split].
  - unfold inArchive, archived; simpl.
    rewrite filter_length_app; simpl.
    unfold hasMessageId at 2. unfold idOf. rewrite String.eqb_refl. simpl. lia.
  - apply retryFailedMessage_first.
  - intros Hin.
    destruct (first_entry_with_id (idOf f) (failedMessages r) f Hin eq_refl)
      as (before & g & after & Hl & Hg & Hbefore).
    exists before, g, after. split; [exact Hl|]. split; [exact Hg|].
    split; [exact Hbefore|]. split.
    + unfold idOf in *. rewrite <- Hg. apply retryFailedMessage_first; [exact Hl|].
      rewrite Hg. exact Hbefore.
    + intros Hnd. apply (unique_id_same_entry (failedMessages r)); auto.
      rewrite Hl. apply in_or_app. right. now left.
Qed.

Lemma retry_cap_and_resubmission_witness :
  retryFailedMessage
    (mkRouter [] []
       [Failure.mk (Message.mk "m1" "A" "Z" 3 3) "Target node not found: Z" None]
       (mkStats 1 0 1) true)
    "m1"
  = Ok (mkRouter [Message.mk "m1" "A" "Z" 0 3] [] [] (mkStats 1 0 1) true).
Proof.
  exact (proj1 (proj2 (proj2 (proj2
    (retry_cap_and_resubmission "m1" "A" "Z" [] 0 Pending "e" "e" "e"
       idleRouter idleRouter idleRouter
       (mkRouter [] []
          [Failure.mk (Message.mk "m1" "A" "Z" 3 3) "Target node not found: Z" None]
          (mkStats 1 0 1) true)
       [] []
       (Failure.mk (Message.mk "m1" "A" "Z" 3 3) "Target node not found: Z" None)))))
    eq_refl (fun g (H : In g []) => match H with end)).
Defined.

(** Two messages routed under the same identifier [m1], both for names that
    the registry does not hold, are archived after three intake passes.
    [retryFailedMessage] with this identifier then takes out the first
    entry: the message from [B] to [Y], archived as well, stays in the
    archive, and the message queued is the one from [A] to [Z]. *)
Lemma retry_by_identifier_takes_the_earlier_entry :
  fold_left (runCall meshABC lineABC alwaysResolves2 alwaysResolves3 0)
    [Route (Message.mk "m1" "A" "Z" 0 0); Route (Message.mk "m1" "B" "Y" 0 0);
     ProcessMessages; ProcessMessages; ProcessMessages]
    (Some idleRouter)
  = Some twiceArchived
  /\ In (Failure.mk (Message.mk "m1" "B" "Y" 3 3) "Target node not found: Y" None)
        (failedMessages twiceArchived)
  /\ retryFailedMessage twiceArchived
       (Message.id
          (Failure.message
             (Failure.mk (Message.mk "m1" "B" "Y" 3 3) "Target node not found: Y"
                         None)))
     = Ok (mkRouter [Message.mk "m1" "A" "Z" 0 3] []
             [Failure.mk (Message.mk "m1" "B" "Y" 3 3) "Target node not found: Y"
                         None]
             (mkStats 2 0 2) true).
Proof.
  split; [reflexivity|]. split; [right; left; reflexivity | reflexivity].
Qed.

Lemma handleMessageFailure_below_cap (r : MessageRouter) (m : Message.t) (e : string) :
  Message.routingAttempts m + 1 < Message.maxRoutingAttempts m ->
  handleMessageFailure r m e
  = requeuedIntake r (withAttempts m (Message.routingAttempts m + 1)).
Proof.
  intros H. unfold handleMessageFailure; simpl.
  apply Nat.ltb_lt in H. now rewrite H.
Qed.

Lemma handleMessageFailure_at_cap (r : MessageRouter) (m : Message.t) (e : string) :
  Message.maxRoutingAttempts m <= Message.routingAttempts m + 1 ->
  handleMessageFailure r m e
  = archived r (Failure.mk (withAttempts m (Message.routingAttempts m + 1)) e None).
Proof.
  intros H. unfold handleMessageFailure; simpl.
  apply Nat.ltb_ge in H. now rewrite H.
Qed.

Lemma handleMessageFailure_keeps_delivery (r : MessageRouter) (m : Message.t)
  (e : string) :
  deliveryQueue (handleMessageFailure r m e) = deliveryQueue r.
Proof. unfold handleMessageFailure; simpl. now destruct (_ <? _). Qed.

(** C3, as the code has it.  A message whose target is not in the registry
    when it is processed fails at once with the error
    [Target node not found: <target>] and is not given to the delivery
    queue.  The failure counts as one routing attempt: while the counter
    stays below [maxRoutingAttempts] the message goes back to the end of the
    intake queue, and when the counter reaches [maxRoutingAttempts] it moves
    to the failed archive and [messagesFailed] grows by 1. *)
Theorem unknown_target_fails_and_is_retried_to_the_cap
  (mesh : registry) (tm : TopologyManager) (fuel : nat)
  (r : MessageRouter) (m : Message.t)
  (Habsent : jhas mesh (Message.targetNode m) = false) :
  let err := ("Target node not found: " ++ Message.targetNode m)%string in
  let m' := withAttempts m (Message.routingAttempts m + 1) in
  processMessage mesh tm fuel r m = Some (Throw err)
  /\ processMessageStep mesh tm fuel (Some r) m = Some (handleMessageFailure r m err)
  /\ deliveryQueue (handleMessageFailure r m err) = deliveryQueue r
  /\ (Message.routingAttempts m + 1 < Message.maxRoutingAttempts m ->
      handleMessageFailure r m err = requeuedIntake r m')
  /\ (Message.maxRoutingAttempts m <= Message.routingAttempts m + 1 ->
      handleMessageFailure r m err = archived r (Failure.mk m' err None)).
Proof.
  intros err m'.
  assert (Hp : processMessage mesh tm fuel r m = Some (Throw err)).
  { unfold processMessage. now rewrite Habsent. }
  split; [exact Hp|].
  split; [unfold processMessageStep; now rewrite Hp|].
  split; [apply handleMessageFailure_keeps_delivery|].
  split; [apply handleMessageFailure_below_cap | apply handleMessageFailure_at_cap].
Qed.

Lemma unknown_target_fails_and_is_retried_to_the_cap_witness :
  processMessage meshABC lineABC 0 idleRouter (Message.mk "m1" "A" "Z" 0 3)
  = Some (Throw "Target node not found: Z").
Proof.
  exact (proj1 (unknown_target_fails_and_is_retried_to_the_cap
                  meshABC lineABC 0 idleRouter (Message.mk "m1" "A" "Z" 0 3)
                  eq_refl)).
Defined.

(** A message for the unregistered name [Z], accepted by [routeMessage] and
    processed once, is back in the intake queue with one attempt counted. *)
Lemma unknown_target_is_requeued :
  jhas meshABC "Z" = false
  /\ routeMessage idleRouter (Message.mk "m1" "A" "Z" 0 0)
     = Ok (mkRouter [Message.mk "m1" "A" "Z" 0 3] [] [] (mkStats 1 0 0) true)
  /\ processMessageQueue meshABC lineABC 0
       (mkRouter [Message.mk "m1" "A" "Z" 0 3] [] [] (mkStats 1 0 0) true)
     = Some (mkRouter [Message.mk "m1" "A" "Z" 1 3] [] [] (mkStats 1 0 0) true)
  /\ inIntake (mkRouter [Message.mk "m1" "A" "Z" 1 3] [] [] (mkStats 1 0 0) true)
              "m1" = 1.
Proof. repeat split. Qed.

(** The same message over three intake passes: retried twice, then archived. *)
Example unknown_target_three_passes :
  forall fuel,
    let pass := fun o => match o with
                         | Some r => processMessageQueue meshABC lineABC fuel r
                         | None => None
                         end in
    pass (pass (pass (Some (mkRouter [Message.mk "m1" "A" "Z" 0 3] [] []
                                     (mkStats 1 0 0) true))))
    = Some (mkRouter [] []
              [Failure.mk (Message.mk "m1" "A" "Z" 3 3)
                          "Target node not found: Z" None]
              (mkStats 1 0 1) true).
Proof. intros fuel. reflexivity. Qed.

(** The branch of [processDeliveryTask] that forwards to the next hop returns
    normally, so the loop of [processDeliveryQueue] leaves the router as it
    was after the task had been taken out of the queue. *)
Lemma forward_leaves_router_unchanged
  (mesh : registry) (tm : TopologyManager)
  (receiveMessage : Node.t -> Message.t -> option string)
  (sendMessage : Node.t -> Node.t -> Message.t -> option string)
  (fuel : nat) (r : MessageRouter) (task : Task.t) :
  Task.status task = Pending ->
  Task.currentHop task + 1 < List.length (Task.routingPath task) ->
  2 < List.length (Task.routingPath task) ->
  canRouteThroughNode mesh tm
    (nth (Task.currentHop task) (Task.routingPath task) JUndef)
    (nth (Task.currentHop task + 1) (Task.routingPath task) JUndef) = true ->
  forwardMessage mesh sendMessage (Task.message task)
    (nth (Task.currentHop task) (Task.routingPath task) JUndef)
    (nth (Task.currentHop task + 1) (Task.routingPath task) JUndef) = Ok tt ->
  processDeliveryStep mesh tm receiveMessage sendMessage fuel (Some r) task = Some r.
Proof.
  intros Hst Hhop Hlen Hcan Hfwd.
  unfold processDeliveryStep, processDeliveryTask. rewrite Hst.
  destruct (Nat.leb_spec (List.length (Task.routingPath task))
                         (Task.currentHop task + 1)) as [Hle|_]; [lia|].
  destruct (Nat.eqb_spec (List.length (Task.routingPath task)) 2) as [E|_]; [lia|].
  simpl. now rewrite Hcan, Hfwd.
Qed.

(** A delivery queue made by hand, holding a pending task for the message
    [m1] from [A] to [C] along the path [A, B, C] of the line network, at
    hop 0: one pass of [processDeliveryQueue] forwards it from [A] to [B]
    and returns; the envelope is then in neither queue nor in the archive,
    and [messagesDelivered] has not moved.  No run of the router comes to
    such a queue: the paths that [processMessage] hands over have two
    names. *)
Example forwarded_envelope_is_in_no_queue :
  forall fuel,
    let r := mkRouter []
               [Task.mk (Message.mk "m1" "A" "C" 0 3)
                        [JStr "A"; JStr "B"; JStr "C"] 0 Pending]
               [] (mkStats 1 0 0) true in
    let r' := mkRouter [] [] [] (mkStats 1 0 0) true in
    processDeliveryQueue meshABC lineABC alwaysResolves2 alwaysResolves3 fuel r
    = Some r'
    /\ inIntake r' "m1" = 0 /\ inDelivery r' "m1" = 0 /\ inArchive r' "m1" = 0
    /\ messagesDelivered (routingStats r') = messagesDelivered (routingStats r).
Proof. intros fuel. repeat split. Qed.

(** For contrast: a task along a direct connection is delivered in one pass
    and counted; a task whose forwarding is refused by [sendMessage] goes
    back to the delivery queue with one attempt counted. *)
Example direct_task_is_delivered_and_refused_forward_is_requeued :
  processDeliveryQueue meshABC lineABC alwaysResolves2 alwaysResolves3 0
    (mkRouter [] [Task.mk (Message.mk "m1" "A" "B" 0 3) [JStr "A"; JStr "B"] 0 Pending]
              [] (mkStats 1 0 0) true)
  = Some (mkRouter [] [] [] (mkStats 1 1 0) true)
  /\ processDeliveryQueue meshABC lineABC alwaysResolves2
       (fun _ _ _ => Some "link down") 0
       (mkRouter []
          [Task.mk (Message.mk "m1" "A" "C" 0 3) [JStr "A"; JStr "B"; JStr "C"] 0
                   Pending]
          [] (mkStats 1 0 0) true)
     = Some (mkRouter []
               [Task.mk (Message.mk "m1" "A" "C" 1 3)
                        [JStr "A"; JStr "B"; JStr "C"] 0 Pending]
               [] (mkStats 1 0 0) true).
Proof. split; reflexivity. Qed.

(** The breadth-first search of [findFallbackPath], which
    [determineRoutingPath] turns to when [findShortestPath] answers [null],
    yields the three-node path of the line. *)
Example fallback_path_of_the_line :
  findFallbackPath lineABC 10 "A" "C" = Some (Some ["A"; "B"; "C"]).
Proof. reflexivity. Qed.

(** ** Properties of the shortest-path search *)

Lemma previousOf_not_null (prev : jmap string) (current : jsval) :
  previousOf prev current <> JNull.
Proof. unfold previousOf. destruct (jget_val prev current); discriminate. Qed.

Lemma reconstructPath_runs_on (fuel : nat) :
  forall (prev : jmap string) (current : jsval) (path : list jsval),
    current <> JNull -> reconstructPath fuel prev current path = None.
Proof.
  induction fuel as [|fuel IH]; intros prev current path Hc; simpl.
  - reflexivity.
  - destruct current; try congruence; apply IH, previousOf_not_null.
Qed.

(** C2.  For two registered nodes the call does not come back within any
    number of rounds of its reconstruction loop, whatever the graph: the loop
    runs until [current] is [null], and [previous.get] only ever yields a
    name or [undefined]. *)
Theorem findShortestPath_never_returns
  (fuel : nat) (mesh : registry) (tm : TopologyManager) (a b : jsval)
  (sourceNode targetNode : Node.t)
  (Ha : jget_val mesh a = Some sourceNode)
  (Hb : jget_val mesh b = Some targetNode) :
  findShortestPath fuel mesh tm a b = None.
Proof.
  unfold findShortestPath. rewrite Ha, Hb.
  rewrite reconstructPath_runs_on; [reflexivity | discriminate].
Qed.

Lemma findShortestPath_never_returns_witness :
  getConnection lineABC (JStr "A") (JStr "B") = Some (Connection.mk "c1" "A" "B")
  /\ findShortestPath 1000 meshABC lineABC (JStr "A") (JStr "B") = None.
Proof.
  split; [reflexivity|].
  exact (findShortestPath_never_returns 1000 meshABC lineABC (JStr "A") (JStr "B")
           (sampleNode "A") (sampleNode "B") eq_refl eq_refl).
Defined.

(** With nodes whose [id] is their name the search loop does find the
    predecessors along A - B - C - D; the reconstruction that follows walks
    them back to [A] and then runs on. *)
Example search_succeeds_and_reconstruction_runs_on :
  previous (searchFrom lineNamed "A" "D") = [("B", "A"); ("C", "B"); ("D", "C")]
  /\ distances (searchFrom lineNamed "A" "D")
     = [("A", Some 0); ("B", Some 1); ("C", Some 2); ("D", Some 3)]
  /\ forall fuel,
       findShortestPath fuel meshNamed lineNamed (JStr "A") (JStr "D") = None.
Proof.
  split; [reflexivity|]. split; [reflexivity|].
  intros fuel. unfold findShortestPath. simpl jget_val. cbv iota.
  rewrite reconstructPath_runs_on; [reflexivity | discriminate].
Qed.

(** With ids that differ from the names the source is entered under a key
    that no node carries, and the search loop visits nothing. *)
Example search_with_foreign_ids_visits_nothing :
  previous (searchFrom lineABC "id-A" "id-C") = []
  /\ unvisited (searchFrom lineABC "id-A" "id-C") = ["A"; "B"; "C"].
Proof. split; reflexivity. Qed.

(** ** Properties of query matching *)

Lemma nodeMatchesQuery_conjunction (node : Node.t) (query : Query.t) :
  nodeMatchesQuery node query
  = nameMatches node query && typeMatches node query
    && capabilityMatches node query && statusMatches node query
    && trustMatches node query.
Proof.
  unfold nodeMatchesQuery.
  destruct (nameMatches node query), (typeMatches node query),
    (capabilityMatches node query), (statusMatches node query),
    (trustMatches node query); reflexivity.
Qed.

(** What the capability test of the code accepts: some capability of the
    node, under any name, is [true], or some string-valued capability
    contains the queried text. *)
Lemma capabilityMatches_any_true (node : Node.t) (query : Query.t) (q : string) :
  truthy (Query.capability query) = Some q ->
  (capabilityMatches node query = true <->
   (exists k, In (k, CapBool true) (Node.capabilities node))
   \/ (exists k s, In (k, CapStr s) (Node.capabilities node)
                   /\ includes (toLowerCase s) (toLowerCase q) = true)).
Proof.
  intros Hq. unfold capabilityMatches. rewrite Hq. rewrite existsb_exists. split.
  - intros (cap & Hin & Hhit). apply in_map_iff in Hin as ((k, v) & Hv & Hin).
    simpl in Hv; subst v. destruct cap as [[|]|s|z]; simpl in Hhit; try discriminate.
    + left; now exists k.
    + right; now exists k, s.
  - intros [(k & Hin) | (k & s & Hin & Hs)].
    + exists (CapBool true). split; [|reflexivity].
      apply in_map_iff. now exists (k, CapBool true).
    + exists (CapStr s). split; [|exact Hs].
      apply in_map_iff. now exists (k, CapStr s).
Qed.

(** C4.  A node whose only capability is [routing: true] is matched by the
    query [{capability: "gateway"}], although it has no capability named
    [gateway] and no string-valued capability at all. *)
Theorem capability_query_matches_any_true_flag :
  let node := Node.mk "id-R" "R" "router" "active" [("routing", CapBool true)] 80 in
  let query := Query.mk None None (Some "gateway") None None in
  nodeMatchesQuery node query = true /\ ~ capabilityPresent node "gateway".
Proof.
  intros node query. split; [reflexivity|].
  intros [H | (k & s & Hin & _)].
  - discriminate H.
  - destruct Hin as [E | []]. discriminate E.
Qed.

(** ** Properties of the network diameter *)

Lemma fold_left_invariant {A B : Type} (I : A -> Prop) (f : A -> B -> A)
  (l : list B) :
  (forall a x, In x l -> I a -> I (f a x)) ->
  forall a, I a -> I (fold_left f l a).
Proof.
  induction l as [|x l IH]; simpl; intros Hf a Ha.
  - exact Ha.
  - apply IH; [intros; apply Hf; auto | apply Hf; auto].
Qed.

Lemma scanEntry_max (D : matrix) (i m j : nat) :
  scanEntry D i m j = Nat.max m (finiteOr0 (mget D i j)).
Proof.
  unfold scanEntry. destruct (mget D i j) as [x|]; simpl.
  - destruct (Nat.ltb_spec m x); lia.
  - lia.
Qed.

Section MaxFold.
Context {B : Type} (g : B -> nat).

Lemma max_fold_ge_init (l : list B) (a : nat) :
  a <= fold_left (fun m x => Nat.max m (g x)) l a.
Proof.
  revert a; induction l as [|x l IH]; simpl; intros a; [lia|].
  specialize (IH (Nat.max a (g x))). lia.
Qed.

Lemma max_fold_ge_each (l : list B) (a : nat) (x : B) :
  In x l -> g x <= fold_left (fun m x => Nat.max m (g x)) l a.
Proof.
  revert a; induction l as [|y l IH]; simpl; intros a Hin; [contradiction|].
  destruct Hin as [E|Hin].
  - subst y. pose proof (max_fold_ge_init l (Nat.max a (g x))). lia.
  - now apply IH.
Qed.

Lemma max_fold_attained (l : list B) (a : nat) :
  fold_left (fun m x => Nat.max m (g x)) l a = a
  \/ exists x, In x l /\ fold_left (fun m x => Nat.max m (g x)) l a = g x.
Proof.
  revert a; induction l as [|y l IH]; simpl; intros a; [now left|].
  destruct (IH (Nat.max a (g y))) as [E | (x & Hin & E)].
  - destruct (Nat.max_spec a (g y)) as [[_ M]|[_ M]].
    + right. exists y. split; [now left | rewrite E; exact M].
    + left. rewrite E; exact M.
  - right. exists x. split; [now right | exact E].
Qed.
End MaxFold.

Lemma rowMax_as_max_fold (D : matrix) (n m i : nat) :
  rowMax D n m i
  = fold_left (fun a j => Nat.max a (finiteOr0 (mget D i j))) (seq 0 n) m.
Proof.
  unfold rowMax. generalize (seq 0 n) as l. intros l; revert m.
  induction l as [|j l IH]; simpl; intros m; [reflexivity|].
  now rewrite scanEntry_max, IH.
Qed.

Lemma rowMax_ge_init (D : matrix) (n m i : nat) : m <= rowMax D n m i.
Proof. rewrite rowMax_as_max_fold. apply max_fold_ge_init. Qed.

Lemma rowMax_ge_entry (D : matrix) (n m i j x : nat) :
  j < n -> mget D i j = Some x -> x <= rowMax D n m i.
Proof.
  intros Hj Hx. rewrite rowMax_as_max_fold.
  change x with (finiteOr0 (Some x)). rewrite <- Hx.
  apply (max_fold_ge_each (fun j => finiteOr0 (mget D i j))).
  apply in_seq; lia.
Qed.

Lemma rowMax_attained (D : matrix) (n m i : nat) :
  rowMax D n m i = m
  \/ exists j, j < n /\ mget D i j = Some (rowMax D n m i).
Proof.
  rewrite rowMax_as_max_fold.
  destruct (max_fold_attained (fun j => finiteOr0 (mget D i j)) (seq 0 n) m)
    as [E | (j & Hin & E)]; [now left|].
  apply in_seq in Hin. destruct (mget D i j) as [x|] eqn:Hx; simpl in E.
  - right. exists j. split; [lia | now rewrite E].
  - left. pose proof (max_fold_ge_init (fun j => finiteOr0 (mget D i j))
                        (seq 0 n) m). lia.
Qed.

Lemma scanMatrix_rows (D : matrix) (n : nat) :
  scanMatrix D n = fold_left (rowMax D n) (seq 0 n) 0.
Proof. reflexivity. Qed.

Lemma rows_ge_init (D : matrix) (n : nat) (l : list nat) (m : nat) :
  m <= fold_left (rowMax D n) l m.
Proof.
  revert m; induction l as [|i l IH]; simpl; intros m; [lia|].
  pose proof (rowMax_ge_init D n m i). specialize (IH (rowMax D n m i)). lia.
Qed.

Lemma rows_ge_entry (D : matrix) (n : nat) (l : list nat) (m i j x : nat) :
  In i l -> j < n -> mget D i j = Some x -> x <= fold_left (rowMax D n) l m.
Proof.
  revert m; induction l as [|i' l IH]; simpl; intros m Hin Hj Hx; [contradiction|].
  destruct Hin as [E|Hin].
  - subst i'. pose proof (rowMax_ge_entry D n m i j x Hj Hx).
    pose proof (rows_ge_init D n l (rowMax D n m i)). lia.
  - now apply IH.
Qed.

Lemma rows_attained (D : matrix) (n : nat) (l : list nat) (m : nat) :
  fold_left (rowMax D n) l m = m
  \/ exists i j, In i l /\ j < n
                 /\ mget D i j = Some (fold_left (rowMax D n) l m).
Proof.
  revert m; induction l as [|i l IH]; simpl; intros m; [now left|].
  destruct (IH (rowMax D n m i)) as [E | (i' & j & Hin & Hj & E)].
  - rewrite E. destruct (rowMax_attained D n m i) as [E' | (j & Hj & E')].
    + now left.
    + right. exists i, j. auto.
  - right. exists i', j. auto.
Qed.

Lemma Forall_replace_nth {A : Type} (P : A -> Prop) (l : list A) (i : nat) (x : A) :
  Forall P l -> P x -> Forall P (replace_nth l i x).
Proof.
  intros Hl Hx. revert i. induction Hl as [|y l Hy Hl IH]; intros i; simpl.
  - constructor.
  - destruct i; constructor; auto.
Qed.

Lemma Forall_nth_row (P : dist -> Prop) (d : matrix) (i : nat) :
  matrixAll P d -> Forall P (nth i d []).
Proof.
  intros Hd. destruct (nth_in_or_default i d []) as [Hin | E].
  - unfold matrixAll in Hd. rewrite Forall_forall in Hd. now apply Hd.
  - rewrite E. constructor.
Qed.

Lemma matrixAll_mget (P : dist -> Prop) (d : matrix) (i j : nat) :
  P None -> matrixAll P d -> P (mget d i j).
Proof.
  intros HN Hd. unfold mget.
  pose proof (Forall_nth_row P d i Hd) as Hrow.
  destruct (nth_in_or_default j (nth i d []) None) as [Hin | E].
  - rewrite Forall_forall in Hrow. now apply Hrow.
  - now rewrite E.
Qed.

Lemma matrixAll_mset (P : dist -> Prop) (d : matrix) (i j : nat) (v : dist) :
  matrixAll P d -> P v -> matrixAll P (mset d i j v).
Proof.
  intros Hd Hv. unfold mset, matrixAll.
  apply Forall_replace_nth; [exact Hd|].
  apply Forall_replace_nth; [now apply Forall_nth_row | exact Hv].
Qed.

Lemma floydWarshall_without_connections (tm : TopologyManager) :
  connections tm = [] -> matrixAll zeroOrInfinite (floydWarshall tm).
Proof.
  intros Hc. unfold floydWarshall, directDistances, relaxRound. rewrite Hc. simpl.
  set (n := List.length (jkeys (nodes tm))).
  apply fold_left_invariant; [intros d k _ Hd|].
  - apply fold_left_invariant; [intros d' i _ Hd'|exact Hd].
    apply fold_left_invariant; [intros d'' j _ Hd''|exact Hd'].
    unfold relax.
    destruct (dist_ltb _ _); [|exact Hd''].
    apply matrixAll_mset; [exact Hd''|].
    assert (HN : zeroOrInfinite None) by now left.
    destruct (matrixAll_mget _ d'' i k HN Hd'') as [E1|E1],
             (matrixAll_mget _ d'' k j HN Hd'') as [E2|E2];
      rewrite E1, E2; simpl; unfold zeroOrInfinite; auto.
  - apply fold_left_invariant.
    + intros d i _ Hd. apply matrixAll_mset; [exact Hd | now right].
    + unfold matrixAll. apply Forall_forall. intros row Hrow.
      apply repeat_spec in Hrow. subst row.
      apply Forall_forall. intros x Hx. apply repeat_spec in Hx. now left.
Qed.

Lemma diameter_without_connections (tm : TopologyManager) :
  connections tm = [] -> calculateNetworkDiameter tm = 0.
Proof.
  intros Hc. unfold calculateNetworkDiameter.
  destruct (List.length (nodes tm) <=? 1); [reflexivity|].
  pose proof (floydWarshall_without_connections tm Hc) as HD.
  unfold scanMatrix.
  apply (fold_left_invariant (fun m => m = 0)); [|reflexivity].
  intros m i _ Hm.
  apply (fold_left_invariant (fun m => m = 0)); [|exact Hm].
  intros m' j _ Hm'. subst m'. rewrite scanEntry_max.
  assert (HN : zeroOrInfinite None) by now left.
  destruct (matrixAll_mget _ (floydWarshall tm) i j HN HD) as [E|E]; now rewrite E.
Qed.

(** ** Floyd-Warshall: the matrix holds least walk weights *)

Lemma length_replace_nth {A : Type} (l : list A) (i : nat) (x : A) :
  List.length (replace_nth l i x) = List.length l.
Proof.
  revert i; induction l as [|y l IH]; intros [|i]; simpl; auto.
Qed.

Lemma nth_replace_nth_same {A : Type} (l : list A) (i : nat) (x d : A) :
  i < List.length l -> nth i (replace_nth l i x) d = x.
Proof.
  revert i; induction l as [|y l IH]; intros [|i]; simpl; intros H;
    try lia; auto. apply IH. lia.
Qed.

Lemma nth_replace_nth_other {A : Type} (l : list A) (i j : nat) (x d : A) :
  i <> j -> nth j (replace_nth l i x) d = nth j l d.
Proof.
  revert i j; induction l as [|y l IH]; intros [|i] [|j]; simpl; intros H;
    try reflexivity; try lia. apply IH. lia.
Qed.

Lemma replace_nth_beyond {A : Type} (l : list A) (i : nat) (x : A) :
  List.length l <= i -> replace_nth l i x = l.
Proof.
  revert i; induction l as [|y l IH]; intros [|i]; simpl; intros H;
    try reflexivity; try lia. rewrite IH; [reflexivity | lia].
Qed.

Lemma square_row (n : nat) (d : matrix) (i : nat) :
  square n d -> i < n -> List.length (nth i d []) = n.
Proof.
  intros [Hl Hr] Hi. rewrite Forall_forall in Hr. apply Hr.
  apply nth_In. lia.
Qed.

Lemma square_mset (n : nat) (d : matrix) (i j : nat) (v : dist) :
  square n d -> i < n -> square n (mset d i j v).
Proof.
  intros Hsq Hi. pose proof (square_row n d i Hsq Hi) as Hrow.
  destruct Hsq as [Hl Hr]. unfold mset. split.
  - now rewrite length_replace_nth.
  - apply Forall_replace_nth; [exact Hr|]. now rewrite length_replace_nth.
Qed.

Lemma mget_mset_same (n : nat) (d : matrix) (i j : nat) (v : dist) :
  square n d -> i < n -> j < n -> mget (mset d i j v) i j = v.
Proof.
  intros Hsq Hi Hj. pose proof (square_row n d i Hsq Hi) as Hrow.
  destruct Hsq as [Hl _]. unfold mget, mset.
  rewrite nth_replace_nth_same by lia. apply nth_replace_nth_same. lia.
Qed.

Lemma mget_mset_other (d : matrix) (i j i' j' : nat) (v : dist) :
  i' <> i \/ j' <> j -> mget (mset d i j v) i' j' = mget d i' j'.
Proof.
  intros H. unfold mget, mset.
  destruct (Nat.eq_dec i' i) as [->|Hi].
  - destruct H as [H|Hj]; [congruence|].
    destruct (Nat.lt_ge_cases i (List.length d)) as [Hlt|Hge].
    + rewrite nth_replace_nth_same by exact Hlt.
      apply nth_replace_nth_other. congruence.
    + now rewrite replace_nth_beyond.
  - rewrite nth_replace_nth_other by congruence. reflexivity.
Qed.

Lemma mget_mset (n : nat) (d : matrix) (i j i' j' : nat) (v : dist) :
  square n d -> i < n -> j < n ->
  mget (mset d i j v) i' j'
  = if (i' =? i) && (j' =? j) then v else mget d i' j'.
Proof.
  intros Hsq Hi Hj.
  destruct (Nat.eqb_spec i' i) as [->|Hne]; simpl.
  - destruct (Nat.eqb_spec j' j) as [->|Hne].
    + now apply (mget_mset_same n).
    + apply mget_mset_other. now right.
  - apply mget_mset_other. now left.
Qed.

Lemma mget_in_range (n : nat) (d : matrix) (i j : nat) (x : nat) :
  square n d -> mget d i j = Some x -> i < n /\ j < n.
Proof.
  intros Hsq H. unfold mget in H.
  destruct (Nat.lt_ge_cases i n) as [Hi|Hi].
  - split; [exact Hi|]. pose proof (square_row n d i Hsq Hi) as Hrow.
    destruct (Nat.lt_ge_cases j n) as [Hj|Hj]; [exact Hj|].
    rewrite nth_overflow in H by lia. discriminate.
  - destruct Hsq as [Hl _]. rewrite (nth_overflow d) in H by lia.
    destruct j; discriminate.
Qed.

Lemma dist_le_refl (a : dist) : dist_le a a.
Proof. destruct a; simpl; auto. Qed.

Lemma dist_le_trans (a b c : dist) : dist_le a b -> dist_le b c -> dist_le a c.
Proof. destruct a, b, c; simpl; intros; try tauto; lia. Qed.

Lemma dist_le_add (a b a' b' : dist) :
  dist_le a a' -> dist_le b b' -> dist_le (dist_add a b) (dist_add a' b').
Proof. destruct a, b, a', b'; simpl; intros; try tauto; lia. Qed.

Lemma below_refl (d : matrix) : below d d.
Proof. intros i j. apply dist_le_refl. Qed.

Lemma below_trans (a b c : matrix) : below a b -> below b c -> below a c.
Proof. intros H1 H2 i j. eapply dist_le_trans; [apply H1 | apply H2]. Qed.

Lemma dist_ltb_le (a b : dist) : dist_ltb a b = true -> dist_le a b.
Proof.
  destruct a, b; simpl; intros H; try discriminate; auto.
  apply Nat.ltb_lt in H. lia.
Qed.

Lemma dist_ltb_ge (a b : dist) : dist_ltb a b = false -> dist_le b a.
Proof.
  destruct a, b; simpl; intros H; try discriminate; auto.
  apply Nat.ltb_ge in H. lia.
Qed.

(** What one [relax] does, cell by cell. *)
Lemma relax_cell (n : nat) (d : matrix) (k i j : nat) :
  square n d -> i < n -> j < n ->
  square n (relax k i d j)
  /\ below (relax k i d j) d
  /\ dist_le (mget (relax k i d j) i j) (dist_add (mget d i k) (mget d k j))
  /\ (forall i' j' x, mget (relax k i d j) i' j' = Some x ->
        mget d i' j' = Some x
        \/ (exists a b, mget d i k = Some a /\ mget d k j = Some b /\ x = a + b
                        /\ i' = i /\ j' = j)).
Proof.
  intros Hsq Hi Hj. unfold relax.
  destruct (dist_ltb (dist_add (mget d i k) (mget d k j)) (mget d i j)) eqn:E.
  - split; [now apply square_mset|]. split; [|split].
    + intros i' j'.
      destruct (Nat.eq_dec i' i) as [->|Hi'];
        [destruct (Nat.eq_dec j' j) as [->|Hj']|].
      * rewrite (mget_mset_same n) by assumption. now apply dist_ltb_le.
      * rewrite mget_mset_other by auto. apply dist_le_refl.
      * rewrite mget_mset_other by auto. apply dist_le_refl.
    + rewrite (mget_mset_same n) by assumption. apply dist_le_refl.
    + intros i' j' x Hx.
      destruct (Nat.eq_dec i' i) as [->|Hi'];
        [destruct (Nat.eq_dec j' j) as [->|Hj']|].
      * rewrite (mget_mset_same n) in Hx by assumption. right.
        destruct (mget d i k) as [a|], (mget d k j) as [b|];
          simpl in Hx; try discriminate.
        exists a, b. inversion Hx. auto.
      * rewrite mget_mset_other in Hx by auto. now left.
      * rewrite mget_mset_other in Hx by auto. now left.
  - split; [exact Hsq|]. split; [apply below_refl|]. split.
    + now apply dist_ltb_ge.
    + intros i' j' x Hx. now left.
Qed.

Lemma fold_progress {X : Type} (f : matrix -> X -> matrix)
  (Inv : matrix -> Prop) (P : X -> matrix -> Prop) (l : list X) :
  (forall d x, In x l -> Inv d -> Inv (f d x) /\ below (f d x) d /\ P x (f d x)) ->
  (forall x d d', P x d -> below d' d -> P x d') ->
  forall d, Inv d ->
    Inv (fold_left f l d) /\ below (fold_left f l d) d
    /\ forall x, In x l -> P x (fold_left f l d).
Proof.
  intros Hstep Hstable. induction l as [|x l IH]; intros d Hd; simpl.
  - split; [exact Hd|]. split; [apply below_refl | intros x []].
  - destruct (Hstep d x (or_introl eq_refl) Hd) as (Hi & Hb & Hp).
    destruct IH with (d := f d x) as (Hi' & Hb' & Hp'); [| exact Hi |].
    + intros d' y Hy. apply Hstep. now right.
    + split; [exact Hi'|]. split; [eapply below_trans; eauto|].
      intros y [E|Hy]; [subst y; eapply Hstable; eauto | now apply Hp'].
Qed.

Section FloydWarshall.
Variable W : matrix.
Variable n : nat.
Hypothesis Wsquare : square n W.

Lemma walk_ends_in_range (k i j w : nat) : walk W k i j w -> i < n /\ j < n.
Proof.
  induction 1 as [i j x Hx | i m j x y Hm _ [Hi _] _ [_ Hj]].
  - exact (mget_in_range n W i j x Wsquare Hx).
  - now split.
Qed.

Lemma walk_weaken (k k' i j w : nat) : k <= k' -> walk W k i j w -> walk W k' i j w.
Proof.
  intros Hk. induction 1 as [i j x Hx | i m j x y Hm _ IH1 _ IH2].
  - now apply walk_step.
  - apply walk_via with (m := m); auto. lia.
Qed.

(** A walk through vertices below [k + 1] either stays below [k], up to
    dropping weight, or splits at [k] into two walks below [k]. *)
Lemma walk_split (k i j w : nat) :
  walk W (S k) i j w ->
  (exists w', w' <= w /\ walk W k i j w')
  \/ (exists w1 w2, w1 + w2 <= w /\ walk W k i k w1 /\ walk W k k j w2).
Proof.
  induction 1 as [i j x Hx | i m j x y Hm _ IH1 _ IH2].
  - left. exists x. split; [lia | now apply walk_step].
  - destruct (Nat.eq_dec m k) as [->|Hne].
    + right.
      assert (H1 : exists w1, w1 <= x /\ walk W k i k w1).
      { destruct IH1 as [(w' & Hle & Hw) | (w1 & w2 & Hle & Hw1 & _)].
        - now exists w'.
        - exists w1. split; [lia | exact Hw1]. }
      assert (H2 : exists w2, w2 <= y /\ walk W k k j w2).
      { destruct IH2 as [(w' & Hle & Hw) | (w1 & w2 & Hle & _ & Hw2)].
        - now exists w'.
        - exists w2. split; [lia | exact Hw2]. }
      destruct H1 as (w1 & Hle1 & Hw1), H2 as (w2 & Hle2 & Hw2).
      exists w1, w2. split; [lia | now split].
    + assert (Hm' : m < k) by lia.
      destruct IH1 as [(x' & Hlx & Hwx) | (a1 & a2 & Hla & Ha1 & Ha2)];
        destruct IH2 as [(y' & Hly & Hwy) | (b1 & b2 & Hlb & Hb1 & Hb2)].
      * left. exists (x' + y'). split; [lia|]. now apply walk_via with (m := m).
      * right. exists (x' + b1), b2. split; [lia|]. split; [|exact Hb2].
        now apply walk_via with (m := m).
      * right. exists a1, (a2 + y'). split; [lia|]. split; [exact Ha1|].
        now apply walk_via with (m := m).
      * right. exists a1, b2. split; [lia | now split].
Qed.

Lemma relax_keeps (d0 d : matrix) (k i j : nat) :
  k < n -> i < n -> j < n ->
  square n d /\ below d d0 /\ walkSound W n d ->
  (square n (relax k i d j) /\ below (relax k i d j) d0 /\ walkSound W n (relax k i d j))
  /\ below (relax k i d j) d
  /\ dist_le (mget (relax k i d j) i j) (dist_add (mget d0 i k) (mget d0 k j)).
Proof.
  intros Hk Hi Hj (Hsq & Hb & Hs).
  destruct (relax_cell n d k i j Hsq Hi Hj) as (Hsq' & Hb' & Hp & Hnew).
  split; [split; [exact Hsq'|split]|split].
  - eapply below_trans; eauto.
  - intros i' j' x Hx. destruct (Hnew i' j' x Hx) as [Hold | (a & b & Ha & Hbb & -> & -> & ->)].
    + now apply Hs.
    + apply walk_via with (m := k); auto.
  - exact Hb'.
  - eapply dist_le_trans; [exact Hp|]. apply dist_le_add; apply Hb.
Qed.

Lemma relaxRound_keeps (d0 : matrix) (k : nat) :
  k < n -> square n d0 -> walkSound W n d0 ->
  square n (relaxRound n d0 k) /\ below (relaxRound n d0 k) d0
  /\ walkSound W n (relaxRound n d0 k)
  /\ forall i j, i < n -> j < n ->
       dist_le (mget (relaxRound n d0 k) i j)
               (dist_add (mget d0 i k) (mget d0 k j)).
Proof.
  intros Hk Hsq Hs. unfold relaxRound.
  destruct (fold_progress
              (fun d i => fold_left (relax k i) (seq 0 n) d)
              (fun d => square n d /\ below d d0 /\ walkSound W n d)
              (fun i d => forall j, j < n ->
                 dist_le (mget d i j) (dist_add (mget d0 i k) (mget d0 k j)))
              (seq 0 n)) with (d := d0) as ((Hsq' & Hb' & Hs') & _ & Hp).
  - intros d i Hi Hinv. apply in_seq in Hi.
    destruct (fold_progress
                (relax k i)
                (fun d => square n d /\ below d d0 /\ walkSound W n d)
                (fun j d =>
                   dist_le (mget d i j) (dist_add (mget d0 i k) (mget d0 k j)))
                (seq 0 n)) with (d := d) as (Hinv' & Hb & Hp).
    + intros d' j Hj Hinv'. apply in_seq in Hj.
      destruct (relax_keeps d0 d' k i j) as (H1 & H2 & H3); auto; lia.
    + intros j d1 d2 Hp Hb. eapply dist_le_trans; [apply Hb | exact Hp].
    + exact Hinv.
    + split; [exact Hinv'|]. split; [exact Hb|].
      intros j Hj. apply Hp. apply in_seq. lia.
  - intros i d1 d2 Hp Hb j Hj. eapply dist_le_trans; [apply Hb | now apply Hp].
  - split; [exact Hsq|]. split; [apply below_refl | exact Hs].
  - split; [exact Hsq'|]. split; [exact Hb'|]. split; [exact Hs'|].
    intros i j Hi Hj. apply Hp; [apply in_seq; lia | exact Hj].
Qed.

Lemma relaxRound_upper (d0 : matrix) (k : nat) :
  k < n -> square n d0 -> walkSound W n d0 -> walkBound W k d0 ->
  walkBound W (S k) (relaxRound n d0 k).
Proof.
  intros Hk Hsq Hs Hu i j w Hw.
  destruct (relaxRound_keeps d0 k Hk Hsq Hs) as (_ & Hb & _ & Hp).
  destruct (walk_split k i j w Hw) as [(w' & Hle & Hw') | (w1 & w2 & Hle & Hw1 & Hw2)].
  - eapply dist_le_trans; [apply Hb|].
    eapply dist_le_trans; [apply (Hu i j w' Hw')|]. simpl. exact Hle.
  - destruct (walk_ends_in_range k i k w1 Hw1) as [Hi _].
    destruct (walk_ends_in_range k k j w2 Hw2) as [_ Hj].
    eapply dist_le_trans; [apply (Hp i j Hi Hj)|].
    eapply dist_le_trans;
      [apply dist_le_add; [apply (Hu i k w1 Hw1) | apply (Hu k j w2 Hw2)]|].
    simpl. exact Hle.
Qed.

Lemma rounds_keep (m : nat) :
  m <= n ->
  square n (fold_left (relaxRound n) (seq 0 m) W)
  /\ walkSound W n (fold_left (relaxRound n) (seq 0 m) W)
  /\ walkBound W m (fold_left (relaxRound n) (seq 0 m) W).
Proof.
  induction m as [|m IH]; intros Hm.
  - simpl. split; [exact Wsquare|]. split.
    + intros i j x Hx. now apply walk_step.
    + intros i j w Hw. inversion Hw as [i' j' x Hx | i' m' j' x y Hm']; subst.
      * rewrite Hx. simpl. lia.
      * lia.
  - rewrite seq_S, fold_left_app. simpl.
    destruct IH as (Hsq & Hs & Hu); [lia|].
    destruct (relaxRound_keeps (fold_left (relaxRound n) (seq 0 m) W) m)
      as (Hsq' & _ & Hs' & _); auto.
    split; [exact Hsq'|]. split; [exact Hs'|].
    now apply relaxRound_upper.
Qed.

(** The entries after all rounds: each finite one is the weight of a walk,
    and no walk is lighter. *)
Lemma rounds_least_walks :
  let D := fold_left (relaxRound n) (seq 0 n) W in
  (forall i j x, mget D i j = Some x -> walk W n i j x)
  /\ (forall i j w, walk W n i j w ->
        exists x, mget D i j = Some x /\ x <= w).
Proof.
  destruct (rounds_keep n (le_n n)) as (_ & Hs & Hu). split; [exact Hs|].
  intros i j w Hw. specialize (Hu i j w Hw). simpl in Hu.
  destruct (mget _ i j) as [x|]; [now exists x | contradiction].
Qed.
End FloydWarshall.

(** *** The matrix of direct distances *)

Lemma nth_repeat_lt {A : Type} (x d : A) (n i : nat) :
  i < n -> nth i (repeat x n) d = x.
Proof.
  revert i; induction n as [|n IH]; intros [|i] Hi; simpl; try lia; auto.
  apply IH. lia.
Qed.

Lemma square_blank (n : nat) : square n (repeat (repeat None n) n).
Proof.
  split; [apply repeat_length|].
  apply Forall_forall. intros row Hrow. apply repeat_spec in Hrow. subst row.
  apply repeat_length.
Qed.

Lemma mget_blank (n i j : nat) :
  mget (repeat (repeat None n) n) i j = None.
Proof.
  unfold mget. destruct (Nat.lt_ge_cases i n) as [Hi|Hi].
  - rewrite nth_repeat_lt by exact Hi.
    destruct (Nat.lt_ge_cases j n) as [Hj|Hj].
    + now apply nth_repeat_lt.
    + apply nth_overflow. now rewrite repeat_length.
  - rewrite (nth_overflow (repeat (repeat (@None nat) n) n))
      by now rewrite repeat_length.
    now destruct j.
Qed.

Lemma diagonal_fold (n : nat) (l : list nat) :
  Forall (fun i => i < n) l ->
  forall d, square n d ->
    square n (fold_left (fun d i => mset d i i (Some 0)) l d)
    /\ forall i j, i < n -> j < n ->
         mget (fold_left (fun d i => mset d i i (Some 0)) l d) i j
         = if (i =? j) && existsb (Nat.eqb i) l then Some 0 else mget d i j.
Proof.
  induction 1 as [|a l Ha _ IH]; intros d Hsq; simpl.
  - split; [exact Hsq|]. intros i j _ _. now rewrite andb_false_r.
  - destruct (IH (mset d a a (Some 0))) as [Hsq' Hget]; [now apply square_mset|].
    split; [exact Hsq'|]. intros i j Hi Hj. rewrite (Hget i j Hi Hj).
    destruct (Nat.eqb_spec i j) as [->|Hij]; simpl.
    + destruct (existsb (Nat.eqb j) l); [now rewrite orb_true_r|].
      rewrite orb_false_r. destruct (Nat.eqb_spec j a) as [->|Hja].
      * now apply (mget_mset_same n).
      * apply mget_mset_other. now left.
    + apply mget_mset_other.
      destruct (Nat.eq_dec i a); [right; congruence | now left].
Qed.

Lemma indexOf_lt (l : list string) (x : string) (i : nat) :
  indexOf l x = Some i -> i < List.length l.
Proof.
  revert i; induction l as [|y l IH]; simpl; intros i; [discriminate|].
  destruct (String.eqb y x).
  - intros H; inversion H; lia.
  - destruct (indexOf l x) as [k|]; simpl; [|discriminate].
    intros H; inversion H. specialize (IH k eq_refl). lia.
Qed.

Lemma setDirect_cell (nodeIds : list string) (d : matrix) (e : string * Connection.t) :
  square (List.length nodeIds) d ->
  square (List.length nodeIds) (setDirect nodeIds d e)
  /\ forall i j, i < List.length nodeIds -> j < List.length nodeIds ->
       mget (setDirect nodeIds d e) i j
       = if hits nodeIds i j e then Some 1 else mget d i j.
Proof.
  intros Hsq. unfold setDirect, hits.
  destruct (indexOf nodeIds (Connection.sourceNode (snd e))) as [si|] eqn:Es;
    [|now split].
  destruct (indexOf nodeIds (Connection.targetNode (snd e))) as [ti|] eqn:Et;
    [|now split].
  apply indexOf_lt in Es, Et.
  assert (Hsq1 : square (List.length nodeIds) (mset d si ti (Some 1)))
    by now apply square_mset.
  split; [now apply square_mset|]. intros i j Hi Hj.
  rewrite (mget_mset (List.length nodeIds)) by assumption.
  rewrite (mget_mset (List.length nodeIds)) by assumption.
  rewrite (Nat.eqb_sym i ti), (Nat.eqb_sym j si), (Nat.eqb_sym i si),
    (Nat.eqb_sym j ti).
  destruct (si =? i), (ti =? j), (si =? j), (ti =? i); reflexivity.
Qed.

Lemma setDirect_fold (nodeIds : list string) (cs : list (string * Connection.t)) :
  forall d, square (List.length nodeIds) d ->
    square (List.length nodeIds) (fold_left (setDirect nodeIds) cs d)
    /\ forall i j, i < List.length nodeIds -> j < List.length nodeIds ->
         mget (fold_left (setDirect nodeIds) cs d) i j
         = if existsb (hits nodeIds i j) cs then Some 1 else mget d i j.
Proof.
  induction cs as [|e cs IH]; intros d Hsq; simpl.
  - now split.
  - destruct (setDirect_cell nodeIds d e Hsq) as [Hsq1 Hget1].
    destruct (IH _ Hsq1) as [Hsq2 Hget2].
    split; [exact Hsq2|]. intros i j Hi Hj.
    rewrite (Hget2 i j Hi Hj), (Hget1 i j Hi Hj).
    destruct (hits nodeIds i j e), (existsb (hits nodeIds i j) cs); reflexivity.
Qed.

Lemma directDistances_entries (tm : TopologyManager) :
  let nodeIds := jkeys (nodes tm) in
  let n := List.length nodeIds in
  square n (directDistances tm)
  /\ forall i j, i < n -> j < n ->
       mget (directDistances tm) i j
       = if existsb (hits nodeIds i j) (connections tm) then Some 1
         else if i =? j then Some 0 else None.
Proof.
  intros nodeIds n. unfold directDistances. fold nodeIds. fold n.
  destruct (diagonal_fold n (seq 0 n)) with (d := repeat (repeat (@None nat) n) n)
    as [Hsq1 Hget1].
  { apply Forall_forall. intros i Hi. apply in_seq in Hi. lia. }
  { apply square_blank. }
  destruct (setDirect_fold nodeIds (connections tm) _ Hsq1) as [Hsq2 Hget2].
  split; [exact Hsq2|]. intros i j Hi Hj.
  rewrite (Hget2 i j Hi Hj), (Hget1 i j Hi Hj), mget_blank.
  destruct (existsb (hits nodeIds i j) (connections tm)); [reflexivity|].
  destruct (Nat.eqb_spec i j) as [->|Hij]; simpl; [|reflexivity].
  assert (existsb (Nat.eqb j) (seq 0 n) = true) as ->; [|reflexivity].
  apply existsb_exists. exists j. split; [apply in_seq; lia | apply Nat.eqb_refl].
Qed.

(** The matrix of [floydWarshall]: its finite entries are weights of walks
    over the direct distances, and no walk is lighter. *)
Lemma floydWarshall_least_walks (tm : TopologyManager) :
  let n := List.length (nodes tm) in
  let W := directDistances tm in
  let D := floydWarshall tm in
  (forall i j x, mget D i j = Some x -> walk W n i j x)
  /\ (forall i j w, walk W n i j w -> exists x, mget D i j = Some x /\ x <= w).
Proof.
  intros n W D.
  assert (Hn : List.length (jkeys (nodes tm)) = n) by apply length_map.
  destruct (directDistances_entries tm) as [Hsq _]. rewrite Hn in Hsq.
  pose proof (rounds_least_walks W n Hsq) as H.
  unfold D, floydWarshall. rewrite Hn. exact H.
Qed.

Lemma joinedAt_in_range (tm : TopologyManager) (i j : nat) :
  joinedAt tm i j -> i < List.length (nodes tm) /\ j < List.length (nodes tm).
Proof.
  unfold joinedAt. intros H. apply existsb_exists in H as (e & _ & He).
  unfold hits in He.
  destruct (indexOf (jkeys (nodes tm)) (Connection.sourceNode (snd e)))
    as [si|] eqn:Es; [|discriminate].
  destruct (indexOf (jkeys (nodes tm)) (Connection.targetNode (snd e)))
    as [ti|] eqn:Et; [|discriminate].
  apply indexOf_lt in Es, Et. unfold jkeys in Es, Et. rewrite length_map in Es, Et.
  apply orb_true_iff in He as [He|He]; apply andb_true_iff in He as [H1 H2];
    apply Nat.eqb_eq in H1, H2; subst; now split.
Qed.

Lemma directDistances_square (tm : TopologyManager) :
  square (List.length (nodes tm)) (directDistances tm).
Proof.
  destruct (directDistances_entries tm) as [Hsq _].
  unfold jkeys in Hsq. now rewrite length_map in Hsq.
Qed.

(** An entry of the matrix of direct distances: 1 between the two ends of a
    stored connection, otherwise 0 from a node to itself. *)
Lemma directDistances_cases (tm : TopologyManager) (i j x : nat) :
  mget (directDistances tm) i j = Some x ->
  (joinedAt tm i j /\ x = 1) \/ (~ joinedAt tm i j /\ i = j /\ x = 0).
Proof.
  intros Hx.
  destruct (mget_in_range _ _ i j x (directDistances_square tm) Hx) as [Hi Hj].
  destruct (directDistances_entries tm) as [_ H].
  rewrite H in Hx by (unfold jkeys; rewrite length_map; assumption).
  unfold joinedAt.
  destruct (existsb (hits (jkeys (nodes tm)) i j) (connections tm)).
  - left. split; [reflexivity | congruence].
  - right. split; [discriminate|].
    destruct (Nat.eqb_spec i j); [split; congruence | discriminate].
Qed.

Lemma directDistances_joined (tm : TopologyManager) (i j : nat) :
  joinedAt tm i j -> mget (directDistances tm) i j = Some 1.
Proof.
  intros Hj. destruct (joinedAt_in_range tm i j Hj) as [Hi Hj'].
  destruct (directDistances_entries tm) as [_ H].
  rewrite H by (unfold jkeys; rewrite length_map; assumption).
  unfold joinedAt in Hj. now rewrite Hj.
Qed.

Lemma directDistances_diagonal (tm : TopologyManager) (i : nat) :
  i < List.length (nodes tm) -> ~ joinedAt tm i i ->
  mget (directDistances tm) i i = Some 0.
Proof.
  intros Hi Hn. destruct (directDistances_entries tm) as [_ H].
  rewrite H by (unfold jkeys; rewrite length_map; assumption).
  unfold joinedAt in Hn.
  destruct (existsb (hits (jkeys (nodes tm)) i i) (connections tm));
    [now contradiction Hn|].
  now rewrite Nat.eqb_refl.
Qed.

Lemma hops_in_range (tm : TopologyManager) (i j k : nat) :
  hops tm i j k -> i < List.length (nodes tm) /\ j < List.length (nodes tm).
Proof.
  induction 1 as [i Hi | i m j k Hjoin _ [_ Hj]]; [now split|].
  split; [exact (proj1 (joinedAt_in_range tm i m Hjoin)) | exact Hj].
Qed.

Lemma hops_app (tm : TopologyManager) (i m j k1 k2 : nat) :
  hops tm i m k1 -> hops tm m j k2 -> hops tm i j (k1 + k2).
Proof.
  induction 1 as [i Hi | i m' m k Hjoin _ IH]; intros H2; [exact H2|].
  simpl. apply hops_next with (m := m'); [exact Hjoin | now apply IH].
Qed.

(** A walk over the direct distances follows a chain of stored connections
    that is no longer than the walk is heavy. *)
Lemma walk_gives_hops (tm : TopologyManager) (i j w : nat) :
  walk (directDistances tm) (List.length (nodes tm)) i j w ->
  exists k, k <= w /\ hops tm i j k.
Proof.
  induction 1 as [i j x Hx | i m j x y Hm _ (k1 & Hk1 & H1) _ (k2 & Hk2 & H2)].
  - destruct (mget_in_range _ _ i j x (directDistances_square tm) Hx) as [Hi Hj].
    destruct (directDistances_cases tm i j x Hx) as [[Hjoin ->] | (_ & -> & ->)].
    + exists 1. split; [lia|].
      apply hops_next with (m := j); [exact Hjoin | now apply hops_here].
    + exists 0. split; [lia | now apply hops_here].
  - exists (k1 + k2). split; [lia | now apply hops_app with (m := m)].
Qed.

(** A chain of stored connections between two different nodes is a walk over
    the direct distances, no heavier than the chain is long. *)
Lemma hops_give_walk (tm : TopologyManager) (i j k : nat) :
  hops tm i j k -> i <> j ->
  exists w, w <= k /\ walk (directDistances tm) (List.length (nodes tm)) i j w.
Proof.
  induction 1 as [i Hi | i m j k Hjoin Hrest IH]; intros Hne; [congruence|].
  assert (H1 : walk (directDistances tm) (List.length (nodes tm)) i m 1)
    by (apply walk_step; now apply directDistances_joined).
  destruct (Nat.eq_dec m j) as [->|Hmj].
  - exists 1. split; [lia | exact H1].
  - destruct (IH Hmj) as (w & Hw & Hwalk).
    exists (1 + w). split; [lia|].
    apply walk_via with (m := m); [|exact H1 | exact Hwalk].
    exact (proj2 (joinedAt_in_range tm i m Hjoin)).
Qed.

Lemma walk_without_connections (tm : TopologyManager) (k i j w : nat) :
  (forall a b, ~ joinedAt tm a b) ->
  walk (directDistances tm) k i j w -> w = 0.
Proof.
  intros Hnone. induction 1 as [i j x Hx | i m j x y _ _ IH1 _ IH2]; [|lia].
  destruct (directDistances_cases tm i j x Hx) as [[Hjoin _] | (_ & _ & ->)];
    [now contradiction (Hnone i j) | reflexivity].
Qed.

Lemma floydWarshall_shortest_chains (tm : TopologyManager) (i j : nat) :
  i <> j ->
  (forall x, mget (floydWarshall tm) i j = Some x <-> shortestChain tm i j x)
  /\ (mget (floydWarshall tm) i j = None <-> forall k, ~ hops tm i j k).
Proof.
  intros Hne. destruct (floydWarshall_least_walks tm) as [Hsound Hleast].
  cbv zeta in Hsound, Hleast.
  assert (Hto : forall x, mget (floydWarshall tm) i j = Some x ->
                          shortestChain tm i j x).
  { intros x Hx. destruct (walk_gives_hops tm i j x (Hsound i j x Hx))
      as (k & Hk & Hhops).
    assert (Hmin : forall k', hops tm i j k' -> x <= k').
    { intros k' Hk'. destruct (hops_give_walk tm i j k' Hk' Hne) as (w & Hw & Hwalk).
      destruct (Hleast i j w Hwalk) as (x' & Hx' & Hle).
      rewrite Hx in Hx'. inversion Hx'; subst. lia. }
    pose proof (Hmin k Hhops) as Hxk.
    assert (k = x) by lia. subst k. now split. }
  assert (Hfrom : forall k, hops tm i j k ->
                            exists x, mget (floydWarshall tm) i j = Some x).
  { intros k Hk. destruct (hops_give_walk tm i j k Hk Hne) as (w & _ & Hwalk).
    destruct (Hleast i j w Hwalk) as (x & Hx & _). now exists x. }
  split.
  - intros x. split; [apply Hto|]. intros [Hhops Hmin].
    destruct (Hfrom x Hhops) as (x' & Hx').
    destruct (Hto x' Hx') as [Hhops' Hmin'].
    pose proof (Hmin x' Hhops'). pose proof (Hmin' x Hhops).
    assert (x' = x) by lia. now subst x'.
  - split.
    + intros Hnone k Hk. destruct (Hfrom k Hk) as (x & Hx). congruence.
    + intros Hnone. destruct (mget (floydWarshall tm) i j) as [x|] eqn:Hx;
        [|reflexivity].
      exfalso. destruct (Hto x eq_refl) as [Hhops _]. exact (Hnone x Hhops).
Qed.

Lemma floydWarshall_diagonal (tm : TopologyManager) (i : nat) :
  i < List.length (nodes tm) -> ~ joinedAt tm i i ->
  mget (floydWarshall tm) i i = Some 0.
Proof.
  intros Hi Hn. destruct (floydWarshall_least_walks tm) as [_ Hleast].
  cbv zeta in Hleast.
  destruct (Hleast i i 0) as (x & Hx & Hle).
  - apply walk_step. now apply directDistances_diagonal.
  - rewrite Hx. f_equal. lia.
Qed.

Lemma diameter_is_largest_entry (tm : TopologyManager) :
  2 <= List.length (nodes tm) ->
  (forall i j x, i < List.length (nodes tm) -> j < List.length (nodes tm) ->
     mget (floydWarshall tm) i j = Some x -> x <= calculateNetworkDiameter tm)
  /\ (calculateNetworkDiameter tm = 0
      \/ exists i j, i < List.length (nodes tm) /\ j < List.length (nodes tm)
                     /\ mget (floydWarshall tm) i j
                        = Some (calculateNetworkDiameter tm)).
Proof.
  intros Hn. unfold calculateNetworkDiameter.
  set (n := List.length (nodes tm)) in *. set (D := floydWarshall tm).
  destruct (Nat.leb_spec n 1) as [Hle|_]; [lia|].
  rewrite scanMatrix_rows. split.
  - intros i j x Hi Hj Hx. apply (rows_ge_entry D n (seq 0 n) 0 i j x); auto.
    apply in_seq; lia.
  - destruct (rows_attained D n (seq 0 n) 0) as [E | (i & j & Hin & Hj & E)].
    + now left.
    + right. exists i, j. apply in_seq in Hin. repeat split; auto; lia.
Qed.

Lemma diameter_without_joined_nodes (tm : TopologyManager) :
  (forall i j, ~ joinedAt tm i j) -> calculateNetworkDiameter tm = 0.
Proof.
  intros Hnone.
  destruct (Nat.le_gt_cases (List.length (nodes tm)) 1) as [Hle|Hgt].
  - unfold calculateNetworkDiameter. apply Nat.leb_le in Hle. now rewrite Hle.
  - destruct (diameter_is_largest_entry tm Hgt) as [_ [E | (i & j & _ & _ & E)]];
      [exact E|].
    destruct (floydWarshall_least_walks tm) as [Hsound _]. cbv zeta in Hsound.
    exact (walk_without_connections tm _ i j _ Hnone (Hsound i j _ E)).
Qed.

(** Two positions are joined exactly when they are the positions of two names
    that a stored connection joins. *)
Lemma joinedAt_names (tm : TopologyManager) (i j : nat) :
  joinedAt tm i j
  <-> exists a b,
        indexOf (jkeys (nodes tm)) a = Some i
        /\ indexOf (jkeys (nodes tm)) b = Some j
        /\ directlyLinked tm a b.
Proof.
  unfold joinedAt, directlyLinked. rewrite existsb_exists. split.
  - intros (e & Hin & He). unfold hits in He.
    destruct (indexOf (jkeys (nodes tm)) (Connection.sourceNode (snd e)))
      as [si|] eqn:Es; [|discriminate].
    destruct (indexOf (jkeys (nodes tm)) (Connection.targetNode (snd e)))
      as [ti|] eqn:Et; [|discriminate].
    apply orb_true_iff in He as [He|He]; apply andb_true_iff in He as [H1 H2];
      apply Nat.eqb_eq in H1, H2; subst.
    + exists (Connection.sourceNode (snd e)), (Connection.targetNode (snd e)).
      split; [exact Es|]. split; [exact Et|]. exists e. split; [exact Hin|].
      left. now split.
    + exists (Connection.targetNode (snd e)), (Connection.sourceNode (snd e)).
      split; [exact Et|]. split; [exact Es|]. exists e. split; [exact Hin|].
      right. now split.
  - intros (a & b & Ha & Hb & e & Hin & [[Hs Ht] | [Hs Ht]]);
      exists e; (split; [exact Hin|]); unfold hits; rewrite Hs, Ht, Ha, Hb;
      rewrite !Nat.eqb_refl; [reflexivity | apply orb_true_r].
Qed.

(** C6, as the code has it.  [floydWarshall] computes its matrix [D] over the
    current nodes from the stored connections, not from the adjacency map.
    Between two different nodes the entry of [D] is the length of a shortest
    chain of stored connections between them through current nodes, and it
    is [Infinity] exactly when there is no such chain; a node that no stored
    connection joins to itself is at distance 0 from itself.  Each link of
    a chain is a stored connection between the names at two positions of
    the node list.
    [calculateNetworkDiameter] is 0 for at most one node and 0 when no
    stored connection has both its ends among the current nodes; for two
    nodes or more it bounds every finite entry of [D] from above and is
    itself either 0 or a finite entry of [D], so an infinite entry never is
    the result. *)
Theorem calculateNetworkDiameter_is_max_finite_distance (tm : TopologyManager) :
  let n := List.length (nodes tm) in
  let D := floydWarshall tm in
  let r := calculateNetworkDiameter tm in
  (n <= 1 -> r = 0)
  /\ ((forall i j, ~ joinedAt tm i j) -> r = 0)
  /\ (2 <= n ->
      (forall i j x, i < n -> j < n -> mget D i j = Some x -> x <= r)
      /\ (r = 0 \/ exists i j, i < n /\ j < n /\ mget D i j = Some r))
  /\ (forall i j x, i <> j ->
        (mget D i j = Some x <-> shortestChain tm i j x))
  /\ (forall i j, i <> j ->
        (mget D i j = None <-> forall k, ~ hops tm i j k))
  /\ (forall i, i < n -> ~ joinedAt tm i i -> mget D i i = Some 0)
  /\ (forall i j,
        joinedAt tm i j
        <-> exists a b,
              indexOf (jkeys (nodes tm)) a = Some i
              /\ indexOf (jkeys (nodes tm)) b = Some j
              /\ directlyLinked tm a b).
Proof.
  intros n D r.
  split; [|split; [|split; [|split; [|split; [|split]]]]].
  - intros Hn. unfold r, calculateNetworkDiameter. fold n.
    apply Nat.leb_le in Hn. now rewrite Hn.
  - apply diameter_without_joined_nodes.
  - apply diameter_is_largest_entry.
  - intros i j x Hne. now apply floydWarshall_shortest_chains.
  - intros i j Hne. now apply floydWarshall_shortest_chains.
  - apply floydWarshall_diagonal.
  - apply joinedAt_names.
Qed.

Lemma calculateNetworkDiameter_is_max_finite_distance_witness :
  calculateNetworkDiameter lineABC = 2
  /\ shortestChain lineABC 0 2 2
  /\ 2 <= calculateNetworkDiameter lineABC.
Proof.
  pose proof (calculateNetworkDiameter_is_max_finite_distance lineABC)
    as (_ & _ & Hmax & Hchain & _).
  split; [reflexivity|]. split.
  - apply (Hchain 0 2 2); [discriminate | reflexivity].
  - apply (proj1 (Hmax (le_n_S 1 2 (le_n_S 0 1 (le_0_n 1)))) 0 2 2);
      [repeat constructor | repeat constructor | reflexivity].
Defined.

(** The stored connection [c1] still joins [A] and [B] after a second
    connection between them has been added and removed, while every
    neighbour set is empty: no edge exists in the adjacency map, and the
    diameter is 1. *)
Lemma diameter_of_an_edgeless_adjacency_map_is_1 :
  topologyGraph edgelessLinkAB = [("A", []); ("B", []); ("C", [])]
  /\ connections edgelessLinkAB = [("c1", Connection.mk "c1" "A" "B")]
  /\ calculateNetworkDiameter edgelessLinkAB = 1.
Proof. repeat split. Qed.

(** A hub with two or three leaves has diameter 2, a line of four nodes 3, a
    triangle 1; three nodes without connection have diameter 0, and with
    [C] out of reach of [A] and [B] the diameter is the distance 1 between
    these two. *)
Example diameter_samples :
  calculateNetworkDiameter lineABC = 2
  /\ calculateNetworkDiameter starNamed = 2
  /\ calculateNetworkDiameter lineNamed = 3
  /\ calculateNetworkDiameter triangleABC = 1
  /\ calculateNetworkDiameter threeNodes = 0
  /\ calculateNetworkDiameter linkAB = 1
  /\ mget (floydWarshall linkAB) 0 2 = None.
Proof. repeat split. Qed.

(** A connection from a node to itself overwrites the 0 of the diagonal
    with 1, and the matrix keeps it. *)
Example self_connection_on_the_diagonal :
  mget (floydWarshall
          (addConnection meshABC threeNodes (Connection.mk "c1" "A" "A"))) 0 0
  = Some 1
  /\ calculateNetworkDiameter
       (addConnection meshABC threeNodes (Connection.mk "c1" "A" "A")) = 1.
Proof. split; reflexivity. Qed.

(** ** Maps and sets: the equations used below *)

Section MapFacts.
Context {V : Type}.
Implicit Types (m : jmap V) (k : string) (v : V).

Lemma jget_jset_same m k v : jget (jset m k v) k = Some v.
Proof.
  induction m as [|[k' v'] m IH]; simpl.
  - now rewrite String.eqb_refl.
  - destruct (String.eqb_spec k' k) as [E|Hne]; simpl.
    + now rewrite String.eqb_refl.
    + destruct (String.eqb_spec k' k); [contradiction | exact IH].
Qed.

Lemma jget_jset_other m k k' v : k' <> k -> jget (jset m k v) k' = jget m k'.
Proof.
  intros Hne. induction m as [|[k0 v0] m IH]; simpl.
  - destruct (String.eqb_spec k k'); [congruence | reflexivity].
  - destruct (String.eqb_spec k0 k) as [E|Hne0]; simpl.
    + subst k0. destruct (String.eqb_spec k k'); [congruence | reflexivity].
    + now rewrite IH.
Qed.

Lemma jget_jdelete_same m k : jget (jdelete m k) k = None.
Proof.
  induction m as [|[k' v'] m IH]; simpl; [reflexivity|].
  destruct (String.eqb_spec k' k) as [E|Hne]; simpl; [exact IH|].
  destruct (String.eqb_spec k' k); [contradiction | exact IH].
Qed.

Lemma jget_jdelete_other m k k' : k' <> k -> jget (jdelete m k) k' = jget m k'.
Proof.
  intros Hne. induction m as [|[k0 v0] m IH]; simpl; [reflexivity|].
  destruct (String.eqb_spec k0 k) as [E|Hne0]; simpl.
  + subst k0. destruct (String.eqb_spec k k'); [congruence | exact IH].
  + now rewrite IH.
Qed.

Lemma jdelete_absent m k : jget m k = None -> jdelete m k = m.
Proof.
  induction m as [|[k' v'] m IH]; simpl; [reflexivity|].
  destruct (String.eqb_spec k' k) as [E|Hne]; simpl; [discriminate|].
  intros H. now rewrite IH.
Qed.

Lemma jget_In m k v : jget m k = Some v -> In (k, v) m.
Proof.
  induction m as [|[k' v'] m IH]; simpl; [discriminate|].
  destruct (String.eqb_spec k' k) as [E|Hne].
  - intros H; inversion H; subst. now left.
  - intros H; right; now apply IH.
Qed.

Lemma In_jget_unique m k v :
  NoDup (jkeys m) -> In (k, v) m -> jget m k = Some v.
Proof.
  induction m as [|[k' v'] m IH]; simpl; intros Hnd Hin; [contradiction|].
  inversion Hnd as [|? ? Hnotin Hnd']; subst.
  destruct Hin as [E|Hin].
  - inversion E; subst. now rewrite String.eqb_refl.
  - destruct (String.eqb_spec k' k) as [E|Hne].
    + subst k'. exfalso. apply Hnotin. unfold jkeys.
      apply in_map_iff. now exists (k, v).
    + now apply IH.
Qed.

Lemma jset_fresh m k v : jget m k = None -> jset m k v = m ++ [(k, v)].
Proof.
  induction m as [|[k' v'] m IH]; simpl; [reflexivity|].
  destruct (String.eqb_spec k' k) as [E|Hne]; [discriminate|].
  intros H. now rewrite IH.
Qed.

Lemma jget_None_not_key m k : jget m k = None -> ~ In k (jkeys m).
Proof.
  induction m as [|[k' v'] m IH]; simpl; [tauto|].
  destruct (String.eqb_spec k' k) as [E|Hne]; [discriminate|].
  intros H [E|Hin]; [contradiction | now apply IH].
Qed.

Lemma jhas_of_entry m k v : In (k, v) m -> jhas m k = true.
Proof.
  unfold jhas. induction m as [|[k' v'] m IH]; simpl; intros Hin; [contradiction|].
  destruct (String.eqb_spec k' k) as [_|Hne]; [reflexivity|].
  destruct Hin as [E|Hin]; [inversion E; congruence | now apply IH].
Qed.

Lemma jdelete_idem m k : jdelete (jdelete m k) k = jdelete m k.
Proof. apply jdelete_absent, jget_jdelete_same. Qed.

Lemma NoDup_jkeys_jdelete m k : NoDup (jkeys m) -> NoDup (jkeys (jdelete m k)).
Proof.
  unfold jkeys, jdelete. induction m as [|[k' v'] m IH]; simpl; intros Hnd.
  - constructor.
  - inversion Hnd as [|? ? Hnotin Hnd']; subst.
    destruct (String.eqb k' k); simpl; [now apply IH|].
    constructor; [|now apply IH].
    intros Hin. apply Hnotin. apply in_map_iff in Hin as (e & He & Hin).
    apply filter_In in Hin as [Hin _]. apply in_map_iff. now exists e.
Qed.
End MapFacts.

Lemma shas_In (s : jsset) (x : string) : shas s x = true <-> In x s.
Proof.
  unfold shas. rewrite existsb_exists. split.
  - intros (y & Hin & E). apply String.eqb_eq in E. now subst.
  - intros Hin. exists x. split; [exact Hin | apply String.eqb_refl].
Qed.

Lemma shas_false (s : jsset) (x : string) : shas s x = false <-> ~ In x s.
Proof.
  rewrite <- shas_In. destruct (shas s x); split; intros; congruence.
Qed.

Lemma In_sadd (s : jsset) (x y : string) : In y (sadd s x) <-> In y s \/ y = x.
Proof.
  unfold sadd. destruct (shas s x) eqn:E.
  - apply shas_In in E. split; [tauto|]. intros [H|H]; [exact H | now subst].
  - rewrite in_app_iff. simpl. split; intros [H|H]; auto.
    + destruct H as [H|[]]; auto.
Qed.

Lemma In_sdelete (s : jsset) (x y : string) : In y (sdelete s x) <-> In y s /\ y <> x.
Proof.
  unfold sdelete. rewrite filter_In, negb_true_iff.
  split; intros [H1 H2]; split; auto.
  - intros E. subst. now rewrite String.eqb_refl in H2.
  - now apply String.eqb_neq.
Qed.

Lemma sdelete_absent (s : jsset) (x : string) : ~ In x s -> sdelete s x = s.
Proof.
  unfold sdelete. induction s as [|y s IH]; simpl; intros H; [reflexivity|].
  destruct (String.eqb_spec y x) as [E|Hne]; simpl.
  - exfalso. apply H. now left.
  - rewrite IH; [reflexivity | tauto].
Qed.

Lemma sdelete_sadd (s : jsset) (x : string) : ~ In x s -> sdelete (sadd s x) x = s.
Proof.
  intros H. unfold sadd. rewrite (proj2 (shas_false s x) H).
  unfold sdelete. rewrite filter_app. simpl. rewrite String.eqb_refl. simpl.
  rewrite app_nil_r. now apply sdelete_absent.
Qed.

Lemma NoDup_sadd (s : jsset) (x : string) : NoDup s -> NoDup (sadd s x).
Proof.
  intros Hnd. unfold sadd. destruct (shas s x) eqn:E; [exact Hnd|].
  apply shas_false in E. apply NoDup_app; [exact Hnd | repeat constructor; tauto|].
  intros y Hy [E'|[]]. now subst.
Qed.

Lemma NoDup_sdelete (s : jsset) (x : string) : NoDup s -> NoDup (sdelete s x).
Proof. apply NoDup_filter. Qed.

(** *** The adjacency map under the edge operations *)

Section GraphFacts.
Implicit Types (g : jmap jsset) (k x y : string).

Lemma neighborsIn_ensureEntry g k x :
  neighborsIn (ensureEntry g k) x = neighborsIn g x.
Proof.
  unfold ensureEntry, jhas, neighborsIn. destruct (jget g k) eqn:E; [reflexivity|].
  destruct (String.eqb_spec x k) as [->|Hne].
  - now rewrite jget_jset_same, E.
  - now rewrite jget_jset_other.
Qed.

Lemma jhas_ensureEntry_same g k : jhas (ensureEntry g k) k = true.
Proof.
  unfold ensureEntry. destruct (jhas g k) eqn:E; [exact E|].
  unfold jhas. now rewrite jget_jset_same.
Qed.

Lemma jhas_ensureEntry g k x :
  jhas (ensureEntry g k) x = jhas g x || String.eqb x k.
Proof.
  unfold ensureEntry. destruct (jhas g k) eqn:E.
  - destruct (String.eqb_spec x k) as [->|_]; [now rewrite E | now rewrite orb_false_r].
  - unfold jhas in *. destruct (String.eqb_spec x k) as [->|Hne].
    + rewrite jget_jset_same. now rewrite orb_true_r.
    + rewrite jget_jset_other by exact Hne. now rewrite orb_false_r.
Qed.

Lemma jhas_addEdgeTo g k y x : jhas (addEdgeTo g k y) x = jhas g x.
Proof.
  unfold addEdgeTo, jhas. destruct (jget g k) eqn:E; [|reflexivity].
  destruct (String.eqb_spec x k) as [->|Hne].
  - now rewrite jget_jset_same, E.
  - now rewrite jget_jset_other.
Qed.

Lemma neighborsIn_addEdgeTo_same g k y :
  jhas g k = true -> neighborsIn (addEdgeTo g k y) k = sadd (neighborsIn g k) y.
Proof.
  unfold addEdgeTo, jhas, neighborsIn. destruct (jget g k) eqn:E; [|discriminate].
  intros _. now rewrite jget_jset_same.
Qed.

Lemma neighborsIn_addEdgeTo_other g k y x :
  x <> k -> neighborsIn (addEdgeTo g k y) x = neighborsIn g x.
Proof.
  intros Hne. unfold addEdgeTo, neighborsIn. destruct (jget g k); [|reflexivity].
  now rewrite jget_jset_other.
Qed.

Lemma jhas_removeEdgeFrom g k y x : jhas (removeEdgeFrom g k y) x = jhas g x.
Proof.
  unfold removeEdgeFrom, jhas. destruct (jget g k) eqn:E; [|reflexivity].
  destruct (String.eqb_spec x k) as [->|Hne].
  - now rewrite jget_jset_same, E.
  - now rewrite jget_jset_other.
Qed.

Lemma neighborsIn_removeEdgeFrom_same g k y :
  neighborsIn (removeEdgeFrom g k y) k = sdelete (neighborsIn g k) y.
Proof.
  unfold removeEdgeFrom, neighborsIn. destruct (jget g k) eqn:E.
  - now rewrite jget_jset_same.
  - now rewrite E.
Qed.

Lemma neighborsIn_removeEdgeFrom_other g k y x :
  x <> k -> neighborsIn (removeEdgeFrom g k y) x = neighborsIn g x.
Proof.
  intros Hne. unfold removeEdgeFrom, neighborsIn. destruct (jget g k); [|reflexivity].
  now rewrite jget_jset_other.
Qed.

(** Both edges of a pair, added to a map that holds both entries. *)
Lemma neighborsIn_addBoth g a b x :
  jhas g a = true -> jhas g b = true ->
  neighborsIn (addEdgeTo (addEdgeTo g a b) b a) x
  = if String.eqb x b
    then sadd (if String.eqb b a then sadd (neighborsIn g b) b
               else neighborsIn g b) a
    else if String.eqb x a then sadd (neighborsIn g a) b
         else neighborsIn g x.
Proof.
  intros Ha Hb.
  destruct (String.eqb_spec x b) as [->|Hxb].
  - rewrite neighborsIn_addEdgeTo_same by now rewrite jhas_addEdgeTo.
    destruct (String.eqb_spec b a) as [->|Hba].
    + now rewrite neighborsIn_addEdgeTo_same.
    + now rewrite neighborsIn_addEdgeTo_other.
  - rewrite neighborsIn_addEdgeTo_other by exact Hxb.
    destruct (String.eqb_spec x a) as [->|Hxa].
    + now rewrite neighborsIn_addEdgeTo_same.
    + now rewrite neighborsIn_addEdgeTo_other.
Qed.

Lemma neighborsIn_removeBoth g a b x :
  neighborsIn (removeEdgeFrom (removeEdgeFrom g a b) b a) x
  = if String.eqb x b
    then sdelete (if String.eqb b a then sdelete (neighborsIn g b) b
                  else neighborsIn g b) a
    else if String.eqb x a then sdelete (neighborsIn g a) b
         else neighborsIn g x.
Proof.
  destruct (String.eqb_spec x b) as [->|Hxb].
  - rewrite neighborsIn_removeEdgeFrom_same.
    destruct (String.eqb_spec b a) as [->|Hba].
    + now rewrite neighborsIn_removeEdgeFrom_same.
    + now rewrite neighborsIn_removeEdgeFrom_other.
  - rewrite neighborsIn_removeEdgeFrom_other by exact Hxb.
    destruct (String.eqb_spec x a) as [->|Hxa].
    + now rewrite neighborsIn_removeEdgeFrom_same.
    + now rewrite neighborsIn_removeEdgeFrom_other.
Qed.
End GraphFacts.

Lemma neighbors_removeConnection (tm : TopologyManager) (cid : string)
  (c : Connection.t) (x : string) :
  jget (connections tm) cid = Some c ->
  neighbors (removeConnection tm cid) x
  = neighborsIn (removeEdgeFrom
                   (removeEdgeFrom (topologyGraph tm) (Connection.sourceNode c)
                                   (Connection.targetNode c))
                   (Connection.targetNode c) (Connection.sourceNode c)) x.
Proof. intros H. unfold removeConnection, neighbors. now rewrite H. Qed.

Lemma connections_removeConnection (tm : TopologyManager) (cid : string) :
  connections (removeConnection tm cid) = jdelete (connections tm) cid.
Proof.
  unfold removeConnection. destruct (jget (connections tm) cid) eqn:E.
  - reflexivity.
  - now rewrite jdelete_absent.
Qed.

Lemma nodes_removeConnection (tm : TopologyManager) (cid : string) :
  nodes (removeConnection tm cid) = nodes tm.
Proof. unfold removeConnection. now destruct (jget (connections tm) cid). Qed.

Lemma removeConnection_idempotent (tm : TopologyManager) (cid : string) :
  removeConnection (removeConnection tm cid) cid = removeConnection tm cid.
Proof.
  unfold removeConnection at 1.
  now rewrite connections_removeConnection, jget_jdelete_same.
Qed.

(** *** Removing a node *)

Lemma filter_filter {A : Type} (p q : A -> bool) (l : list A) :
  filter p (filter q l) = filter (fun x => q x && p x) l.
Proof.
  induction l as [|x l IH]; simpl; [reflexivity|].
  destruct (q x); simpl; [destruct (p x)|]; now rewrite IH.
Qed.

Lemma filter_none {A : Type} (p : A -> bool) (l : list A) :
  (forall x, In x l -> p x = false) -> filter p l = [].
Proof.
  induction l as [|x l IH]; simpl; intros H; [reflexivity|].
  rewrite (H x (or_introl eq_refl)). apply IH. intros y Hy. apply H. now right.
Qed.

Lemma connections_after_removals (ids : list string) :
  forall tm,
    connections (fold_left removeConnection ids tm)
    = filter (fun e => negb (existsb (String.eqb (fst e)) ids)) (connections tm).
Proof.
  induction ids as [|cid ids IH]; intros tm; simpl.
  - induction (connections tm) as [|e l IHl]; simpl; [reflexivity | now rewrite <- IHl].
  - rewrite IH, connections_removeConnection. unfold jdelete.
    rewrite filter_filter. apply filter_ext. intros e.
    now rewrite negb_orb.
Qed.

Lemma nodes_after_removals (ids : list string) :
  forall tm, nodes (fold_left removeConnection ids tm) = nodes tm.
Proof.
  induction ids as [|cid ids IH]; intros tm; simpl; [reflexivity|].
  now rewrite IH, nodes_removeConnection.
Qed.

Lemma no_involvement_after_removals (tm : TopologyManager) (nm : string) :
  filter (involves nm)
    (connections
       (fold_left removeConnection
                  (map fst (filter (involves nm) (connections tm))) tm)) = [].
Proof.
  rewrite connections_after_removals. apply filter_none.
  intros e He. apply filter_In in He as [Hin Hkey].
  destruct (involves nm e) eqn:Hinv; [|reflexivity].
  apply negb_true_iff in Hkey.
  assert (Hex : existsb (String.eqb (fst e))
                        (map fst (filter (involves nm) (connections tm))) = true).
  { apply existsb_exists. exists (fst e). split; [|apply String.eqb_refl].
    apply in_map. apply filter_In. now split. }
  congruence.
Qed.

Lemma removeNode_idempotent (tm : TopologyManager) (node : Node.t) :
  removeNode (removeNode tm node) node = removeNode tm node.
Proof.
  unfold removeNode at 1.
  assert (Hc : connections (removeNode tm node)
               = connections
                   (fold_left removeConnection
                      (map fst (filter (involves (Node.name node)) (connections tm)))
                      tm)) by reflexivity.
  rewrite Hc, no_involvement_after_removals.
  unfold removeNode. cbn [map fold_left connections nodes topologyGraph totalConnections].
  now rewrite !jdelete_idem.
Qed.

Lemma removeNode_absent (tm : TopologyManager) (node : Node.t) :
  jhas (nodes tm) (Node.name node) = false ->
  jhas (topologyGraph tm) (Node.name node) = false ->
  existsb (involves (Node.name node)) (connections tm) = false ->
  removeNode tm node = tm.
Proof.
  intros Hn Hg Hc. unfold removeNode.
  rewrite filter_none.
  - simpl. unfold jhas in Hn, Hg.
    rewrite !jdelete_absent; [now destruct tm | |].
    + now destruct (jget (topologyGraph tm) (Node.name node)).
    + now destruct (jget (nodes tm) (Node.name node)).
  - intros e He. destruct (involves (Node.name node) e) eqn:E; [|reflexivity].
    assert (existsb (involves (Node.name node)) (connections tm) = true)
      by (apply existsb_exists; now exists e).
    congruence.
Qed.

(** ** Round trip of a connection *)

Lemma jget_addConnection (mesh : registry) (tm : TopologyManager) (c : Connection.t) :
  jget (connections (addConnection mesh tm c)) (Connection.id c) = Some c.
Proof. unfold addConnection; simpl. apply jget_jset_same. Qed.

Lemma neighbors_addConnection_registered (mesh : registry) (tm : TopologyManager)
  (c : Connection.t) (x : string) :
  jhas mesh (Connection.sourceNode c) && jhas mesh (Connection.targetNode c) = true ->
  neighbors (addConnection mesh tm c) x
  = let a := Connection.sourceNode c in
    let b := Connection.targetNode c in
    if String.eqb x b
    then sadd (if String.eqb b a then sadd (neighbors tm b) b else neighbors tm b) a
    else if String.eqb x a then sadd (neighbors tm a) b
         else neighbors tm x.
Proof.
  intros Hreg. unfold neighbors, addConnection; simpl. rewrite Hreg.
  rewrite neighborsIn_addBoth.
  - now rewrite !neighborsIn_ensureEntry.
  - rewrite jhas_ensureEntry, jhas_ensureEntry_same. reflexivity.
  - apply jhas_ensureEntry_same.
Qed.

Lemma neighbors_addConnection_unregistered (mesh : registry) (tm : TopologyManager)
  (c : Connection.t) (x : string) :
  jhas mesh (Connection.sourceNode c) && jhas mesh (Connection.targetNode c) = false ->
  neighbors (addConnection mesh tm c) x = neighbors tm x.
Proof. intros Hreg. unfold neighbors, addConnection; simpl. now rewrite Hreg. Qed.

Lemma sadd_idem (s : jsset) (x : string) : sadd (sadd s x) x = sadd s x.
Proof.
  unfold sadd at 1. rewrite (proj2 (shas_In (sadd s x) x)); [reflexivity|].
  apply In_sadd. now right.
Qed.

Lemma add_then_remove_neighbors (mesh : registry) (tm : TopologyManager)
  (c : Connection.t) (x : string) :
  shas (neighbors tm (Connection.sourceNode c)) (Connection.targetNode c) = false ->
  shas (neighbors tm (Connection.targetNode c)) (Connection.sourceNode c) = false ->
  neighbors (removeConnection (addConnection mesh tm c) (Connection.id c)) x
  = neighbors tm x.
Proof.
  intros Hab Hba. apply shas_false in Hab, Hba.
  rewrite (neighbors_removeConnection _ _ c) by apply jget_addConnection.
  rewrite neighborsIn_removeBoth.
  fold (neighbors (addConnection mesh tm c) (Connection.targetNode c)).
  fold (neighbors (addConnection mesh tm c) (Connection.sourceNode c)).
  fold (neighbors (addConnection mesh tm c) x).
  destruct (jhas mesh (Connection.sourceNode c)
            && jhas mesh (Connection.targetNode c)) eqn:Hreg.
  - rewrite !(neighbors_addConnection_registered mesh tm c) by exact Hreg.
    cbv zeta.
    set (a := Connection.sourceNode c) in *. set (b := Connection.targetNode c) in *.
    rewrite !String.eqb_refl.
    destruct (String.eqb_spec b a) as [E|Hne].
    + rewrite E in *. rewrite sadd_idem.
      destruct (String.eqb_spec x a) as [->|Hxa]; [|reflexivity].
      rewrite sdelete_sadd by exact Hab. apply sdelete_absent; assumption.
    + destruct (String.eqb_spec a b) as [E|_]; [congruence|].
      destruct (String.eqb_spec x b) as [->|Hxb].
      * apply sdelete_sadd; assumption.
      * destruct (String.eqb_spec x a) as [->|Hxa]; [|reflexivity].
        apply sdelete_sadd; assumption.
  - rewrite !(neighbors_addConnection_unregistered mesh tm c) by exact Hreg.
    set (a := Connection.sourceNode c) in *. set (b := Connection.targetNode c) in *.
    destruct (String.eqb_spec b a) as [E|Hne].
    + rewrite E in *.
      destruct (String.eqb_spec x a) as [->|Hxa]; [|reflexivity].
      rewrite (sdelete_absent (neighbors tm a) a) by assumption.
      apply sdelete_absent; assumption.
    + destruct (String.eqb_spec x b) as [->|Hxb]; [apply sdelete_absent; assumption|].
      destruct (String.eqb_spec x a) as [->|Hxa]; [apply sdelete_absent; assumption|].
      reflexivity.
Qed.

(** C9, as the code has it.  When neither end of the connection is in the
    other's neighbour set before the call, [addConnection] followed by
    [removeConnection] of that connection gives back every neighbour set,
    whether or not the registry holds the two ends.  Removing a connection
    that is not stored changes nothing; removing a node changes nothing when
    the topology manager holds neither the node nor an adjacency entry under
    its name and no stored connection names it; and each removal, done
    twice, is the same as done once. *)
Theorem connection_round_trip_and_repeated_removal
  (mesh : registry) (tm : TopologyManager) (c : Connection.t)
  (cid : string) (node : Node.t) :
  (shas (neighbors tm (Connection.sourceNode c)) (Connection.targetNode c) = false ->
   shas (neighbors tm (Connection.targetNode c)) (Connection.sourceNode c) = false ->
   forall x,
     neighbors (removeConnection (addConnection mesh tm c) (Connection.id c)) x
     = neighbors tm x)
  /\ (jhas (connections tm) cid = false -> removeConnection tm cid = tm)
  /\ (jhas (nodes tm) (Node.name node) = false ->
      jhas (topologyGraph tm) (Node.name node) = false ->
      existsb (involves (Node.name node)) (connections tm) = false ->
      removeNode tm node = tm)
  /\ removeConnection (removeConnection tm cid) cid = removeConnection tm cid
  /\ removeNode (removeNode tm node) node = removeNode tm node.
Proof.
  split; [|split; [|split; [|split]]].
  - intros Hab Hba x. now apply add_then_remove_neighbors.
  - unfold jhas, removeConnection.
    now destruct (jget (connections tm) cid).
  - apply removeNode_absent.
  - apply removeConnection_idempotent.
  - apply removeNode_idempotent.
Qed.

Lemma connection_round_trip_and_repeated_removal_witness :
  neighbors (removeConnection
               (addConnection meshABC linkAB (Connection.mk "c2" "B" "C")) "c2") "B"
  = ["A"]
  /\ removeConnection linkAB "c7" = linkAB
  /\ removeNode linkAB (sampleNode "Z") = linkAB.
Proof.
  pose proof (connection_round_trip_and_repeated_removal
                meshABC linkAB (Connection.mk "c2" "B" "C") "c7" (sampleNode "Z"))
    as (H1 & H2 & H3 & _).
  split; [exact (H1 eq_refl eq_refl "B")|]. split; [exact (H2 eq_refl)|].
  exact (H3 eq_refl eq_refl eq_refl).
Defined.

(** A second connection between two nodes that one connection already joins:
    after adding and removing it, the edge of the first is gone while the
    first connection is still stored. *)
Lemma parallel_connection_round_trip_loses_the_edge :
  neighbors linkAB "A" = ["B"]
  /\ neighbors (removeConnection
                  (addConnection meshABC linkAB (Connection.mk "c9" "A" "B")) "c9")
               "A" = []
  /\ getConnection (removeConnection
                      (addConnection meshABC linkAB (Connection.mk "c9" "A" "B"))
                      "c9") (JStr "A") (JStr "B")
     = Some (Connection.mk "c1" "A" "B").
Proof. repeat split. Qed.

(** A connection between names that no registry holds is stored all the
    same; removing the node of one of these names, absent from the topology
    manager, then removes that connection. *)
Example removeNode_of_absent_node_can_change_the_state :
  connections (addConnection [] newTopologyManager (Connection.mk "c1" "X" "Y"))
  = [("c1", Connection.mk "c1" "X" "Y")]
  /\ connections
       (removeNode (addConnection [] newTopologyManager (Connection.mk "c1" "X" "Y"))
                   (sampleNode "X")) = [].
Proof. repeat split. Qed.

(** [addConnection] between two registered names that the topology manager
    does not hold creates their adjacency entries, and [removeConnection]
    leaves the entries behind, empty; removing the node [A], which the
    topology manager does not hold and no stored connection names, then
    deletes the entry of [A]. *)
Example removeNode_of_absent_node_deletes_a_left_over_entry :
  nodes (removeConnection
           (addConnection meshABC newTopologyManager (Connection.mk "c1" "A" "B"))
           "c1") = []
  /\ connections (removeConnection
                    (addConnection meshABC newTopologyManager
                                   (Connection.mk "c1" "A" "B")) "c1") = []
  /\ topologyGraph (removeConnection
                      (addConnection meshABC newTopologyManager
                                     (Connection.mk "c1" "A" "B")) "c1")
     = [("A", []); ("B", [])]
  /\ topologyGraph
       (removeNode (removeConnection
                      (addConnection meshABC newTopologyManager
                                     (Connection.mk "c1" "A" "B")) "c1")
                   (sampleNode "A"))
     = [("B", [])].
Proof. repeat split. Qed.

(** ** The topology invariants along well-formed calls *)

Lemma joined_sym (c : Connection.t) (a b : string) : joined c a b -> joined c b a.
Proof. unfold joined. tauto. Qed.

Lemma joined_swap (c c' : Connection.t) :
  joined c' (Connection.sourceNode c) (Connection.targetNode c) ->
  joined c (Connection.sourceNode c') (Connection.targetNode c').
Proof. unfold joined. intuition congruence. Qed.

Lemma joins_joined (a b : string) (e : string * Connection.t) :
  joins (JStr a) (JStr b) e = true <-> joined (snd e) a b.
Proof.
  unfold joins, joined; simpl.
  rewrite orb_true_iff, !andb_true_iff, !String.eqb_eq. tauto.
Qed.

Lemma involves_joined (c : Connection.t) (cid a b : string) :
  joined c a b -> involves a (cid, c) = true /\ involves b (cid, c) = true.
Proof.
  unfold joined, involves; simpl. rewrite !orb_true_iff, !String.eqb_eq. tauto.
Qed.

Lemma adjacent_removeConnection (tm : TopologyManager) (cid : string)
  (c : Connection.t) (x y : string) :
  jget (connections tm) cid = Some c ->
  (adjacent (removeConnection tm cid) x y <-> adjacent tm x y /\ ~ joined c x y).
Proof.
  intros Hc. unfold adjacent.
  rewrite (neighbors_removeConnection tm cid c x Hc), neighborsIn_removeBoth.
  fold (neighbors tm (Connection.targetNode c)).
  fold (neighbors tm (Connection.sourceNode c)). fold (neighbors tm x).
  unfold joined. clear Hc.
  generalize (Connection.sourceNode c), (Connection.targetNode c). intros a b.
  destruct (String.eqb_spec x b) as [Hx|Hx];
    [destruct (String.eqb_spec b a) as [Hba|Hba]
    |destruct (String.eqb_spec x a) as [Hxa|Hxa]];
    rewrite ?In_sdelete; subst;
    (split; [intros H; split; [tauto | intros [[? ?]|[? ?]]; subst; tauto]
            | intros [H Hn]; repeat split; try exact H;
              intros E; apply Hn; subst; tauto]).
Qed.

Lemma adjacent_addConnection (mesh : registry) (tm : TopologyManager)
  (c : Connection.t) (x y : string) :
  jhas mesh (Connection.sourceNode c) && jhas mesh (Connection.targetNode c) = true ->
  (adjacent (addConnection mesh tm c) x y <-> adjacent tm x y \/ joined c x y).
Proof.
  intros Hreg. unfold adjacent.
  rewrite (neighbors_addConnection_registered mesh tm c x Hreg). cbv zeta.
  unfold joined. clear Hreg.
  generalize (Connection.sourceNode c), (Connection.targetNode c). intros a b.
  destruct (String.eqb_spec x b) as [Hx|Hx];
    [destruct (String.eqb_spec b a) as [Hba|Hba]
    |destruct (String.eqb_spec x a) as [Hxa|Hxa]];
    rewrite ?In_sadd; subst;
    (split; [intros H; intuition (subst; auto)
            | intros [H|[[? ?]|[? ?]]]; subst; intuition (subst; auto)]).
Qed.

Lemma NoDup_neighbors_removeConnection (tm : TopologyManager) (cid x : string) :
  NoDup (neighbors tm x) -> (forall a, NoDup (neighbors tm a)) ->
  NoDup (neighbors (removeConnection tm cid) x).
Proof.
  intros _ Hnd. destruct (jget (connections tm) cid) as [c|] eqn:Hc.
  - rewrite (neighbors_removeConnection tm cid c x Hc), neighborsIn_removeBoth.
    repeat match goal with
           | |- context [String.eqb ?u ?v] => destruct (String.eqb u v)
           end;
      repeat apply NoDup_sdelete; apply Hnd.
  - unfold removeConnection. rewrite Hc. apply Hnd.
Qed.

Lemma NoDup_neighbors_addConnection (mesh : registry) (tm : TopologyManager)
  (c : Connection.t) (x : string) :
  (forall a, NoDup (neighbors tm a)) ->
  NoDup (neighbors (addConnection mesh tm c) x).
Proof.
  intros Hnd.
  destruct (jhas mesh (Connection.sourceNode c)
            && jhas mesh (Connection.targetNode c)) eqn:Hreg.
  - rewrite (neighbors_addConnection_registered mesh tm c x Hreg). cbv zeta.
    repeat match goal with
           | |- context [String.eqb ?u ?v] => destruct (String.eqb u v)
           end;
      repeat apply NoDup_sadd; apply Hnd.
  - rewrite (neighbors_addConnection_unregistered mesh tm c x Hreg). apply Hnd.
Qed.

Lemma jhas_graph_removeConnection (tm : TopologyManager) (cid x : string) :
  jhas (topologyGraph (removeConnection tm cid)) x = jhas (topologyGraph tm) x.
Proof.
  unfold removeConnection. destruct (jget (connections tm) cid); [|reflexivity].
  simpl. now rewrite !jhas_removeEdgeFrom.
Qed.

Lemma In_jdelete {V : Type} (m : jmap V) (k : string) (e : string * V) :
  In e (jdelete m k) <-> In e m /\ fst e <> k.
Proof.
  unfold jdelete. rewrite filter_In, negb_true_iff, String.eqb_neq. tauto.
Qed.

Lemma adjacent_has_entry (tm : TopologyManager) (a b : string) :
  adjacent tm a b -> jhas (topologyGraph tm) a = true.
Proof.
  unfold adjacent, neighbors, neighborsIn, jhas.
  destruct (jget (topologyGraph tm) a); [reflexivity | contradiction].
Qed.

Lemma carried_removeConnection (tm : TopologyManager) (cid : string) :
  carriedInvariant tm -> carriedInvariant (removeConnection tm cid).
Proof.
  intros [Hk Hs Hl Hn Hce Hec Hp].
  destruct (jget (connections tm) cid) as [c|] eqn:Hc.
  2:{ unfold removeConnection. rewrite Hc. now constructor. }
  pose proof (jget_In _ _ _ Hc) as Hin.
  constructor.
  - rewrite connections_removeConnection. now apply NoDup_jkeys_jdelete.
  - intros a b Hab. apply (adjacent_removeConnection tm cid c) in Hab as [Hab Hj]; auto.
    apply (adjacent_removeConnection tm cid c); auto. split; [now apply Hs|].
    intros Hj'. apply Hj. now apply joined_sym.
  - intros a. rewrite jhas_graph_removeConnection, nodes_removeConnection. apply Hl.
  - intros a. apply NoDup_neighbors_removeConnection; auto.
  - intros cid' c' Hin'. rewrite connections_removeConnection in Hin'.
    apply In_jdelete in Hin' as [Hin' Hne]. simpl in Hne.
    apply (adjacent_removeConnection tm cid c); auto. split; [now apply (Hce cid')|].
    intros Hj. apply Hne. now apply (Hp cid' c' cid c).
  - intros a b Hab. apply (adjacent_removeConnection tm cid c) in Hab as [Hab Hj]; auto.
    destruct (Hec a b Hab) as (cid' & c' & Hin' & Hj').
    exists cid', c'. split; [|exact Hj'].
    rewrite connections_removeConnection. apply In_jdelete. split; [exact Hin'|].
    simpl. intros E. subst cid'.
    apply (In_jget_unique _ _ _ Hk) in Hin'. congruence.
  - intros cid1 c1 cid2 c2 H1 H2. rewrite connections_removeConnection in H1, H2.
    apply In_jdelete in H1 as [H1 _]. apply In_jdelete in H2 as [H2 _].
    now apply Hp.
Qed.

Lemma carried_removals (ids : list string) :
  forall tm, carriedInvariant tm ->
             carriedInvariant (fold_left removeConnection ids tm).
Proof.
  induction ids as [|cid ids IH]; intros tm H; simpl; [exact H|].
  apply IH. now apply carried_removeConnection.
Qed.

Lemma jhas_jset {V : Type} (m : jmap V) (k x : string) (v : V) :
  jhas (jset m k v) x = jhas m x || String.eqb x k.
Proof.
  unfold jhas. destruct (String.eqb_spec x k) as [->|Hne].
  - rewrite jget_jset_same. now rewrite orb_true_r.
  - rewrite jget_jset_other by exact Hne. now rewrite orb_false_r.
Qed.

Lemma jhas_jdelete {V : Type} (m : jmap V) (k x : string) :
  jhas (jdelete m k) x = jhas m x && negb (String.eqb x k).
Proof.
  unfold jhas. destruct (String.eqb_spec x k) as [->|Hne].
  - rewrite jget_jdelete_same. now rewrite andb_false_r.
  - rewrite jget_jdelete_other by exact Hne. now rewrite andb_true_r.
Qed.

Lemma neighbors_addNode (tm : TopologyManager) (node : Node.t) (x : string) :
  jhas (topologyGraph tm) (Node.name node) = false ->
  neighbors (addNode tm node) x = neighbors tm x.
Proof.
  intros Hg. unfold neighbors, neighborsIn, addNode; simpl. unfold jhas in Hg.
  destruct (String.eqb_spec x (Node.name node)) as [->|Hne].
  - rewrite jget_jset_same.
    now destruct (jget (topologyGraph tm) (Node.name node)).
  - now rewrite jget_jset_other.
Qed.

Lemma carried_addNode (tm : TopologyManager) (node : Node.t) :
  wellFormedCall tm (AddNode node) = true ->
  carriedInvariant tm -> carriedInvariant (addNode tm node).
Proof.
  simpl. rewrite andb_true_iff, !negb_true_iff. intros [_ Hg].
  intros [Hk Hs Hl Hn Hce Hec Hp].
  assert (Hadj : forall a b, adjacent (addNode tm node) a b <-> adjacent tm a b).
  { intros a b. unfold adjacent. now rewrite neighbors_addNode. }
  constructor.
  - exact Hk.
  - intros a b Hab. apply Hadj. apply Hs. now apply Hadj.
  - intros a. unfold addNode; simpl. rewrite !jhas_jset.
    rewrite !orb_true_iff. intros [H|H]; [left; now apply Hl | now right].
  - intros a. rewrite neighbors_addNode by exact Hg. apply Hn.
  - intros cid c Hin. apply Hadj. now apply (Hce cid).
  - intros a b Hab. apply Hadj in Hab. exact (Hec a b Hab).
  - exact Hp.
Qed.

Lemma getConnection_none (tm : TopologyManager) (a b : string) :
  isNone (getConnection tm (JStr a) (JStr b)) = true ->
  forall cid c, In (cid, c) (connections tm) -> ~ joined c a b.
Proof.
  unfold getConnection. intros H cid c Hin Hj.
  destruct (find (joins (JStr a) (JStr b)) (connections tm)) eqn:E;
    [discriminate|].
  apply (find_none _ _ E) in Hin.
  apply (joins_joined a b (cid, c)) in Hj. congruence.
Qed.

Lemma jhas_graph_addConnection (mesh : registry) (tm : TopologyManager)
  (c : Connection.t) (x : string) :
  jhas (topologyGraph (addConnection mesh tm c)) x = true ->
  jhas (topologyGraph tm) x = true
  \/ x = Connection.sourceNode c \/ x = Connection.targetNode c.
Proof.
  unfold addConnection; simpl.
  destruct (jhas mesh (Connection.sourceNode c)
            && jhas mesh (Connection.targetNode c)); [|now left].
  rewrite !jhas_addEdgeTo, !jhas_ensureEntry, !orb_true_iff, !String.eqb_eq. tauto.
Qed.

Lemma carried_addConnection (mesh : registry) (tm : TopologyManager)
  (c : Connection.t) :
  wellFormedCall tm (AddConnection mesh c) = true ->
  carriedInvariant tm -> carriedInvariant (addConnection mesh tm c).
Proof.
  simpl. rewrite !andb_true_iff, negb_true_iff.
  intros [[[[[Hfresh Hma] Hmb] Hna] Hnb] Hnone].
  intros [Hk Hs Hl Hn Hce Hec Hp].
  assert (Hreg : jhas mesh (Connection.sourceNode c)
                 && jhas mesh (Connection.targetNode c) = true)
    by now rewrite Hma, Hmb.
  assert (Hget : jget (connections tm) (Connection.id c) = None).
  { unfold jhas in Hfresh. now destruct (jget (connections tm) (Connection.id c)). }
  assert (Hcs : connections (addConnection mesh tm c)
                = connections tm ++ [(Connection.id c, c)]).
  { unfold addConnection; simpl. now apply jset_fresh. }
  pose proof (getConnection_none tm _ _ Hnone) as Hnj.
  constructor.
  - rewrite Hcs. unfold jkeys. rewrite map_app. simpl.
    apply NoDup_app; [exact Hk | repeat constructor; tauto|].
    intros k Hin [E|[]]. subst k. now apply (jget_None_not_key _ _ Hget).
  - intros a b Hab. apply (adjacent_addConnection mesh tm c) in Hab; auto.
    apply (adjacent_addConnection mesh tm c); auto.
    destruct Hab as [Hab|Hj]; [left; now apply Hs | right; now apply joined_sym].
  - intros a Ha. apply jhas_graph_addConnection in Ha.
    unfold addConnection; simpl.
    destruct Ha as [Ha|[Ha|Ha]]; [now apply Hl | now subst | now subst].
  - intros a. now apply NoDup_neighbors_addConnection.
  - intros cid' c' Hin. rewrite Hcs in Hin.
    apply (adjacent_addConnection mesh tm c); auto.
    apply in_app_iff in Hin as [Hin|[E|[]]].
    + left. now apply (Hce cid').
    + inversion E; subst. right. left. now split.
  - intros a b Hab. apply (adjacent_addConnection mesh tm c) in Hab; auto.
    rewrite Hcs. destruct Hab as [Hab|Hj].
    + destruct (Hec a b Hab) as (cid' & c' & Hin & Hj).
      exists cid', c'. split; [apply in_app_iff; now left | exact Hj].
    + exists (Connection.id c), c. split; [|exact Hj].
      apply in_app_iff. right. now left.
  - intros cid1 c1 cid2 c2 H1 H2 Hj. rewrite Hcs in H1, H2.
    apply in_app_iff in H1 as [H1|[E1|[]]];
      apply in_app_iff in H2 as [H2|[E2|[]]].
    + now apply (Hp cid1 c1 cid2 c2).
    + inversion E2; subst. exfalso.
      apply (Hnj cid1 c1 H1). now apply joined_swap.
    + inversion E1; subst. exfalso. now apply (Hnj cid2 c2 H2).
    + inversion E1; inversion E2; congruence.
Qed.

Lemma carried_removeNode (tm : TopologyManager) (node : Node.t) :
  carriedInvariant tm -> carriedInvariant (removeNode tm node).
Proof.
  intros H0. unfold removeNode.
  set (ids := map fst (filter (involves (Node.name node)) (connections tm))).
  pose proof (carried_removals ids tm H0) as H1.
  pose proof (no_involvement_after_removals tm (Node.name node)) as Hinv.
  fold ids in Hinv.
  set (tm1 := fold_left removeConnection ids tm) in *.
  destruct H1 as [Hk Hs Hl Hn Hce Hec Hp].
  assert (Hfree : forall a b, adjacent tm1 a b ->
                              a <> Node.name node /\ b <> Node.name node).
  { intros a b Hab. destruct (Hec a b Hab) as (cid & c & Hin & Hj).
    destruct (involves_joined c cid a b Hj) as [Ia Ib].
    split; intros E; subst.
    - assert (In (cid, c) (filter (involves (Node.name node)) (connections tm1)))
        by (apply filter_In; now split).
      rewrite Hinv in H. contradiction.
    - assert (In (cid, c) (filter (involves (Node.name node)) (connections tm1)))
        by (apply filter_In; now split).
      rewrite Hinv in H. contradiction. }
  assert (Hnb : forall x,
             neighbors (mkTopology (connections tm1)
                          (jdelete (nodes tm1) (Node.name node))
                          (jdelete (topologyGraph tm1) (Node.name node))
                          (totalConnections tm1)) x
             = neighbors tm1 x).
  { intros x. unfold neighbors, neighborsIn; simpl.
    destruct (String.eqb_spec x (Node.name node)) as [->|Hne].
    - rewrite jget_jdelete_same.
      destruct (jget (topologyGraph tm1) (Node.name node)) as [[|y ns]|] eqn:E;
        try reflexivity.
      exfalso. destruct (Hfree (Node.name node) y) as [Hf _]; [|now apply Hf].
      unfold adjacent, neighbors, neighborsIn. rewrite E. now left.
    - now rewrite jget_jdelete_other. }
  assert (Hadj : forall a b,
             adjacent (mkTopology (connections tm1)
                         (jdelete (nodes tm1) (Node.name node))
                         (jdelete (topologyGraph tm1) (Node.name node))
                         (totalConnections tm1)) a b
             <-> adjacent tm1 a b).
  { intros a b. unfold adjacent. now rewrite Hnb. }
  constructor; simpl.
  - exact Hk.
  - intros a b Hab. apply Hadj. apply Hs. now apply Hadj.
  - intros a. rewrite !jhas_jdelete, !andb_true_iff.
    intros [Ha Hne]. split; [now apply Hl | exact Hne].
  - intros a. rewrite Hnb. apply Hn.
  - intros cid c Hin. apply Hadj. now apply (Hce cid).
  - intros a b Hab. apply Hadj in Hab. exact (Hec a b Hab).
  - exact Hp.
Qed.

Lemma carried_new : carriedInvariant newTopologyManager.
Proof.
  constructor; simpl; try (intros; contradiction).
  - constructor.
  - intros a b H. contradiction.
  - intros a. discriminate.
  - intros a. constructor.
Qed.

Lemma carried_mutate (tm : TopologyManager) (op : mutation) :
  wellFormedCall tm op = true -> carriedInvariant tm ->
  carriedInvariant (mutate tm op).
Proof.
  destruct op as [node|node|mesh c|cid]; simpl mutate; intros Hwf H.
  - now apply carried_addNode.
  - now apply carried_removeNode.
  - now apply carried_addConnection.
  - now apply carried_removeConnection.
Qed.

Lemma carried_trace (ops : list mutation) :
  forall tm, wellFormedTrace tm ops = true -> carriedInvariant tm ->
             carriedInvariant (fold_left mutate ops tm).
Proof.
  induction ops as [|op ops IH]; intros tm Hwf H; simpl; [exact H|].
  simpl in Hwf. apply andb_true_iff in Hwf as [Hop Hrest].
  apply IH; [exact Hrest | now apply carried_mutate].
Qed.

Lemma carried_gives_invariants (tm : TopologyManager) :
  carriedInvariant tm -> topologyInvariants tm.
Proof.
  intros [Hk Hs Hl Hn Hce Hec Hp]. split; [exact Hs|]. split.
  - intros a. split; [apply Hl|].
    intros b Hab. apply Hl. apply (adjacent_has_entry tm b a). now apply Hs.
  - intros cid c Hin. cbv zeta. pose proof (Hce cid c Hin) as Hab.
    repeat split; auto.
Qed.

(** C5, as the code has it.  Starting from the empty topology manager, after
    any sequence of calls in which nodes are added under names not yet
    present, connections are added under fresh identifiers between two nodes
    held by the registry and by the topology manager and not yet joined by a
    stored connection, and nodes and connections are removed at will: the
    adjacency map is symmetric, every name in it is a held node, and every
    stored connection has its two edges, each held once. *)
Theorem well_formed_calls_keep_topology_invariants (ops : list mutation)
  (Hwf : wellFormedTrace newTopologyManager ops = true) :
  topologyInvariants (fold_left mutate ops newTopologyManager).
Proof.
  apply carried_gives_invariants, carried_trace; [exact Hwf | exact carried_new].
Qed.

Lemma well_formed_calls_keep_topology_invariants_witness :
  topologyInvariants
    (fold_left mutate
       [AddNode (sampleNode "A"); AddNode (sampleNode "B"); AddNode (sampleNode "C");
        AddConnection meshABC (Connection.mk "c1" "A" "B");
        AddConnection meshABC (Connection.mk "c2" "B" "C");
        RemoveConnection "c1"; RemoveNode (sampleNode "B")]
       newTopologyManager).
Proof.
  apply well_formed_calls_keep_topology_invariants. reflexivity.
Defined.

(** Adding a node again under a name that has neighbours empties its own
    neighbour set and leaves it in the sets of its neighbours. *)
Example addNode_again_breaks_symmetry :
  neighbors linkAB "A" = ["B"] /\ neighbors linkAB "B" = ["A"]
  /\ neighbors (addNode linkAB (sampleNode "A")) "A" = []
  /\ neighbors (addNode linkAB (sampleNode "A")) "B" = ["A"]
  /\ ~ symmetricGraph (addNode linkAB (sampleNode "A")).
Proof.
  repeat split. intros H. specialize (H "B" "A" (or_introl eq_refl)).
  exact H.
Qed.

(** A connection from [A] to the name [Z], which the registry does not hold:
    the three invariants hold before the call; after it the connection is
    stored and has no edge. *)
Lemma addConnection_unregistered_end_breaks_invariants :
  topologyInvariants threeNodes
  /\ connections (addConnection meshABC threeNodes (Connection.mk "c1" "A" "Z"))
     = [("c1", Connection.mk "c1" "A" "Z")]
  /\ neighbors (addConnection meshABC threeNodes (Connection.mk "c1" "A" "Z")) "A"
     = []
  /\ ~ topologyInvariants
        (addConnection meshABC threeNodes (Connection.mk "c1" "A" "Z")).
Proof.
  split; [|split; [reflexivity|split; [reflexivity|]]].
  - apply carried_gives_invariants.
    apply (carried_trace
             [AddNode (sampleNode "A"); AddNode (sampleNode "B");
              AddNode (sampleNode "C")] newTopologyManager eq_refl carried_new).
  - intros (_ & _ & H).
    destruct (H "c1" (Connection.mk "c1" "A" "Z") (or_introl eq_refl)) as [Hab _].
    exact Hab.
Qed.

(** Of two connections between the same two nodes, removing one removes the
    edges of both. *)
Example removeConnection_of_parallel_leaves_one_without_edges :
  connections (removeConnection
                 (addConnection meshABC linkAB (Connection.mk "c9" "A" "B")) "c9")
  = [("c1", Connection.mk "c1" "A" "B")]
  /\ neighbors (removeConnection
                  (addConnection meshABC linkAB (Connection.mk "c9" "A" "B")) "c9")
               "A" = [].
Proof. repeat split. Qed.

(** ** Further properties of the router *)

Lemma count_snoc {A : Type} (p : A -> bool) (l : list A) (x : A) :
  List.length (filter p (l ++ [x]))
  = List.length (filter p l) + (if p x then 1 else 0).
Proof.
  rewrite filter_app, length_app. simpl. now destruct (p x).
Qed.

Lemma fold_left_none {A B : Type} (f : option A -> B -> option A) (l : list B) :
  (forall x, f None x = None) -> fold_left f l None = None.
Proof. intros H. induction l as [|x l IH]; simpl; [reflexivity | now rewrite H]. Qed.

Lemma handleMessageFailure_accounts (r : MessageRouter) (m : Message.t)
  (e i : string) :
  whereabouts (handleMessageFailure r m e) i
  = whereabouts r i + (if hasId i m then 1 else 0)
  /\ messagesDelivered (routingStats (handleMessageFailure r m e))
     = messagesDelivered (routingStats r)
  /\ messagesRouted (routingStats (handleMessageFailure r m e))
     = messagesRouted (routingStats r).
Proof.
  unfold handleMessageFailure, whereabouts, inIntake, inDelivery, inArchive.
  destruct (_ <? _); simpl; rewrite count_snoc; unfold hasMessageId, hasId; simpl;
    repeat split; lia.
Qed.

Lemma processMessageStep_accounts (mesh : registry) (tm : TopologyManager)
  (fuel : nat) (r r' : MessageRouter) (m : Message.t) (i : string) :
  processMessageStep mesh tm fuel (Some r) m = Some r' ->
  whereabouts r' i = whereabouts r i + (if hasId i m then 1 else 0)
  /\ messagesDelivered (routingStats r') = messagesDelivered (routingStats r)
  /\ messagesRouted (routingStats r') = messagesRouted (routingStats r).
Proof.
  unfold processMessageStep.
  destruct (processMessage mesh tm fuel r m) as [[r1|e]|] eqn:Hp; intros H;
    inversion H; subst; clear H.
  - unfold processMessage in Hp.
    destruct (negb (jhas mesh (Message.targetNode m))); [discriminate|].
    destruct (negb (jhas mesh (Message.sourceNode m))); [discriminate|].
    destruct (determineRoutingPath mesh tm fuel m) as [[p|]|]; try discriminate.
    inversion Hp; subst; clear Hp.
    unfold whereabouts, inIntake, inDelivery, inArchive; simpl.
    rewrite count_snoc. unfold taskHasId; simpl. repeat split; lia.
  - apply handleMessageFailure_accounts.
Qed.

Lemma processMessage_fold_accounts (mesh : registry) (tm : TopologyManager)
  (fuel : nat) (i : string) (batch : list Message.t) :
  forall r r',
    fold_left (processMessageStep mesh tm fuel) batch (Some r) = Some r' ->
    whereabouts r' i = whereabouts r i + List.length (filter (hasId i) batch)
    /\ messagesDelivered (routingStats r') = messagesDelivered (routingStats r)
    /\ messagesRouted (routingStats r') = messagesRouted (routingStats r).
Proof.
  induction batch as [|m batch IH]; cbn [fold_left filter]; intros r r' H.
  - inversion H; subst. simpl. repeat split; lia.
  - destruct (processMessageStep mesh tm fuel (Some r) m) as [r1|] eqn:E.
    + destruct (processMessageStep_accounts _ _ _ _ _ _ i E) as (H1 & H2 & H3).
      destruct (IH r1 r' H) as (H4 & H5 & H6).
      destruct (hasId i m); simpl; repeat split; lia.
    + rewrite fold_left_none in H by reflexivity. discriminate.
Qed.

(** X1.  A pass of [processMessageQueue] that returns has neither lost nor
    duplicated an envelope: for every message identifier the number of its
    occurrences in the intake queue, the delivery queue and the failed
    archive together is what it was, and the counters of routed and
    delivered messages have not moved. *)
Theorem processMessageQueue_keeps_every_envelope
  (mesh : registry) (tm : TopologyManager) (fuel : nat) (r r' : MessageRouter)
  (Hret : processMessageQueue mesh tm fuel r = Some r') :
  (forall i, whereabouts r' i = whereabouts r i)
  /\ messagesDelivered (routingStats r') = messagesDelivered (routingStats r)
  /\ messagesRouted (routingStats r') = messagesRouted (routingStats r).
Proof.
  unfold processMessageQueue in Hret.
  destruct (messageQueue r) as [|m0 q] eqn:Hq.
  - inversion Hret; subst. repeat split.
  - rewrite <- Hq in Hret.
    assert (Hall : forall i,
               whereabouts r' i = whereabouts r i
               /\ messagesDelivered (routingStats r')
                  = messagesDelivered (routingStats r)
               /\ messagesRouted (routingStats r') = messagesRouted (routingStats r)).
    { intros i.
      destruct (processMessage_fold_accounts _ _ _ i _ _ _ Hret) as (H1 & H2 & H3).
      split; [|now split]. rewrite H1.
      unfold whereabouts, inIntake, inDelivery, inArchive.
      cbn [messageQueue deliveryQueue failedMessages].
      pose proof (f_equal (fun l => List.length (filter (hasId i) l))
                          (firstn_skipn 5 (messageQueue r))) as Hsplit.
      cbv beta in Hsplit. rewrite filter_app, length_app in Hsplit. lia. }
    split; [intros i; apply Hall | apply (Hall "")].
Qed.

Lemma processMessageQueue_keeps_every_envelope_witness :
  whereabouts
    (mkRouter [Message.mk "m2" "A" "Z" 1 3]
              [Task.mk (Message.mk "m1" "A" "B" 0 3) [JStr "A"; JStr "B"] 0 Pending]
              [] (mkStats 2 0 0) true) "m1"
  = whereabouts
      (mkRouter [Message.mk "m1" "A" "B" 0 3; Message.mk "m2" "A" "Z" 0 3]
                [] [] (mkStats 2 0 0) true) "m1".
Proof.
  exact (proj1 (processMessageQueue_keeps_every_envelope meshABC lineABC 0
                  (mkRouter [Message.mk "m1" "A" "B" 0 3; Message.mk "m2" "A" "Z" 0 3]
                            [] [] (mkStats 2 0 0) true)
                  (mkRouter [Message.mk "m2" "A" "Z" 1 3]
                            [Task.mk (Message.mk "m1" "A" "B" 0 3)
                                     [JStr "A"; JStr "B"] 0 Pending]
                            [] (mkStats 2 0 0) true)
                  eq_refl) "m1").
Defined.

(** What one message of the batch does to the router. *)
Lemma processMessageStep_cases (mesh : registry) (tm : TopologyManager)
  (fuel : nat) (r r' : MessageRouter) (m : Message.t) :
  processMessageStep mesh tm fuel (Some r) m = Some r' ->
  (exists path, r' = handedOver r (Task.mk m path 0 Pending))
  \/ r' = requeuedIntake r (nextAttempt m)
  \/ (exists e, r' = archived r (Failure.mk (nextAttempt m) e None)).
Proof.
  unfold processMessageStep.
  destruct (processMessage mesh tm fuel r m) as [[r1|e]|] eqn:Hp; intros H;
    inversion H; subst; clear H.
  - left. unfold processMessage in Hp.
    destruct (negb (jhas mesh (Message.targetNode m))); [discriminate|].
    destruct (negb (jhas mesh (Message.sourceNode m))); [discriminate|].
    destruct (determineRoutingPath mesh tm fuel m) as [[p|]|]; try discriminate.
    inversion Hp; subst. now exists p.
  - right. unfold handleMessageFailure, nextAttempt.
    destruct (_ <? _); [now left | right; now exists e].
Qed.

Lemma processMessage_fold_appends (mesh : registry) (tm : TopologyManager)
  (fuel : nat) (batch : list Message.t) :
  forall r r',
    fold_left (processMessageStep mesh tm fuel) batch (Some r) = Some r' ->
    exists requeued tasks failures,
      messageQueue r' = messageQueue r ++ requeued
      /\ deliveryQueue r' = deliveryQueue r ++ tasks
      /\ failedMessages r' = failedMessages r ++ failures
      /\ List.length requeued + List.length tasks + List.length failures
         = List.length batch
      /\ forallb isPending tasks = true
      /\ messagesFailed (routingStats r')
         = messagesFailed (routingStats r) + List.length failures.
Proof.
  induction batch as [|m batch IH]; cbn [fold_left]; intros r r' H.
  - inversion H; subst. exists [], [], []. rewrite !app_nil_r. simpl.
    repeat split; lia.
  - destruct (processMessageStep mesh tm fuel (Some r) m) as [r1|] eqn:E.
    2:{ rewrite fold_left_none in H by reflexivity. discriminate. }
    destruct (IH r1 r' H) as (a & b & c & Ha & Hb & Hc & Hlen & Hp & Hf).
    destruct (processMessageStep_cases _ _ _ _ _ _ E)
      as [(p & ->) | [-> | (e & ->)]]; simpl in *.
    + exists a, (Task.mk m p 0 Pending :: b), c.
      rewrite Ha, Hb, Hc, <- !app_assoc. simpl. repeat split; auto; lia.
    + exists (nextAttempt m :: a), b, c.
      rewrite Ha, Hb, Hc, <- !app_assoc. simpl. repeat split; auto; lia.
    + exists a, b, (Failure.mk (nextAttempt m) e None :: c).
      rewrite Ha, Hb, Hc, <- !app_assoc. simpl. repeat split; auto; lia.
Qed.

(** X2.  A pass of [processMessageQueue] that returns has taken the messages
    at the head of the intake queue, five at most, and has appended each of
    them to the end of exactly one of the intake queue, the delivery queue
    and the failed archive; the rest of the intake queue stays in front, in
    its order, and nothing that the three lists held before is removed or
    moved.  Every task it appends is pending, and [messagesFailed] grows by
    the number of entries appended to the archive. *)
Theorem processMessageQueue_takes_the_first_five
  (mesh : registry) (tm : TopologyManager) (fuel : nat) (r r' : MessageRouter)
  (Hret : processMessageQueue mesh tm fuel r = Some r') :
  exists requeued tasks failures,
    messageQueue r' = skipn 5 (messageQueue r) ++ requeued
    /\ deliveryQueue r' = deliveryQueue r ++ tasks
    /\ failedMessages r' = failedMessages r ++ failures
    /\ List.length requeued + List.length tasks + List.length failures
       = Nat.min 5 (List.length (messageQueue r))
    /\ forallb isPending tasks = true
    /\ messagesFailed (routingStats r')
       = messagesFailed (routingStats r) + List.length failures.
Proof.
  unfold processMessageQueue in Hret.
  destruct (messageQueue r) as [|m0 q] eqn:Hq.
  - inversion Hret; subst. exists [], [], []. rewrite Hq, !app_nil_r. simpl.
    repeat split; lia.
  - rewrite <- Hq in *.
    destruct (processMessage_fold_appends _ _ _ _ _ _ Hret)
      as (a & b & c & Ha & Hb & Hc & Hlen & Hp & Hf).
    exists a, b, c. cbn [messageQueue deliveryQueue failedMessages routingStats] in *.
    rewrite length_firstn in Hlen. repeat split; auto.
Qed.

Lemma processMessageQueue_takes_the_first_five_witness :
  exists requeued tasks failures,
    [Message.mk "m2" "A" "Z" 1 3] = skipn 5
        [Message.mk "m1" "A" "B" 0 3; Message.mk "m2" "A" "Z" 0 3] ++ requeued
    /\ [Task.mk (Message.mk "m1" "A" "B" 0 3) [JStr "A"; JStr "B"] 0 Pending]
       = [] ++ tasks
    /\ @nil Failure.t = [] ++ failures
    /\ List.length requeued + List.length tasks + List.length failures
       = Nat.min 5 2
    /\ forallb isPending tasks = true
    /\ 0 = 0 + List.length failures.
Proof.
  exact (processMessageQueue_takes_the_first_five meshABC lineABC 0
           (mkRouter [Message.mk "m1" "A" "B" 0 3; Message.mk "m2" "A" "Z" 0 3]
                     [] [] (mkStats 2 0 0) true)
           (mkRouter [Message.mk "m2" "A" "Z" 1 3]
                     [Task.mk (Message.mk "m1" "A" "B" 0 3)
                              [JStr "A"; JStr "B"] 0 Pending]
                     [] (mkStats 2 0 0) true)
           eq_refl).
Defined.

Lemma handleDeliveryFailure_cases (r : MessageRouter) (t : Task.t) (e : string) :
  handleDeliveryFailure r t e
  = requeuedDelivery r (Task.mk (nextAttempt (Task.message t)) (Task.routingPath t)
                                (Task.currentHop t) Pending)
  \/ handleDeliveryFailure r t e
     = archived r (Failure.mk (nextAttempt (Task.message t)) e
                              (Some (Task.routingPath t))).
Proof.
  unfold handleDeliveryFailure, nextAttempt. destruct (_ <? _); [now left | now right].
Qed.

Lemma deliverMessage_cases
  (mesh : registry) (receiveMessage : Node.t -> Message.t -> option string)
  (r : MessageRouter) (m : Message.t) (target : jsval) :
  deliverMessage mesh receiveMessage r m target = Ok (delivered r)
  \/ exists e, deliverMessage mesh receiveMessage r m target = Throw e.
Proof.
  unfold deliverMessage. destruct (jget_val mesh target) as [n|]; [|right; eauto].
  destruct (receiveMessage n m); [right; eauto | now left].
Qed.

(** What one task of the batch does to the router: nothing (the task is not
    pending, or was forwarded, or got another path), a delivery, or a
    failure that re-enqueues or archives it. *)
Lemma processDeliveryStep_cases
  (mesh : registry) (tm : TopologyManager)
  (receiveMessage : Node.t -> Message.t -> option string)
  (sendMessage : Node.t -> Node.t -> Message.t -> option string)
  (fuel : nat) (r r' : MessageRouter) (t : Task.t) :
  processDeliveryStep mesh tm receiveMessage sendMessage fuel (Some r) t = Some r' ->
  (r' = r /\ deliversAtOnce t = false)
  \/ r' = delivered r
  \/ r' = requeuedDelivery r (Task.mk (nextAttempt (Task.message t))
                                      (Task.routingPath t) (Task.currentHop t)
                                      Pending)
  \/ (exists e, r' = archived r (Failure.mk (nextAttempt (Task.message t)) e
                                            (Some (Task.routingPath t)))).
Proof.
  assert (Hfail : forall e,
            Some (handleDeliveryFailure r t e) = Some r' ->
            r' = requeuedDelivery r (Task.mk (nextAttempt (Task.message t))
                                             (Task.routingPath t)
                                             (Task.currentHop t) Pending)
            \/ (exists e, r' = archived r
                                 (Failure.mk (nextAttempt (Task.message t)) e
                                             (Some (Task.routingPath t))))).
  { intros e H. inversion H; subst.
    destruct (handleDeliveryFailure_cases r t e) as [-> | ->];
      [now left | right; now exists e]. }
  unfold processDeliveryStep, processDeliveryTask, deliversAtOnce, isPending.
  destruct (Task.status t); try (intros H; inversion H; now left).
  cbn [andb].
  destruct (Nat.leb_spec (List.length (Task.routingPath t)) (Task.currentHop t + 1))
    as [Hle|Hgt].
  - destruct (deliverMessage_cases mesh receiveMessage r (Task.message t)
                (nth (List.length (Task.routingPath t) - 1) (Task.routingPath t)
                     JUndef)) as [-> | (e & ->)]; intros H.
    + inversion H; subst. right. now left.
    + right. right. now apply (Hfail e).
  - destruct (Nat.eqb_spec (List.length (Task.routingPath t)) 2) as [E2|N2];
      destruct (Nat.eqb_spec (Task.currentHop t) 0) as [E0|N0]; cbn [andb].
    + destruct (deliverMessage_cases mesh receiveMessage r (Task.message t)
                  (nth (Task.currentHop t + 1) (Task.routingPath t) JUndef))
        as [-> | (e & ->)]; intros H.
      * inversion H; subst. right. now left.
      * right. right. now apply (Hfail e).
    + lia.
    + assert (Hlong : (List.length (Task.routingPath t) <=? 2) = false)
        by (apply Nat.leb_gt; lia).
      rewrite Hlong.
      destruct (canRouteThroughNode mesh tm _ _).
      * destruct (forwardMessage mesh sendMessage _ _ _) as [u|e]; intros H.
        -- inversion H; now left.
        -- right. right. now apply (Hfail e).
      * destruct (findAlternativePath mesh tm fuel _ _ _) as [[p|]|]; intros H.
        -- inversion H; now left.
        -- right. right. now apply (Hfail _ H).
        -- discriminate.
    + assert (Hlong : (List.length (Task.routingPath t) <=? 2) = false)
        by (apply Nat.leb_gt; lia).
      rewrite Hlong.
      destruct (canRouteThroughNode mesh tm _ _).
      * destruct (forwardMessage mesh sendMessage _ _ _) as [u|e]; intros H.
        -- inversion H; now left.
        -- right. right. now apply (Hfail e).
      * destruct (findAlternativePath mesh tm fuel _ _ _) as [[p|]|]; intros H.
        -- inversion H; now left.
        -- right. right. now apply (Hfail _ H).
        -- discriminate.
Qed.

Lemma processDelivery_fold_appends
  (mesh : registry) (tm : TopologyManager)
  (receiveMessage : Node.t -> Message.t -> option string)
  (sendMessage : Node.t -> Node.t -> Message.t -> option string)
  (fuel : nat) (batch : list Task.t) :
  forall r r',
    fold_left (processDeliveryStep mesh tm receiveMessage sendMessage fuel) batch
              (Some r) = Some r' ->
    exists requeued failures count,
      messageQueue r' = messageQueue r
      /\ deliveryQueue r' = deliveryQueue r ++ requeued
      /\ failedMessages r' = failedMessages r ++ failures
      /\ messagesDelivered (routingStats r')
         = messagesDelivered (routingStats r) + count
      /\ messagesFailed (routingStats r')
         = messagesFailed (routingStats r) + List.length failures
      /\ messagesRouted (routingStats r') = messagesRouted (routingStats r)
      /\ forallb isPending requeued = true
      /\ List.length requeued + List.length failures + count <= List.length batch
      /\ (forallb deliversAtOnce batch = true ->
          List.length requeued + List.length failures + count = List.length batch).
Proof.
  induction batch as [|t batch IH]; cbn [fold_left]; intros r r' H.
  - inversion H; subst. exists [], [], 0. rewrite !app_nil_r. simpl.
    repeat split; lia.
  - destruct (processDeliveryStep mesh tm receiveMessage sendMessage fuel (Some r) t)
      as [r1|] eqn:E.
    2:{ rewrite fold_left_none in H by reflexivity. discriminate. }
    destruct (IH r1 r' H) as (a & c & k & Hm & Ha & Hc & Hd & Hf & Hr & Hp & Hle & Heq).
    destruct (processDeliveryStep_cases _ _ _ _ _ _ _ _ E)
      as [[-> Hno] | [-> | [-> | (e & ->)]]]; simpl in *.
    + exists a, c, k. repeat split; auto; try lia.
      rewrite Hno. simpl. discriminate.
    + exists a, c, (S k). repeat split; auto; try lia.
      intros Hall. apply andb_true_iff in Hall as [_ Hall]. specialize (Heq Hall). lia.
    + eexists (_ :: a), c, k. rewrite Ha, <- app_assoc. simpl.
      repeat split; auto; try lia.
      intros Hall. apply andb_true_iff in Hall as [_ Hall]. specialize (Heq Hall). lia.
    + eexists a, (_ :: c), k. rewrite Hc, <- app_assoc. simpl.
      repeat split; auto; try lia.
      intros Hall. apply andb_true_iff in Hall as [_ Hall]. specialize (Heq Hall). lia.
Qed.

(** X3.  A pass of [processDeliveryQueue] that returns leaves the intake
    queue alone, takes the tasks at the head of the delivery queue, three at
    most, and counts, re-enqueues or archives each of them at most once, so
    that what the router holds or has delivered never grows; when each of
    the tasks taken is pending with a path of at most two nodes, each is
    counted as delivered, re-enqueued or archived, and what the router holds
    or has delivered stays the same. *)
Theorem processDeliveryQueue_accounts_for_short_paths
  (mesh : registry) (tm : TopologyManager)
  (receiveMessage : Node.t -> Message.t -> option string)
  (sendMessage : Node.t -> Node.t -> Message.t -> option string)
  (fuel : nat) (r r' : MessageRouter)
  (Hret : processDeliveryQueue mesh tm receiveMessage sendMessage fuel r = Some r') :
  messageQueue r' = messageQueue r
  /\ (exists requeued, deliveryQueue r' = skipn 3 (deliveryQueue r) ++ requeued)
  /\ (exists failures, failedMessages r' = failedMessages r ++ failures)
  /\ accountedFor r' <= accountedFor r
  /\ (forallb deliversAtOnce (firstn 3 (deliveryQueue r)) = true ->
      accountedFor r' = accountedFor r).
Proof.
  unfold processDeliveryQueue in Hret.
  destruct (deliveryQueue r) as [|t0 q] eqn:Hq.
  - inversion Hret; subst. rewrite Hq. split; [reflexivity|].
    split; [exists []; reflexivity|]. split; [exists []; now rewrite app_nil_r|].
    split; [lia | reflexivity].
  - rewrite <- Hq in *.
    destruct (processDelivery_fold_appends _ _ _ _ _ _ _ _ Hret)
      as (a & c & k & Hm & Ha & Hc & Hd & Hf & Hr & Hp & Hle & Heq).
    cbn [messageQueue deliveryQueue failedMessages routingStats] in *.
    pose proof (f_equal (@List.length Task.t) (firstn_skipn 3 (deliveryQueue r)))
      as Hsplit.
    rewrite length_app in Hsplit.
    split; [exact Hm|]. split; [now exists a|]. split; [now exists c|].
    unfold accountedFor. rewrite Hm, Ha, Hc, Hd, !length_app.
    split; [lia|]. intros Hall. specialize (Heq Hall). lia.
Qed.

Lemma processDeliveryQueue_accounts_for_short_paths_witness :
  accountedFor (mkRouter [] [] [] (mkStats 1 1 0) true)
  = accountedFor
      (mkRouter [] [Task.mk (Message.mk "m1" "A" "B" 0 3) [JStr "A"; JStr "B"] 0
                            Pending]
                [] (mkStats 1 0 0) true).
Proof.
  exact (proj2 (proj2 (proj2 (proj2
    (processDeliveryQueue_accounts_for_short_paths
       meshABC lineABC alwaysResolves2 alwaysResolves3 0
       (mkRouter [] [Task.mk (Message.mk "m1" "A" "B" 0 3) [JStr "A"; JStr "B"] 0
                             Pending]
                 [] (mkStats 1 0 0) true)
       (mkRouter [] [] [] (mkStats 1 1 0) true) eq_refl)))) eq_refl).
Defined.

(** X4.  The statistic [messagesFailed] and the length of the failed
    archive, once equal, stay equal through [routeMessage],
    [processMessageQueue] and [processDeliveryQueue], and are equal after
    [clearFailedMessages]; a successful [retryFailedMessage] takes an entry
    out of the archive and leaves the statistic, which from then on exceeds
    the length of the archive. *)
Theorem messagesFailed_follows_the_archive
  (mesh : registry) (tm : TopologyManager)
  (receiveMessage : Node.t -> Message.t -> option string)
  (sendMessage : Node.t -> Node.t -> Message.t -> option string)
  (fuel : nat) (r r' : MessageRouter) (m : Message.t) (i : string)
  (Hsync : failedInSync r) :
  (routeMessage r m = Ok r' -> failedInSync r')
  /\ (processMessageQueue mesh tm fuel r = Some r' -> failedInSync r')
  /\ (processDeliveryQueue mesh tm receiveMessage sendMessage fuel r = Some r' ->
      failedInSync r')
  /\ failedInSync (fst (clearFailedMessages r))
  /\ (retryFailedMessage r i = Ok r' ->
      messagesFailed (routingStats r') = S (List.length (failedMessages r'))).
Proof.
  unfold failedInSync in *. split; [|split; [|split; [|split]]].
  - unfold routeMessage. destruct (negb (isInitialized r)); [discriminate|].
    intros H; inversion H; subst; simpl. exact Hsync.
  - intros H. unfold processMessageQueue in H.
    destruct (messageQueue r) as [|m0 q] eqn:Hq.
    + inversion H; subst. exact Hsync.
    + rewrite <- Hq in *.
      destruct (processMessage_fold_appends _ _ _ _ _ _ H)
        as (a & b & c & _ & _ & Hc & _ & _ & Hf).
      cbn [failedMessages routingStats] in *. rewrite Hf, Hc, length_app. lia.
  - intros H. unfold processDeliveryQueue in H.
    destruct (deliveryQueue r) as [|t0 q] eqn:Hq.
    + inversion H; subst. exact Hsync.
    + rewrite <- Hq in *.
      destruct (processDelivery_fold_appends _ _ _ _ _ _ _ _ H)
        as (a & c & k & _ & _ & Hc & _ & Hf & _).
      cbn [failedMessages routingStats] in *. rewrite Hf, Hc, length_app. lia.
  - reflexivity.
  - unfold retryFailedMessage.
    destruct (findIndex (hasMessageId i) (failedMessages r)) as [k|] eqn:Hk;
      [|discriminate].
    destruct (nth_error (failedMessages r) k) as [f|] eqn:Hn; [|discriminate].
    intros H; inversion H; subst; simpl. rewrite Hsync.
    assert (Hlt : k < List.length (failedMessages r))
      by (apply nth_error_Some; congruence).
    clear - Hlt. revert k Hlt.
    induction (failedMessages r) as [|x l IH]; intros k Hlt; simpl in *; [lia|].
    destruct k; simpl; [reflexivity|]. rewrite <- IH; [reflexivity | lia].
Qed.

Lemma messagesFailed_follows_the_archive_witness :
  failedInSync
    (mkRouter [] []
       [Failure.mk (Message.mk "m1" "A" "Z" 3 3) "Target node not found: Z" None]
       (mkStats 1 0 1) true).
Proof.
  exact (proj1 (proj2
    (messagesFailed_follows_the_archive meshABC lineABC alwaysResolves2
       alwaysResolves3 0
       (mkRouter [Message.mk "m1" "A" "Z" 2 3] [] [] (mkStats 1 0 0) true)
       (mkRouter [] []
          [Failure.mk (Message.mk "m1" "A" "Z" 3 3) "Target node not found: Z" None]
          (mkStats 1 0 1) true)
       (Message.mk "m9" "A" "B" 0 0) "m1" eq_refl)) eq_refl).
Defined.

Lemma findIndex_none {A : Type} (p : A -> bool) (l : list A) :
  filter p l = [] -> findIndex p l = None.
Proof.
  induction l as [|x l IH]; simpl; [reflexivity|].
  destruct (p x); [discriminate|]. intros H. now rewrite IH.
Qed.

Lemma findIndex_splits {A : Type} (p : A -> bool) (l : list A) :
  filter p l <> [] ->
  exists pre x post,
    l = pre ++ x :: post
    /\ forallb (fun y => negb (p y)) pre = true /\ p x = true.
Proof.
  induction l as [|y l IH]; simpl; [congruence|].
  destruct (p y) eqn:Hy.
  - intros _. exists [], y, l. now repeat split.
  - intros H. destruct (IH H) as (pre & x & post & -> & Hpre & Hx).
    exists (y :: pre), x, post. simpl. rewrite Hy. now repeat split.
Qed.

(** X5.  [retryFailedMessage] throws ["Failed message not found: <id>"]
    exactly when no entry of the failed archive carries the identifier, and
    then changes nothing.  Otherwise it returns: one entry for the
    identifier has left the archive and one envelope with it has joined the
    intake queue, so that every identifier is held as often as before; the
    delivery queue and the statistics, [messagesFailed] among them, are as
    they were. *)
Theorem retryFailedMessage_moves_one_entry_or_throws
  (r : MessageRouter) (i : string) :
  (inArchive r i = 0 ->
   retryFailedMessage r i = Throw ("Failed message not found: " ++ i)%string)
  /\ (inArchive r i <> 0 ->
      exists r',
        retryFailedMessage r i = Ok r'
        /\ S (inArchive r' i) = inArchive r i
        /\ inIntake r' i = S (inIntake r i)
        /\ (forall j, whereabouts r' j = whereabouts r j)
        /\ deliveryQueue r' = deliveryQueue r
        /\ routingStats r' = routingStats r).
Proof.
  unfold inArchive. split; intros H.
  - unfold retryFailedMessage. rewrite findIndex_none; [reflexivity|].
    now apply length_zero_iff_nil.
  - destruct (findIndex_splits (hasMessageId i) (failedMessages r))
      as (pre & f & post & Hl & Hpre & Hf).
    { intros E. now rewrite E in H. }
    eexists. split.
    { unfold retryFailedMessage. rewrite Hl.
      rewrite (findIndex_first _ pre post f Hpre Hf).
      rewrite nth_error_middle, removeAt_middle. reflexivity. }
    unfold whereabouts, inIntake, inDelivery, inArchive.
    cbn [messageQueue deliveryQueue failedMessages routingStats].
    rewrite Hl.
    assert (Hcount : forall j,
              List.length (filter (hasMessageId j) (pre ++ f :: post))
              = List.length (filter (hasMessageId j) (pre ++ post))
                + (if hasMessageId j f then 1 else 0)).
    { intros j. rewrite !filter_length_app. cbn [filter].
      destruct (hasMessageId j f); simpl; lia. }
    assert (Hsame : forall j,
              hasId j (withAttempts (Failure.message f) 0) = hasMessageId j f)
      by reflexivity.
    repeat split.
    + rewrite Hcount, Hf. lia.
    + rewrite count_snoc, Hsame, Hf. lia.
    + intros j. rewrite count_snoc, Hsame, Hcount. lia.
Qed.

Lemma retryFailedMessage_moves_one_entry_or_throws_witness :
  retryFailedMessage idleRouter "m1" = Throw "Failed message not found: m1".
Proof.
  exact (proj1 (retryFailedMessage_moves_one_entry_or_throws idleRouter "m1")
               eq_refl).
Defined.

Lemma allPending_app (q tasks : list Task.t) :
  forallb isPending q = true -> forallb isPending tasks = true ->
  forallb isPending (q ++ tasks) = true.
Proof. intros H1 H2. rewrite forallb_app, H1, H2. reflexivity. Qed.

Lemma forallb_skipn {A : Type} (p : A -> bool) (k : nat) (l : list A) :
  forallb p l = true -> forallb p (skipn k l) = true.
Proof.
  revert l. induction k as [|k IH]; intros [|x l]; simpl; auto.
  intros H. apply andb_true_iff in H as [_ H]. now apply IH.
Qed.

Lemma filter_all {A : Type} (p : A -> bool) (l : list A) :
  forallb p l = true -> filter p l = l.
Proof.
  induction l as [|x l IH]; simpl; [reflexivity|].
  intros H. apply andb_true_iff in H as [Hx H]. now rewrite Hx, IH.
Qed.

Lemma filter_excluded {A : Type} (p q : A -> bool) (l : list A) :
  (forall x, p x = true -> q x = false) ->
  forallb p l = true -> filter q l = [].
Proof.
  intros Hpq. induction l as [|x l IH]; simpl; [reflexivity|].
  intros H. apply andb_true_iff in H as [Hx H]. now rewrite (Hpq x Hx), IH.
Qed.

(** X6.  Every task that the router puts into its delivery queue is pending,
    and a task is marked delivered only after it has been taken out: when
    the delivery queue holds pending tasks only, it still does after
    [routeMessage], [processMessageQueue], [processDeliveryQueue],
    [retryFailedMessage] and [clearFailedMessages], and [getQueueStatus]
    reports a [deliveredCount] of 0 and a [pendingCount] equal to the length
    of the queue. *)
Theorem delivery_queue_holds_pending_tasks_only
  (mesh : registry) (tm : TopologyManager)
  (receiveMessage : Node.t -> Message.t -> option string)
  (sendMessage : Node.t -> Node.t -> Message.t -> option string)
  (fuel : nat) (r r' : MessageRouter) (m : Message.t) (i : string)
  (Hpending : allPending r) :
  (routeMessage r m = Ok r' -> allPending r')
  /\ (processMessageQueue mesh tm fuel r = Some r' -> allPending r')
  /\ (processDeliveryQueue mesh tm receiveMessage sendMessage fuel r = Some r' ->
      allPending r')
  /\ (retryFailedMessage r i = Ok r' -> allPending r')
  /\ allPending (fst (clearFailedMessages r))
  /\ deliveredCount (getQueueStatus r) = 0
  /\ pendingCount (getQueueStatus r) = deliveryLength (getQueueStatus r).
Proof.
  unfold allPending in *. repeat split.
  - unfold routeMessage. destruct (negb (isInitialized r)); [discriminate|].
    intros H; inversion H; subst. exact Hpending.
  - intros H. unfold processMessageQueue in H.
    destruct (messageQueue r) as [|m0 q] eqn:Hq.
    + inversion H; subst. exact Hpending.
    + rewrite <- Hq in *.
      destruct (processMessage_fold_appends _ _ _ _ _ _ H)
        as (a & b & c & _ & Hb & _ & _ & Hp & _).
      cbn [deliveryQueue] in Hb. rewrite Hb. now apply allPending_app.
  - intros H. unfold processDeliveryQueue in H.
    destruct (deliveryQueue r) as [|t0 q] eqn:Hq.
    + inversion H; subst. now rewrite Hq.
    + rewrite <- Hq in *.
      destruct (processDelivery_fold_appends _ _ _ _ _ _ _ _ H)
        as (a & c & k & _ & Ha & _ & _ & _ & _ & Hp & _).
      cbn [deliveryQueue] in Ha. rewrite Ha.
      apply allPending_app; [now apply forallb_skipn | exact Hp].
  - unfold retryFailedMessage.
    destruct (findIndex _ _); [|discriminate].
    destruct (nth_error _ _); [|discriminate].
    intros H; inversion H; subst. exact Hpending.
  - exact Hpending.
  - unfold getQueueStatus; cbn [deliveredCount].
    rewrite (filter_excluded isPending isDelivered); [reflexivity | | exact Hpending].
    intros t. unfold isPending, isDelivered. now destruct (Task.status t).
  - unfold getQueueStatus; cbn [pendingCount deliveryLength].
    now rewrite filter_all.
Qed.

Lemma delivery_queue_holds_pending_tasks_only_witness :
  allPending
    (mkRouter [Message.mk "m2" "A" "Z" 1 3]
              [Task.mk (Message.mk "m1" "A" "B" 0 3) [JStr "A"; JStr "B"] 0 Pending]
              [] (mkStats 2 0 0) true).
Proof.
  exact (proj1 (proj2
    (delivery_queue_holds_pending_tasks_only meshABC lineABC alwaysResolves2
       alwaysResolves3 0
       (mkRouter [Message.mk "m1" "A" "B" 0 3; Message.mk "m2" "A" "Z" 0 3]
                 [] [] (mkStats 2 0 0) true)
       (mkRouter [Message.mk "m2" "A" "Z" 1 3]
                 [Task.mk (Message.mk "m1" "A" "B" 0 3) [JStr "A"; JStr "B"] 0
                          Pending]
                 [] (mkStats 2 0 0) true)
       (Message.mk "m9" "A" "B" 0 0) "m1" eq_refl)) eq_refl).
Defined.

(** X7.  After [shutdown] the router refuses new messages and its two
    processing passes find nothing to do; the envelopes that were queued are
    gone without having been archived or counted as failed: an identifier is
    held as often as the archive held it, and the statistics are as they
    were, so that [getRoutingStats] still reports every dropped message as
    routed. *)
Theorem shutdown_drops_what_is_queued
  (mesh : registry) (tm : TopologyManager)
  (receiveMessage : Node.t -> Message.t -> option string)
  (sendMessage : Node.t -> Node.t -> Message.t -> option string)
  (fuel : nat) (r : MessageRouter) (m : Message.t) (i : string) :
  routeMessage (shutdown r) m = Throw "Message router not initialized"
  /\ processMessageQueue mesh tm fuel (shutdown r) = Some (shutdown r)
  /\ processDeliveryQueue mesh tm receiveMessage sendMessage fuel (shutdown r)
     = Some (shutdown r)
  /\ whereabouts (shutdown r) i = inArchive r i
  /\ getRoutingStats (shutdown r)
     = mkReport (routingStats r) 0 0 (List.length (failedMessages r)).
Proof. repeat split. Qed.

Lemma determineRoutingPath_direct
  (mesh : registry) (tm : TopologyManager) (fuel : nat) (m : Message.t) :
  determineRoutingPath mesh tm fuel m
  = if jhas mesh (Message.sourceNode m) && jhas mesh (Message.targetNode m)
    then match getConnection tm (JStr (Message.sourceNode m))
                             (JStr (Message.targetNode m)) with
         | Some _ =>
             Some (Some [JStr (Message.sourceNode m); JStr (Message.targetNode m)])
         | None => None
         end
    else Some None.
Proof.
  unfold determineRoutingPath, jhas, findShortestPath. cbn [jget_val].
  destruct (jget mesh (Message.sourceNode m)) as [s|]; [|reflexivity].
  destruct (jget mesh (Message.targetNode m)) as [t|]; [|reflexivity].
  cbn [negb orb andb].
  destruct (getConnection tm _ _); [reflexivity|].
  rewrite reconstructPath_runs_on; [reflexivity | discriminate].
Qed.

Lemma processMessage_direct
  (mesh : registry) (tm : TopologyManager) (fuel : nat) (r : MessageRouter)
  (m : Message.t) :
  processMessage mesh tm fuel r m
  = if negb (jhas mesh (Message.targetNode m))
    then Some (Throw ("Target node not found: " ++ Message.targetNode m)%string)
    else if negb (jhas mesh (Message.sourceNode m))
    then Some (Throw ("Source node not found: " ++ Message.sourceNode m)%string)
    else match getConnection tm (JStr (Message.sourceNode m))
                             (JStr (Message.targetNode m)) with
         | Some _ =>
             Some (Ok (handedOver r
                         (Task.mk m [JStr (Message.sourceNode m);
                                     JStr (Message.targetNode m)] 0 Pending)))
         | None => None
         end.
Proof.
  unfold processMessage. rewrite determineRoutingPath_direct.
  destruct (jhas mesh (Message.targetNode m)); [|reflexivity].
  destruct (jhas mesh (Message.sourceNode m)); [|reflexivity].
  cbn [negb andb]. now destruct (getConnection tm _ _).
Qed.

(** X8.  [determineRoutingPath] gives [null] when an end of the message is
    not registered and the pair of the two names when a stored connection
    joins them; for two registered ends without such a connection it does
    not come back, since it then waits for [findShortestPath].  So no path
    of more than two names is produced, [findFallbackPath] is not reached,
    the error ["No valid routing path found"] is not thrown, and
    [processMessage] either throws for an unregistered end, or hands a
    pending task over the direct pair to the delivery queue, or does not
    come back. *)
Theorem determineRoutingPath_gives_direct_pairs_only
  (mesh : registry) (tm : TopologyManager) (fuel : nat) (r : MessageRouter)
  (m : Message.t) :
  determineRoutingPath mesh tm fuel m
  = (if jhas mesh (Message.sourceNode m) && jhas mesh (Message.targetNode m)
     then match getConnection tm (JStr (Message.sourceNode m))
                              (JStr (Message.targetNode m)) with
          | Some _ =>
              Some (Some [JStr (Message.sourceNode m);
                          JStr (Message.targetNode m)])
          | None => None
          end
     else Some None)
  /\ processMessage mesh tm fuel r m
     = (if negb (jhas mesh (Message.targetNode m))
        then Some (Throw ("Target node not found: " ++ Message.targetNode m)%string)
        else if negb (jhas mesh (Message.sourceNode m))
        then Some (Throw ("Source node not found: " ++ Message.sourceNode m)%string)
        else match getConnection tm (JStr (Message.sourceNode m))
                                 (JStr (Message.targetNode m)) with
             | Some _ =>
                 Some (Ok (handedOver r
                             (Task.mk m [JStr (Message.sourceNode m);
                                         JStr (Message.targetNode m)] 0 Pending)))
             | None => None
             end).
Proof. split; [apply determineRoutingPath_direct | apply processMessage_direct]. Qed.

Lemma processMessage_fold_waits (mesh : registry) (tm : TopologyManager)
  (fuel : nat) (m : Message.t) (batch : list Message.t) :
  (forall r, processMessage mesh tm fuel r m = None) ->
  In m batch ->
  forall acc, fold_left (processMessageStep mesh tm fuel) batch acc = None.
Proof.
  intros Hm. induction batch as [|x batch IH]; intros Hin acc; [contradiction|].
  cbn [fold_left]. destruct Hin as [-> | Hin].
  - destruct acc as [r|]; cbn [processMessageStep];
      [rewrite Hm|]; now apply fold_left_none.
  - now apply IH.
Qed.

(** X9.  A message between two registered nodes that no stored connection
    joins stops the intake pass: while it is among the five messages at the
    head of the queue, [processMessageQueue] does not come back, whatever
    number of rounds its path search is given. *)
Theorem processMessageQueue_waits_on_an_unconnected_pair
  (mesh : registry) (tm : TopologyManager) (r : MessageRouter) (m : Message.t)
  (Hhead : In m (firstn 5 (messageQueue r)))
  (Hsource : jhas mesh (Message.sourceNode m) = true)
  (Htarget : jhas mesh (Message.targetNode m) = true)
  (Hapart : getConnection tm (JStr (Message.sourceNode m))
                          (JStr (Message.targetNode m)) = None) :
  forall fuel, processMessageQueue mesh tm fuel r = None.
Proof.
  intros fuel. unfold processMessageQueue.
  destruct (messageQueue r) as [|m0 q] eqn:Hq; [destruct Hhead|].
  apply (processMessage_fold_waits mesh tm fuel m); [|exact Hhead].
  intros r0. rewrite processMessage_direct, Hsource, Htarget, Hapart. reflexivity.
Qed.

Lemma processMessageQueue_waits_on_an_unconnected_pair_witness :
  processMessageQueue meshABC lineABC 1000
    (mkRouter [Message.mk "m1" "A" "B" 0 3; Message.mk "m2" "A" "C" 0 3] [] []
              (mkStats 2 0 0) true)
  = None.
Proof.
  apply (processMessageQueue_waits_on_an_unconnected_pair meshABC lineABC
           (mkRouter [Message.mk "m1" "A" "B" 0 3; Message.mk "m2" "A" "C" 0 3]
                     [] [] (mkStats 2 0 0) true)
           (Message.mk "m2" "A" "C" 0 3)).
  - right. left. reflexivity.
  - reflexivity.
  - reflexivity.
  - reflexivity.
Defined.

Lemma processMessage_fold_direct (mesh : registry) (tm : TopologyManager)
  (fuel : nat) (batch : list Message.t) :
  forall r r',
    fold_left (processMessageStep mesh tm fuel) batch (Some r) = Some r' ->
    noForwarding r -> noForwarding r'.
Proof.
  unfold noForwarding.
  induction batch as [|m batch IH]; cbn [fold_left]; intros r r' H Hr.
  - inversion H; subst. exact Hr.
  - destruct (processMessageStep mesh tm fuel (Some r) m) as [r1|] eqn:E.
    2:{ rewrite fold_left_none in H by reflexivity. discriminate. }
    apply (IH r1 r' H). clear IH H.
    unfold processMessageStep in E. rewrite processMessage_direct in E.
    destruct (negb (jhas mesh (Message.targetNode m)));
      [|destruct (negb (jhas mesh (Message.sourceNode m)));
        [|destruct (getConnection tm _ _); [|discriminate]]];
      inversion E; subst; clear E;
      try (unfold handleMessageFailure; destruct (_ <? _); exact Hr).
    cbn [handedOver deliveryQueue]. rewrite forallb_app, Hr. reflexivity.
Qed.

Lemma processDelivery_fold_short
  (mesh : registry) (tm : TopologyManager)
  (receiveMessage : Node.t -> Message.t -> option string)
  (sendMessage : Node.t -> Node.t -> Message.t -> option string)
  (fuel : nat) (batch : list Task.t) :
  forall r r',
    fold_left (processDeliveryStep mesh tm receiveMessage sendMessage fuel) batch
              (Some r) = Some r' ->
    forallb deliversAtOnce batch = true ->
    noForwarding r -> noForwarding r'.
Proof.
  unfold noForwarding.
  induction batch as [|t batch IH]; cbn [fold_left forallb]; intros r r' H Hb Hr.
  - inversion H; subst. exact Hr.
  - apply andb_true_iff in Hb as [Ht Hb].
    destruct (processDeliveryStep mesh tm receiveMessage sendMessage fuel (Some r) t)
      as [r1|] eqn:E.
    2:{ rewrite fold_left_none in H by reflexivity. discriminate. }
    apply (IH r1 r' H Hb). clear IH H.
    destruct (processDeliveryStep_cases _ _ _ _ _ _ _ _ E)
      as [[-> _] | [-> | [-> | (e & ->)]]]; try exact Hr.
    cbn [requeuedDelivery deliveryQueue]. rewrite forallb_app, Hr.
    unfold deliversAtOnce, isPending in *. cbn [forallb Task.status Task.routingPath].
    apply andb_true_iff in Ht as [_ ->]. reflexivity.
Qed.

Lemma firstn_skipn_length {A : Type} (k : nat) (l : list A) :
  List.length (firstn k l) + List.length (skipn k l) = List.length l.
Proof. rewrite <- length_app, firstn_skipn. reflexivity. Qed.

Lemma forallb_firstn {A : Type} (p : A -> bool) (k : nat) (l : list A) :
  forallb p l = true -> forallb p (firstn k l) = true.
Proof.
  revert l. induction k as [|k IH]; intros [|x l]; simpl; auto.
  intros H. apply andb_true_iff in H as [-> H]. now apply IH.
Qed.

Lemma removeAt_length {A : Type} (l : list A) :
  forall k, k < List.length l -> S (List.length (removeAt k l)) = List.length l.
Proof.
  induction l as [|x l IH]; intros k Hk; simpl in *; [lia|].
  destruct k; simpl; [reflexivity|]. rewrite IH; [reflexivity | lia].
Qed.

Lemma runCall_keeps_the_balance
  (mesh : registry) (tm : TopologyManager)
  (receiveMessage : Node.t -> Message.t -> option string)
  (sendMessage : Node.t -> Node.t -> Message.t -> option string)
  (fuel : nat) (r r' : MessageRouter) (call : routerCall) :
  runCall mesh tm receiveMessage sendMessage fuel (Some r) call = Some r' ->
  messagesRouted (routingStats r) = accountedFor r /\ noForwarding r ->
  messagesRouted (routingStats r') = accountedFor r' /\ noForwarding r'.
Proof.
  intros H [Hbal Hshort]. destruct call as [m| | |i]; cbn [runCall] in H.
  - unfold routeMessage in H. destruct (negb (isInitialized r));
      inversion H; subst; clear H; [now split|].
    split; [|exact Hshort]. unfold accountedFor in *; simpl.
    rewrite length_app; simpl. lia.
  - unfold processMessageQueue in H.
    destruct (messageQueue r) as [|m0 q] eqn:Hq.
    + inversion H; subst. now split.
    + rewrite <- Hq in *. split.
      * destruct (processMessage_fold_appends _ _ _ _ _ _ H)
          as (a & b & c & Ha & Hb & Hc & Hlen & _ & _).
        destruct (processMessage_fold_accounts _ _ _ "" _ _ _ H) as (_ & Hd & Hr).
        cbn [messageQueue deliveryQueue failedMessages routingStats] in *.
        pose proof (firstn_skipn_length 5 (messageQueue r)) as Hsplit.
        unfold accountedFor in *. rewrite Ha, Hb, Hc, Hd, Hr, !length_app. lia.
      * apply (processMessage_fold_direct _ _ _ _ _ _ H). exact Hshort.
  - unfold processDeliveryQueue in H.
    destruct (deliveryQueue r) as [|t0 q] eqn:Hq.
    + inversion H; subst. split; [exact Hbal|]. unfold noForwarding.
      now rewrite Hq.
    + rewrite <- Hq in *. unfold noForwarding in Hshort.
      assert (Hbatch : forallb deliversAtOnce (firstn 3 (deliveryQueue r)) = true)
        by now apply forallb_firstn.
      split.
      * destruct (processDelivery_fold_appends _ _ _ _ _ _ _ _ H)
          as (a & c & k & Hm & Ha & Hc & Hd & _ & Hr & _ & _ & Heq).
        specialize (Heq Hbatch).
        cbn [messageQueue deliveryQueue failedMessages routingStats] in *.
        pose proof (firstn_skipn_length 3 (deliveryQueue r)) as Hsplit.
        unfold accountedFor in *. rewrite Hm, Ha, Hc, Hd, Hr, !length_app. lia.
      * apply (processDelivery_fold_short _ _ _ _ _ _ _ _ H Hbatch).
        unfold noForwarding. cbn [deliveryQueue]. now apply forallb_skipn.
  - unfold retryFailedMessage in H.
    destruct (findIndex (hasMessageId i) (failedMessages r)) as [k|];
      [|inversion H; subst; now split].
    destruct (nth_error (failedMessages r) k) as [f|] eqn:Hn;
      inversion H; subst; clear H; [|now split].
    split; [|exact Hshort].
    assert (Hk : k < List.length (failedMessages r))
      by (apply nth_error_Some; congruence).
    pose proof (removeAt_length (failedMessages r) k Hk) as Hrem.
    unfold accountedFor in *; simpl. rewrite length_app; simpl. lia.
Qed.

(** X10.  Over any run of [routeMessage], [processMessageQueue],
    [processDeliveryQueue] and [retryFailedMessage] that returns, started on
    a router whose counter [messagesRouted] equals the number of envelopes
    it holds or has delivered and whose delivery queue holds no task to be
    forwarded, the counter keeps that value: every message routed is in the
    intake queue, in the delivery queue, in the failed archive, or counted
    as delivered; and the delivery queue never comes to hold a task that
    would be forwarded. *)
Theorem every_routed_message_stays_accounted_for
  (mesh : registry) (tm : TopologyManager)
  (receiveMessage : Node.t -> Message.t -> option string)
  (sendMessage : Node.t -> Node.t -> Message.t -> option string)
  (fuel : nat) (calls : list routerCall) (r0 r : MessageRouter)
  (Hbalance : messagesRouted (routingStats r0) = accountedFor r0)
  (Hshort : noForwarding r0)
  (Hrun : fold_left (runCall mesh tm receiveMessage sendMessage fuel) calls
                    (Some r0) = Some r) :
  messagesRouted (routingStats r) = accountedFor r /\ noForwarding r.
Proof.
  revert r0 Hbalance Hshort Hrun.
  induction calls as [|call calls IH]; cbn [fold_left]; intros r0 Hbal Hshort Hrun.
  - inversion Hrun; subst. now split.
  - destruct (runCall mesh tm receiveMessage sendMessage fuel (Some r0) call)
      as [r1|] eqn:E.
    + destruct (runCall_keeps_the_balance _ _ _ _ _ _ _ _ E (conj Hbal Hshort))
        as [H1 H2].
      exact (IH r1 H1 H2 Hrun).
    + rewrite fold_left_none in Hrun by reflexivity. discriminate.
Qed.

Lemma every_routed_message_stays_accounted_for_witness :
  messagesRouted (mkStats 2 1 0)
  = accountedFor (mkRouter [Message.mk "m2" "A" "Z" 1 3] [] [] (mkStats 2 1 0) true)
  /\ noForwarding (mkRouter [Message.mk "m2" "A" "Z" 1 3] [] [] (mkStats 2 1 0) true).
Proof.
  exact (every_routed_message_stays_accounted_for meshABC lineABC alwaysResolves2
           alwaysResolves3 0
           [Route (Message.mk "m1" "A" "B" 7 9); Route (Message.mk "m2" "A" "Z" 0 0);
            ProcessMessages; ProcessDeliveries; Retry "m1"]
           idleRouter
           (mkRouter [Message.mk "m2" "A" "Z" 1 3] [] [] (mkStats 2 1 0) true)
           eq_refl eq_refl eq_refl).
Defined.

(** X11.  On a running router with empty queues, a message between two
    registered nodes that a stored connection joins is delivered by
    [routeMessage], one pass of [processMessageQueue] and one pass of
    [processDeliveryQueue], when the target's [receiveMessage] resolves:
    both queues are empty again, the archive is as it was, and
    [messagesRouted] and [messagesDelivered] have grown by one.  When the
    target's [receiveMessage] rejects the message at every attempt, two more
    passes of [processDeliveryQueue] archive it with the rejection's message
    and the path of the two names, after three attempts, and count one
    failure. *)
Theorem direct_message_is_delivered_or_archived
  (mesh : registry) (tm : TopologyManager)
  (receiveMessage : Node.t -> Message.t -> option string)
  (sendMessage : Node.t -> Node.t -> Message.t -> option string)
  (fuel : nat) (failed : list Failure.t) (st : RoutingStats) (m : Message.t)
  (target : Node.t) (c : Connection.t)
  (Hsource : jhas mesh (Message.sourceNode m) = true)
  (Htarget : jget mesh (Message.targetNode m) = Some target)
  (Hlink : getConnection tm (JStr (Message.sourceNode m))
                         (JStr (Message.targetNode m)) = Some c) :
  let envelope := fun attempts =>
    Message.mk (Message.id m) (Message.sourceNode m) (Message.targetNode m)
               attempts 3 in
  let run := fold_left (runCall mesh tm receiveMessage sendMessage fuel) in
  (receiveMessage target (envelope 0) = None ->
   run [Route m; ProcessMessages; ProcessDeliveries]
       (Some (mkRouter [] [] failed st true))
   = Some (mkRouter [] [] failed
             (mkStats (S (messagesRouted st)) (S (messagesDelivered st))
                      (messagesFailed st)) true))
  /\ (forall e,
        (forall attempts, receiveMessage target (envelope attempts) = Some e) ->
        run [Route m; ProcessMessages; ProcessDeliveries; ProcessDeliveries;
             ProcessDeliveries]
            (Some (mkRouter [] [] failed st true))
        = Some (mkRouter [] []
                  (failed ++ [Failure.mk (envelope 3) e
                                (Some [JStr (Message.sourceNode m);
                                       JStr (Message.targetNode m)])])
                  (mkStats (S (messagesRouted st)) (messagesDelivered st)
                           (S (messagesFailed st))) true)).
Proof.
  intros envelope run.
  assert (Hintake :
    run [Route m; ProcessMessages] (Some (mkRouter [] [] failed st true))
    = Some (mkRouter [] [Task.mk (envelope 0)
                           [JStr (Message.sourceNode m); JStr (Message.targetNode m)]
                           0 Pending]
              failed
              (mkStats (S (messagesRouted st)) (messagesDelivered st)
                       (messagesFailed st)) true)).
  { unfold run. cbn [fold_left runCall routeMessage isInitialized negb orUnchanged
                     messageQueue deliveryQueue failedMessages routingStats app].
    unfold processMessageQueue.
    cbn [messageQueue deliveryQueue failedMessages routingStats isInitialized
         firstn skipn fold_left processMessageStep].
    rewrite processMessage_direct.
    cbn [Message.sourceNode Message.targetNode]. unfold jhas at 1. rewrite Htarget.
    rewrite Hsource, Hlink. reflexivity. }
  assert (Hsplit : forall pre post start,
            run (pre ++ post) start = run post (run pre start))
    by (intros; apply fold_left_app).
  split.
  - intros Hok.
    change [Route m; ProcessMessages; ProcessDeliveries]
      with ([Route m; ProcessMessages] ++ [ProcessDeliveries]).
    rewrite Hsplit, Hintake. unfold run.
    cbn [fold_left runCall]. unfold processDeliveryQueue.
    cbn [deliveryQueue firstn skipn fold_left processDeliveryStep
         processDeliveryTask Task.status Task.message Task.routingPath
         Task.currentHop List.length Nat.leb Nat.add Nat.eqb andb nth
         messageQueue failedMessages routingStats isInitialized].
    unfold deliverMessage. cbn [jget_val]. rewrite Htarget, Hok. reflexivity.
  - intros e Hno.
    change [Route m; ProcessMessages; ProcessDeliveries; ProcessDeliveries;
            ProcessDeliveries]
      with ([Route m; ProcessMessages]
            ++ [ProcessDeliveries; ProcessDeliveries; ProcessDeliveries]).
    rewrite Hsplit, Hintake. unfold run.
    assert (Hstep : forall k q sts,
              processDeliveryQueue mesh tm receiveMessage sendMessage fuel
                (mkRouter [] [Task.mk (envelope k)
                                [JStr (Message.sourceNode m);
                                 JStr (Message.targetNode m)] 0 Pending]
                          q sts true)
              = Some (handleDeliveryFailure
                        (mkRouter [] [] q sts true)
                        (Task.mk (envelope k)
                           [JStr (Message.sourceNode m); JStr (Message.targetNode m)]
                           0 Pending) e)).
    { intros k q sts. unfold processDeliveryQueue.
      cbn [deliveryQueue firstn skipn fold_left processDeliveryStep
           processDeliveryTask Task.status Task.message Task.routingPath
           Task.currentHop List.length Nat.leb Nat.add Nat.eqb andb nth
           messageQueue failedMessages routingStats isInitialized].
      unfold deliverMessage. cbn [jget_val]. rewrite Htarget, Hno. reflexivity. }
    assert (Hfail : forall k q sts,
              handleDeliveryFailure
                (mkRouter [] [] q sts true)
                (Task.mk (envelope k)
                   [JStr (Message.sourceNode m); JStr (Message.targetNode m)]
                   0 Pending) e
              = if k + 1 <? 3
                then mkRouter [] [Task.mk (envelope (k + 1))
                                    [JStr (Message.sourceNode m);
                                     JStr (Message.targetNode m)] 0 Pending]
                              q sts true
                else mkRouter [] []
                       (q ++ [Failure.mk (envelope (k + 1)) e
                                (Some [JStr (Message.sourceNode m);
                                       JStr (Message.targetNode m)])])
                       (countFailure sts) true)
      by reflexivity.
    cbn [fold_left runCall].
    rewrite Hstep, Hfail. change (0 + 1 <? 3) with true. cbv iota.
    cbn [runCall].
    rewrite Hstep, Hfail. change (0 + 1 + 1 <? 3) with true. cbv iota.
    cbn [runCall].
    rewrite Hstep, Hfail. change (0 + 1 + 1 + 1 <? 3) with false. cbv iota.
    reflexivity.
Qed.

Lemma direct_message_is_delivered_or_archived_witness :
  fold_left (runCall meshABC lineABC alwaysResolves2 alwaysResolves3 0)
    [Route (Message.mk "m1" "A" "B" 7 9); ProcessMessages; ProcessDeliveries]
    (Some (mkRouter [] [] [] (mkStats 0 0 0) true))
  = Some (mkRouter [] [] [] (mkStats 1 1 0) true).
Proof.
  exact (proj1 (direct_message_is_delivered_or_archived meshABC lineABC
                  alwaysResolves2 alwaysResolves3 0 [] (mkStats 0 0 0)
                  (Message.mk "m1" "A" "B" 7 9) (sampleNode "B")
                  (Connection.mk "c1" "A" "B") eq_refl eq_refl eq_refl)
               eq_refl).
Defined.

(** ** The breadth-first search of [findFallbackPath] *)

Lemma chained_snoc (tm : TopologyManager) (pre : list string) (n y : string) :
  chained tm (pre ++ [n]) -> directlyLinked tm n y ->
  chained tm ((pre ++ [n]) ++ [y]).
Proof.
  induction pre as [|a pre IH]; intros Hc Hl.
  - simpl. now split.
  - destruct pre as [|b pre].
    + simpl in *. destruct Hc as [Hab _]. repeat split; assumption.
    + change (directlyLinked tm a b /\ chained tm ((b :: pre) ++ [n])) in Hc.
      change (directlyLinked tm a b /\ chained tm (((b :: pre) ++ [n]) ++ [y])).
      destruct Hc as [Hab Hc]. split; [exact Hab | now apply IH].
Qed.

Lemma otherEnd_linked (tm : TopologyManager) (n : string) (c : Connection.t) :
  In c (getNodeConnections tm (JStr n)) ->
  directlyLinked tm n (otherEnd c (JStr n)).
Proof.
  unfold getNodeConnections. rewrite in_map_iff.
  intros ([cid c'] & <- & Hin). apply filter_In in Hin as [Hin Hends].
  exists (cid, c'). split; [exact Hin|]. unfold joined, otherEnd. cbn [snd jsval_eqb] in *.
  destruct (String.eqb_spec (Connection.sourceNode c') n) as [Hs|Hs].
  - left. now split.
  - cbn [orb] in Hends. apply String.eqb_eq in Hends. right. now split.
Qed.

Lemma linked_otherEnd (tm : TopologyManager) (n y : string) :
  directlyLinked tm n y ->
  exists c, In c (getNodeConnections tm (JStr n)) /\ otherEnd c (JStr n) = y.
Proof.
  intros ([cid c] & Hin & Hj). exists c. cbn [snd] in Hj. split.
  - unfold getNodeConnections. apply in_map_iff. exists (cid, c). split; [reflexivity|].
    apply filter_In. split; [exact Hin|]. cbn [snd jsval_eqb].
    destruct Hj as [[<- _] | [_ <-]]; rewrite String.eqb_refl;
      [reflexivity | apply orb_true_r].
  - unfold otherEnd. cbn [jsval_eqb].
    destruct (String.eqb_spec (Connection.sourceNode c) n) as [Hs|Hs];
      destruct Hj as [[H1 H2] | [H1 H2]]; congruence.
Qed.

Lemma enqueue_all (visited : jsset) (n : string) (path : list string)
  (conns : list Connection.t) :
  forall rest,
    fold_left (enqueueNext visited n path) conns rest
    = rest
      ++ map (fun c => (otherEnd c (JStr n), path ++ [otherEnd c (JStr n)]))
             (filter (fun c => negb (shas visited (otherEnd c (JStr n)))) conns).
Proof.
  induction conns as [|c conns IH]; intros rest; cbn [fold_left filter map].
  - now rewrite app_nil_r.
  - rewrite IH. unfold enqueueNext.
    destruct (negb (shas visited (otherEnd c (JStr n)))); cbn [map];
      [now rewrite <- app_assoc | reflexivity].
Qed.

Lemma shas_sadd (s : jsset) (x y : string) :
  shas (sadd s x) y = shas s y || String.eqb y x.
Proof.
  apply eq_true_iff_eq. rewrite orb_true_iff, !shas_In, In_sadd, String.eqb_eq.
  reflexivity.
Qed.

Lemma soundEntry_grows (tm : TopologyManager) (s n : string) (visited : jsset)
  (entry : string * list string) :
  soundEntry tm s visited entry -> soundEntry tm s (sadd visited n) entry.
Proof.
  intros (pre & H1 & H2 & H3 & H4 & H5). exists pre. repeat split; auto.
  intros x Hx. rewrite shas_sadd, (H5 x Hx). reflexivity.
Qed.

Lemma soundEntry_next (tm : TopologyManager) (s n : string) (visited : jsset)
  (path : list string) (c : Connection.t) :
  soundEntry tm s visited (n, path) ->
  In c (getNodeConnections tm (JStr n)) ->
  shas (sadd visited n) (otherEnd c (JStr n)) = false ->
  soundEntry tm s (sadd visited n)
             (otherEnd c (JStr n), path ++ [otherEnd c (JStr n)]).
Proof.
  intros (pre & H1 & H2 & H3 & H4 & H5) Hc Hnew. cbn [fst snd] in *.
  exists path. cbn [fst snd]. split; [reflexivity|].
  assert (Hall : forall x, In x path -> shas (sadd visited n) x = true).
  { intros x Hx. rewrite shas_sadd. rewrite H1 in Hx.
    apply in_app_or in Hx as [Hx | [<- | []]];
      [now rewrite (H5 x Hx) | rewrite String.eqb_refl; apply orb_true_r]. }
  repeat split.
  - rewrite H1 in *. destruct pre; exact H2.
  - rewrite H1 in *. apply chained_snoc; [exact H3 | now apply otherEnd_linked].
  - apply NoDup_app; [exact H4 | constructor; [intros [] | constructor] |].
    intros x Hx [E | []]. rewrite <- E in Hx. rewrite (Hall _ Hx) in Hnew.
    discriminate.
  - exact Hall.
Qed.

Lemma fallbackLoop_sound (tm : TopologyManager) (s t : string) (fuel : nat) :
  forall visited queue path,
    (forall entry, In entry queue -> soundEntry tm s visited entry) ->
    fallbackLoop tm fuel t visited queue = Some (Some path) ->
    exists visited', soundEntry tm s visited' (t, path).
Proof.
  induction fuel as [|fuel IH]; intros visited queue path Hq H; [discriminate|].
  cbn [fallbackLoop] in H. destruct queue as [|[n p] rest]; [discriminate|].
  destruct (String.eqb_spec n t) as [->|Hnt].
  - inversion H; subst. exists visited. apply Hq. now left.
  - destruct (shas visited n) eqn:Hv.
    + apply (IH visited rest path); [|exact H]. intros e He. apply Hq. now right.
    + rewrite enqueue_all in H. refine (IH _ _ _ _ H).
      intros e He. apply in_app_or in He as [He|He].
      * apply soundEntry_grows, Hq. now right.
      * apply in_map_iff in He as (c & <- & Hc).
        apply filter_In in Hc as [Hc Hnew]. apply negb_true_iff in Hnew.
        apply soundEntry_next; [apply Hq; now left | exact Hc | exact Hnew].
Qed.

Lemma last_nonempty {A : Type} (l : list A) :
  forall a d d', last (a :: l) d = last (a :: l) d'.
Proof.
  induction l as [|b l IH]; intros a d d'; [reflexivity|].
  change (last (b :: l) d = last (b :: l) d'). apply IH.
Qed.

Lemma chained_reaches (tm : TopologyManager) (path : list string) :
  forall s, hd_error path = Some s -> chained tm path ->
            reaches tm [] s (last path s).
Proof.
  induction path as [|a path IH]; intros s Hs Hc; [discriminate|].
  inversion Hs; subst. destruct path as [|b path].
  - now constructor.
  - destruct Hc as [Hab Hc]. apply (reaches_step tm [] s b); [reflexivity | exact Hab |].
    change (last (s :: b :: path) s) with (last (b :: path) s).
    rewrite (last_nonempty path b s b). now apply IH.
Qed.

Lemma reaches_chained (tm : TopologyManager) (visited : jsset) (x t : string) :
  reaches tm visited x t ->
  exists path, hd_error path = Some x /\ last path x = t /\ chained tm path.
Proof.
  induction 1 as [x Hx | x y t Hx Hl _ (path & Hh & Hlast & Hc)].
  - exists [x]. now repeat split.
  - exists (x :: path). destruct path as [|b path]; [discriminate|].
    inversion Hh; subst. repeat split.
    + change (last (y :: path) x = last (y :: path) y). apply last_nonempty.
    + exact Hl.
    + exact Hc.
Qed.

Lemma reaches_unvisited (tm : TopologyManager) (visited : jsset) (x t : string) :
  reaches tm visited x t -> shas visited x = false.
Proof. now destruct 1. Qed.

(** Expanding [n] either leaves a way to [t] untouched or cuts it at [n],
    and then one of the names linked to [n] still leads to [t]. *)
Lemma reaches_expand (tm : TopologyManager) (visited : jsset) (n x t : string) :
  reaches tm visited x t -> n <> t ->
  reaches tm (sadd visited n) x t
  \/ exists y, directlyLinked tm n y /\ reaches tm (sadd visited n) y t.
Proof.
  intros H Hnt. induction H as [x Hx | x y t Hx Hl Hy IH].
  - left. constructor. rewrite shas_sadd, Hx. cbn [orb].
    apply String.eqb_neq. congruence.
  - destruct (IH Hnt) as [Hleft | Hright]; [|now right].
    destruct (String.eqb_spec x n) as [->|Hxn].
    + right. now exists y.
    + left. apply (reaches_step tm _ x y); [|exact Hl | exact Hleft].
      rewrite shas_sadd, Hx. cbn [orb]. now apply String.eqb_neq.
Qed.

Lemma list_sum_head (x : nat) (l : list nat) :
  list_sum (x :: l) = x + list_sum l.
Proof. reflexivity. Qed.

Lemma openEnds_sadd (visited : jsset) (n : string) (e : string * Connection.t) :
  shas visited n = false ->
  openEnds (sadd visited n) e
  + (if String.eqb (Connection.sourceNode (snd e)) n
        || String.eqb (Connection.targetNode (snd e)) n then 1 else 0)
  <= openEnds visited e.
Proof.
  intros Hn. unfold openEnds. rewrite !shas_sadd.
  destruct (String.eqb_spec (Connection.sourceNode (snd e)) n) as [->|Hs];
    destruct (String.eqb_spec (Connection.targetNode (snd e)) n) as [->|Ht];
    rewrite ?Hn; cbn [orb];
    repeat match goal with
           | |- context [shas visited ?x] => destruct (shas visited x)
           end; simpl; lia.
Qed.

Lemma unexplored_sadd (tm : TopologyManager) (visited : jsset) (n : string) :
  shas visited n = false ->
  unexplored tm (sadd visited n) + List.length (getNodeConnections tm (JStr n))
  <= unexplored tm visited.
Proof.
  intros Hn. unfold unexplored, getNodeConnections. rewrite length_map.
  induction (connections tm) as [|e l IH]; [simpl; lia|].
  cbn [map filter]. rewrite !list_sum_head.
  pose proof (openEnds_sadd visited n e Hn) as He. cbn [jsval_eqb] in *.
  destruct (_ || _); cbn [List.length]; lia.
Qed.

Lemma fallbackLoop_returns (tm : TopologyManager) (t : string) (fuel : nat) :
  forall visited queue,
    List.length queue + unexplored tm visited < fuel ->
    exists answer, fallbackLoop tm fuel t visited queue = Some answer.
Proof.
  induction fuel as [|fuel IH]; intros visited queue Hfuel; [lia|].
  cbn [fallbackLoop]. destruct queue as [|[n p] rest]; [now exists None|].
  cbn [List.length] in Hfuel.
  destruct (String.eqb n t); [now exists (Some p)|].
  destruct (shas visited n) eqn:Hv.
  - apply IH. lia.
  - apply IH. rewrite enqueue_all, length_app, length_map.
    pose proof (unexplored_sadd tm visited n Hv) as Hw.
    pose proof (filter_length_le
                  (fun c => negb (shas (sadd visited n) (otherEnd c (JStr n))))
                  (getNodeConnections tm (JStr n))) as Hf.
    lia.
Qed.

Lemma fallbackLoop_finds (tm : TopologyManager) (t : string) (fuel : nat) :
  forall visited queue,
    List.length queue + unexplored tm visited < fuel ->
    (exists x p, In (x, p) queue /\ reaches tm visited x t) ->
    exists path, fallbackLoop tm fuel t visited queue = Some (Some path).
Proof.
  induction fuel as [|fuel IH]; intros visited queue Hfuel Hway; [lia|].
  cbn [fallbackLoop]. destruct queue as [|[n p] rest].
  { destruct Hway as (x & q & [] & _). }
  cbn [List.length] in Hfuel.
  destruct (String.eqb_spec n t) as [->|Hnt]; [now exists p|].
  destruct Hway as (x & q & Hin & Hreach).
  pose proof (reaches_unvisited _ _ _ _ Hreach) as Hx.
  destruct (shas visited n) eqn:Hv.
  - apply IH; [lia|]. exists x, q. split; [|exact Hreach].
    destruct Hin as [E|Hin]; [inversion E; subst; congruence | exact Hin].
  - apply IH.
    + rewrite enqueue_all, length_app, length_map.
      pose proof (unexplored_sadd tm visited n Hv) as Hw.
      pose proof (filter_length_le
                    (fun c => negb (shas (sadd visited n) (otherEnd c (JStr n))))
                    (getNodeConnections tm (JStr n))) as Hf.
      lia.
    + rewrite enqueue_all.
      destruct (reaches_expand tm visited n x t Hreach Hnt) as [Hkept | (y & Hl & Hy)].
      * exists x, q. split; [|exact Hkept]. apply in_or_app. left.
        destruct Hin as [E|Hin]; [|exact Hin]. inversion E; subst.
        apply reaches_unvisited in Hkept. rewrite shas_sadd, String.eqb_refl in Hkept.
        now rewrite orb_true_r in Hkept.
      * destruct (linked_otherEnd tm n y Hl) as (c & Hc & Hend).
        exists y, (p ++ [y]). split; [|exact Hy]. apply in_or_app. right.
        apply in_map_iff. exists c. rewrite Hend. split; [reflexivity|].
        apply filter_In. split; [exact Hc|]. rewrite Hend.
        now rewrite (reaches_unvisited _ _ _ _ Hy).
Qed.

Lemma unexplored_start (tm : TopologyManager) :
  unexplored tm [] = 2 * List.length (connections tm).
Proof.
  unfold unexplored. induction (connections tm) as [|e l IH]; [reflexivity|].
  cbn [map List.length]. rewrite list_sum_head, IH. unfold openEnds. simpl. lia.
Qed.

Lemma soundEntry_start (tm : TopologyManager) (s : string) :
  soundEntry tm s [] (s, [s]).
Proof.
  exists []. cbn [fst snd app]. split; [reflexivity|]. split; [reflexivity|].
  split; [exact I|]. split; [|intros x []].
  constructor; [intros [] | constructor].
Qed.

(** X12.  A path that [findFallbackPath] returns starts with the source
    name, ends with the target name, joins each of its names to the next by
    a stored connection, and holds no name twice. *)
Theorem findFallbackPath_returns_a_simple_chain
  (tm : TopologyManager) (fuel : nat) (s t : string) (path : list string)
  (Hret : findFallbackPath tm fuel s t = Some (Some path)) :
  hd_error path = Some s /\ last path s = t /\ chained tm path /\ NoDup path.
Proof.
  unfold findFallbackPath in Hret.
  destruct (fallbackLoop_sound tm s t fuel [] [(s, [s])] path) as (v & pre & H);
    [|exact Hret|].
  - intros e [<- | []]. apply soundEntry_start.
  - cbn [fst snd] in H. destruct H as (H1 & H2 & H3 & H4 & _).
    repeat split; try assumption. rewrite H1. apply last_last.
Qed.

Lemma findFallbackPath_returns_a_simple_chain_witness :
  hd_error ["A"; "B"; "C"; "D"] = Some "A"
  /\ last ["A"; "B"; "C"; "D"] "A" = "D"
  /\ chained lineNamed ["A"; "B"; "C"; "D"]
  /\ NoDup ["A"; "B"; "C"; "D"].
Proof.
  exact (findFallbackPath_returns_a_simple_chain lineNamed 10 "A" "D"
           ["A"; "B"; "C"; "D"] eq_refl).
Defined.

(** X13.  [findFallbackPath] always returns: two rounds of its loop for
    every stored connection, and two more, are enough.  It returns a path
    when stored connections lead from the source name to the target name,
    and [null] when they do not. *)
Theorem findFallbackPath_decides_reachability
  (tm : TopologyManager) (fuel : nat) (s t : string)
  (Hfuel : 2 * List.length (connections tm) + 2 <= fuel) :
  (connectedBy tm s t ->
   exists path, findFallbackPath tm fuel s t = Some (Some path))
  /\ (~ connectedBy tm s t -> findFallbackPath tm fuel s t = Some None).
Proof.
  assert (Hbound : List.length [(s, [s])] + unexplored tm [] < fuel)
    by (rewrite unexplored_start; simpl; lia).
  split.
  - intros (path & Hh & Hl & Hc). apply fallbackLoop_finds; [exact Hbound|].
    exists s, [s]. split; [now left|]. rewrite <- Hl. now apply chained_reaches.
  - intros Hno. destruct (fallbackLoop_returns tm t fuel [] [(s, [s])] Hbound)
      as ([path|] & Hret); [|exact Hret].
    exfalso. apply Hno.
    destruct (fallbackLoop_sound tm s t fuel [] [(s, [s])] path) as (v & pre & H);
      [|exact Hret|].
    + intros e [<- | []]. apply soundEntry_start.
    + cbn [fst snd] in H. destruct H as (H1 & H2 & H3 & _).
      exists path. repeat split; try assumption. rewrite H1. apply last_last.
Qed.

Lemma findFallbackPath_decides_reachability_witness :
  (connectedBy lineNamed "A" "D" ->
   exists path, findFallbackPath lineNamed 8 "A" "D" = Some (Some path))
  /\ (~ connectedBy lineNamed "A" "D" ->
      findFallbackPath lineNamed 8 "A" "D" = Some None).
Proof.
  apply (findFallbackPath_decides_reachability lineNamed 8 "A" "D").
  vm_compute. lia.
Defined.

(** ** Further properties of the topology manager *)

Lemma joins_sym (a b : jsval) (e : string * Connection.t) :
  joins a b e = joins b a e.
Proof. unfold joins. apply orb_comm. Qed.

Lemma find_none_iff {A : Type} (p : A -> bool) (l : list A) :
  find p l = None <-> forall x, In x l -> p x = false.
Proof.
  split; [apply find_none|]. induction l as [|x l IH]; intros H; [reflexivity|].
  simpl. rewrite (H x (or_introl eq_refl)). apply IH. intros y Hy. apply H. now right.
Qed.

Lemma find_same {A : Type} (p q : A -> bool) (l : list A) :
  (forall x, p x = q x) -> find p l = find q l.
Proof.
  intros H. induction l as [|x l IH]; simpl; [reflexivity|]. now rewrite H, IH.
Qed.

(** X14.  [getConnection] does not depend on the order of its two names.  A
    connection it returns joins the two names and is among the connections
    that [getNodeConnections] lists for either of them; it returns [null]
    exactly when [getNodeConnections] lists, for the first name, no
    connection whose other end is the second. *)
Theorem getConnection_is_unordered_and_agrees_with_getNodeConnections
  (tm : TopologyManager) (a b : string) :
  getConnection tm (JStr a) (JStr b) = getConnection tm (JStr b) (JStr a)
  /\ (forall c, getConnection tm (JStr a) (JStr b) = Some c ->
                joined c a b
                /\ In c (getNodeConnections tm (JStr a))
                /\ In c (getNodeConnections tm (JStr b)))
  /\ (getConnection tm (JStr a) (JStr b) = None
      <-> forall c, In c (getNodeConnections tm (JStr a)) ->
                    otherEnd c (JStr a) <> b).
Proof.
  split; [|split].
  - unfold getConnection. f_equal. apply find_same. intros e. apply joins_sym.
  - intros c H. unfold getConnection in H.
    destruct (find (joins (JStr a) (JStr b)) (connections tm)) as [[cid c']|] eqn:E;
      [|discriminate].
    inversion H; subst. apply find_some in E as [Hin Hj].
    apply joins_joined in Hj. cbn [snd] in Hj. split; [exact Hj|].
    unfold getNodeConnections.
    split; apply in_map_iff; exists (cid, c); (split; [reflexivity|]);
      apply filter_In; (split; [exact Hin|]); cbn [snd jsval_eqb];
      destruct Hj as [[<- <-] | [<- <-]]; rewrite String.eqb_refl;
      auto using orb_true_r.
  - unfold getConnection. split.
    + intros H c Hc Hend.
      destruct (find (joins (JStr a) (JStr b)) (connections tm)) eqn:E;
        [discriminate|].
      destruct (otherEnd_linked tm a c Hc) as ([cid c'] & Hin & Hj).
      rewrite Hend in Hj. apply joins_joined in Hj.
      rewrite (proj1 (find_none_iff _ _) E _ Hin) in Hj. discriminate.
    + intros H.
      destruct (find (joins (JStr a) (JStr b)) (connections tm)) as [[cid c]|] eqn:E;
        [|reflexivity].
      exfalso. apply find_some in E as [Hin Hj]. apply joins_joined in Hj.
      destruct (linked_otherEnd tm a b) as (c' & Hc' & Hend);
        [now exists (cid, c) | exact (H c' Hc' Hend)].
Qed.

Lemma getConnection_is_unordered_and_agrees_with_getNodeConnections_witness :
  joined (Connection.mk "c1" "A" "B") "A" "B"
  /\ In (Connection.mk "c1" "A" "B") (getNodeConnections lineABC (JStr "A"))
  /\ In (Connection.mk "c1" "A" "B") (getNodeConnections lineABC (JStr "B")).
Proof.
  exact (proj1 (proj2
           (getConnection_is_unordered_and_agrees_with_getNodeConnections
              lineABC "A" "B"))
           (Connection.mk "c1" "A" "B") eq_refl).
Defined.

Lemma same_key_same_entry {V : Type} (m : jmap V) (e e' : string * V) :
  NoDup (jkeys m) -> In e m -> In e' m -> fst e = fst e' -> e = e'.
Proof.
  unfold jkeys. induction m as [|x m IH]; intros Hnd He He' Hk; [contradiction|].
  cbn [map] in Hnd. inversion Hnd as [|? ? Hx Hnd']; subst.
  destruct He as [->|He], He' as [->|He'].
  - reflexivity.
  - exfalso. apply Hx. rewrite Hk. now apply in_map.
  - exfalso. apply Hx. rewrite <- Hk. now apply in_map.
  - now apply IH.
Qed.

(** X15.  After [removeNode] the topology manager holds no node and no
    adjacency entry under the node's name, and no connection with that name
    at an end: [getNodeConnections] lists nothing for it and [getConnection]
    finds nothing between it and any name.  Every connection left was
    stored before; the other nodes are untouched; and when connection
    identifiers are unique, the connections left are exactly those that do
    not involve the name, in their order. *)
Theorem removeNode_removes_the_node_and_its_connections
  (tm : TopologyManager) (node : Node.t) :
  jhas (nodes (removeNode tm node)) (Node.name node) = false
  /\ jhas (topologyGraph (removeNode tm node)) (Node.name node) = false
  /\ getNodeConnections (removeNode tm node) (JStr (Node.name node)) = []
  /\ (forall b, getConnection (removeNode tm node) (JStr (Node.name node)) (JStr b)
                = None)
  /\ (forall e, In e (connections (removeNode tm node)) ->
                In e (connections tm) /\ involves (Node.name node) e = false)
  /\ (forall k, k <> Node.name node ->
                jget (nodes (removeNode tm node)) k = jget (nodes tm) k)
  /\ (NoDup (jkeys (connections tm)) ->
      connections (removeNode tm node)
      = filter (fun e => negb (involves (Node.name node) e)) (connections tm)).
Proof.
  pose proof (no_involvement_after_removals tm (Node.name node)) as Hnone.
  assert (Hkept : forall e, In e (connections (removeNode tm node)) ->
                            In e (connections tm)
                            /\ involves (Node.name node) e = false).
  { intros e He. cbn [removeNode connections] in He. split.
    - rewrite connections_after_removals in He. now apply filter_In in He.
    - destruct (involves (Node.name node) e) eqn:Hinv; [|reflexivity].
      assert (Hin : In e (filter (involves (Node.name node))
                            (connections
                               (fold_left removeConnection
                                  (map fst (filter (involves (Node.name node))
                                                   (connections tm))) tm))))
        by (apply filter_In; now split).
      rewrite Hnone in Hin. destruct Hin. }
  split; [|split; [|split; [|split; [|split; [|split]]]]].
  - cbn [removeNode nodes]. rewrite jhas_jdelete, String.eqb_refl. apply andb_false_r.
  - cbn [removeNode topologyGraph]. rewrite jhas_jdelete, String.eqb_refl.
    apply andb_false_r.
  - unfold getNodeConnections.
    rewrite (filter_ext _ (involves (Node.name node)))
      by (intros e; reflexivity).
    cbn [removeNode connections]. now rewrite Hnone.
  - intros b. unfold getConnection.
    rewrite (proj2 (find_none_iff _ _)); [reflexivity|].
    intros [cid c] He. destruct (Hkept _ He) as [_ Hinv].
    destruct (joins (JStr (Node.name node)) (JStr b) (cid, c)) eqn:Hj; [|reflexivity].
    apply joins_joined in Hj. cbn [snd] in Hj.
    destruct (involves_joined c cid _ _ Hj) as [Hinv' _]. congruence.
  - exact Hkept.
  - intros k Hk. cbn [removeNode nodes].
    now rewrite jget_jdelete_other, nodes_after_removals.
  - intros Hnd. cbn [removeNode connections]. rewrite connections_after_removals.
    apply filter_ext_in. intros e He. f_equal.
    apply eq_true_iff_eq. rewrite existsb_exists. split.
    + intros (k & Hk & Hek). apply String.eqb_eq in Hek.
      apply in_map_iff in Hk as (e' & <- & He').
      apply filter_In in He' as [He' Hinv].
      now rewrite (same_key_same_entry _ e e' Hnd He He' Hek).
    + intros Hinv. exists (fst e). split; [|apply String.eqb_refl].
      apply in_map, filter_In. now split.
Qed.

Lemma removeNode_removes_the_node_and_its_connections_witness :
  connections (removeNode lineABC (sampleNode "A"))
  = filter (fun e => negb (involves (Node.name (sampleNode "A")) e))
           (connections lineABC).
Proof.
  apply (removeNode_removes_the_node_and_its_connections lineABC (sampleNode "A")).
  vm_compute. repeat constructor; simpl; intuition discriminate.
Defined.

(** X16.  [isNetworkFullyConnected] never answers [true] for a topology of
    two or more nodes: it asks [findShortestPath] for a path from the first
    node name to the second, which answers [null] when one of the two is
    not registered, and otherwise does not come back. *)
Theorem isNetworkFullyConnected_is_not_true_of_two_nodes
  (fuel : nat) (mesh : registry) (tm : TopologyManager) (k0 k1 : string)
  (n0 n1 : Node.t) (others : jmap Node.t)
  (Hnodes : nodes tm = (k0, n0) :: (k1, n1) :: others)
  (Hdistinct : k0 <> k1) :
  isNetworkFullyConnected fuel mesh tm
  = if jhas mesh k0 && jhas mesh k1 then None else Some false.
Proof.
  unfold isNetworkFullyConnected. rewrite Hnodes.
  cbn [List.length Nat.leb jkeys map fst connectedLoop].
  rewrite String.eqb_refl. apply String.eqb_neq in Hdistinct.
  rewrite String.eqb_sym, Hdistinct.
  unfold findShortestPath, jhas. cbn [jget_val].
  destruct (jget mesh k0); [|reflexivity].
  destruct (jget mesh k1); [|reflexivity].
  rewrite reconstructPath_runs_on; [reflexivity | discriminate].
Qed.

Lemma isNetworkFullyConnected_is_not_true_of_two_nodes_witness :
  isNetworkFullyConnected 1000 meshABC triangleABC = None.
Proof.
  exact (isNetworkFullyConnected_is_not_true_of_two_nodes 1000 meshABC triangleABC
           "A" "B" (sampleNode "A") (sampleNode "B") [("C", sampleNode "C")]
           eq_refl ltac:(discriminate)).
Defined.

Lemma hget_hset (h : histogram) (k v k' : nat) :
  hget (hset h k v) k' = if k =? k' then Some v else hget h k'.
Proof.
  induction h as [|[k0 v0] h IH]; cbn [hset hget].
  - reflexivity.
  - destruct (Nat.eqb_spec k0 k) as [->|Hk]; cbn [hget].
    + now destruct (k =? k').
    + rewrite IH. destruct (Nat.eqb_spec k0 k') as [->|Hk'];
        [|reflexivity].
      destruct (Nat.eqb_spec k k'); [congruence | reflexivity].
Qed.

Lemma analysis_fold (l : list (string * jsset)) :
  forall a,
    (forall k c, hget (connectivityDistribution a) k = Some c -> 0 < c) ->
    let a' := fold_left analysisStep l a in
    (forall k,
        hcount (connectivityDistribution a') k
        = hcount (connectivityDistribution a) k
          + List.length (filter (fun e => List.length (snd e) =? k) l))
    /\ (forall k c, hget (connectivityDistribution a') k = Some c -> 0 < c)
    /\ isolatedNodes a'
       = isolatedNodes a
         + List.length (filter (fun e => List.length (snd e) =? 0) l)
    /\ highlyConnectedNodes a'
       = highlyConnectedNodes a
         + List.length (filter (fun e => 5 <=? List.length (snd e)) l)
    /\ analysisTotalNodes a' = analysisTotalNodes a
    /\ analysisTotalConnections a' = analysisTotalConnections a.
Proof.
  induction l as [|e l IH]; intros a Hpos; cbn [fold_left filter].
  - repeat split; auto.
  - destruct (IH (analysisStep a e)) as (H1 & H2 & H3 & H4 & H5 & H6).
    { intros k c. cbn [analysisStep connectivityDistribution]. rewrite hget_hset.
      destruct (_ =? k); [intros H; inversion H; lia | apply Hpos]. }
    split; [|split; [exact H2 | split; [|split; [|split; assumption]]]].
    + intros k. rewrite H1. unfold hcount at 1 2.
      cbn [analysisStep connectivityDistribution]. rewrite hget_hset.
      cbv beta. unfold jsset in *.
      destruct (Nat.eqb_spec (List.length (snd e)) k) as [<-|Hk];
        cbn [List.length]; unfold hcount; lia.
    + rewrite H3. cbn [analysisStep isolatedNodes]. cbv beta. unfold jsset in *.
      destruct (List.length (snd e) =? 0); cbn [List.length]; lia.
    + rewrite H4. cbn [analysisStep highlyConnectedNodes]. cbv beta.
      unfold jsset in *.
      destruct (Nat.eqb_spec (List.length (snd e)) 0) as [E|E].
      * rewrite E. cbn [Nat.leb]. lia.
      * destruct (5 <=? List.length (snd e)); cbn [List.length]; lia.
Qed.

(** X17.  [getConnectivityAnalysis] counts the entries of the adjacency map
    by the size of their neighbour sets: [connectivityDistribution] holds
    under each degree the number of nodes of that degree and holds no key
    for a degree that no node has; [isolatedNodes] is the number of nodes
    of degree 0 and [highlyConnectedNodes] the number of nodes of degree 5
    or more; [totalNodes] and [totalConnections] are the sizes of the two
    maps. *)
Theorem getConnectivityAnalysis_counts_nodes_by_degree (tm : TopologyManager) :
  (forall k,
      hget (connectivityDistribution (getConnectivityAnalysis tm)) k
      = if nodesOfDegree tm k =? 0 then None else Some (nodesOfDegree tm k))
  /\ isolatedNodes (getConnectivityAnalysis tm) = nodesOfDegree tm 0
  /\ highlyConnectedNodes (getConnectivityAnalysis tm)
     = List.length (filter (fun e => 5 <=? List.length (snd e)) (topologyGraph tm))
  /\ analysisTotalNodes (getConnectivityAnalysis tm) = List.length (nodes tm)
  /\ analysisTotalConnections (getConnectivityAnalysis tm)
     = List.length (connections tm).
Proof.
  unfold getConnectivityAnalysis, nodesOfDegree.
  destruct (analysis_fold (topologyGraph tm)
              (mkAnalysis (List.length (nodes tm)) (List.length (connections tm))
                          0 0 []))
    as (H1 & H2 & H3 & H4 & H5 & H6); [discriminate|].
  cbv zeta in *. repeat split; try assumption.
  intros k. specialize (H1 k). specialize (H2 k). unfold hcount in H1.
  cbn [connectivityDistribution hget Nat.add] in H1. unfold jsset in *.
  destruct (hget _ k) as [c|].
  - specialize (H2 c eq_refl). rewrite <- H1.
    destruct (Nat.eqb_spec c 0); [lia | reflexivity].
  - now rewrite <- H1.
Qed.

(** X18.  [addNode] for a name that already has neighbours replaces the
    neighbour set of that name by an empty one and leaves everything else:
    the connections stay stored, the neighbours keep the name in their own
    sets, and the adjacency map is no longer symmetric. *)
Theorem addNode_again_forgets_the_neighbours_of_the_node
  (tm : TopologyManager) (node : Node.t) (b : string)
  (Hother : b <> Node.name node)
  (Hneighbour : adjacent tm b (Node.name node)) :
  neighbors (addNode tm node) (Node.name node) = []
  /\ (forall a, a <> Node.name node ->
                neighbors (addNode tm node) a = neighbors tm a)
  /\ connections (addNode tm node) = connections tm
  /\ (forall a c, getConnection (addNode tm node) a c = getConnection tm a c)
  /\ ~ symmetricGraph (addNode tm node).
Proof.
  assert (Hself : neighbors (addNode tm node) (Node.name node) = []).
  { unfold neighbors, neighborsIn. cbn [addNode topologyGraph].
    now rewrite jget_jset_same. }
  assert (Hrest : forall a, a <> Node.name node ->
                            neighbors (addNode tm node) a = neighbors tm a).
  { intros a Ha. unfold neighbors, neighborsIn. cbn [addNode topologyGraph].
    now rewrite jget_jset_other. }
  repeat split; try assumption.
  intros Hsym. unfold symmetricGraph, adjacent in *.
  specialize (Hsym b (Node.name node)). rewrite Hself, (Hrest b Hother) in Hsym.
  exact (Hsym Hneighbour).
Qed.

Lemma addNode_again_forgets_the_neighbours_of_the_node_witness :
  neighbors (addNode lineABC (sampleNode "A")) "A" = []
  /\ In "A" (neighbors (addNode lineABC (sampleNode "A")) "B")
  /\ ~ symmetricGraph (addNode lineABC (sampleNode "A")).
Proof.
  pose proof (addNode_again_forgets_the_neighbours_of_the_node lineABC
                (sampleNode "A") "B" ltac:(discriminate) (or_introl eq_refl))
    as (Hself & _ & _ & _ & Hasym).
  split; [exact Hself|]. split; [left; reflexivity | exact Hasym].
Defined.

(** ** Further properties of the discovery protocol *)

Lemma insertSorted_perm {A : Type} (after : A -> A -> bool) (x : A) (l : list A) :
  Permutation (insertSorted after x l) (x :: l).
Proof.
  induction l as [|y l IH]; cbn [insertSorted]; [apply Permutation_refl|].
  destruct (after x y); [|apply Permutation_refl].
  apply Permutation_trans with (y :: x :: l);
    [now apply perm_skip | apply perm_swap].
Qed.

Lemma sortWith_perm {A : Type} (after : A -> A -> bool) (l : list A) :
  Permutation (sortWith after l) l.
Proof.
  unfold sortWith. induction l as [|x l IH]; cbn [fold_right];
    [apply Permutation_refl|].
  apply Permutation_trans with (x :: fold_right (insertSorted after) [] l);
    [apply insertSorted_perm | now apply perm_skip].
Qed.

Lemma insertSorted_sorted {A : Type} (after : A -> A -> bool) (R : A -> A -> Prop)
  (x : A) (l : list A) :
  (forall a b, after a b = false -> R a b) ->
  (forall a b, after a b = true -> R b a) ->
  (forall a b c, R a b -> R b c -> R a c) ->
  StronglySorted R l -> StronglySorted R (insertSorted after x l).
Proof.
  intros Hno Hyes Htrans. induction l as [|y l IH]; intros Hs; cbn [insertSorted].
  - repeat constructor.
  - inversion Hs as [|? ? Hl Hy]; subst. destruct (after x y) eqn:E.
    + constructor; [now apply IH|].
      apply (Permutation_Forall (Permutation_sym (insertSorted_perm after x l))).
      constructor; [now apply Hyes | exact Hy].
    + constructor; [exact Hs|]. constructor; [now apply Hno|].
      apply Forall_forall. intros z Hz.
      apply (Htrans x y z); [now apply Hno|].
      exact (proj1 (Forall_forall _ _) Hy z Hz).
Qed.

Lemma sortWith_sorted {A : Type} (after : A -> A -> bool) (R : A -> A -> Prop)
  (l : list A) :
  (forall a b, after a b = false -> R a b) ->
  (forall a b, after a b = true -> R b a) ->
  (forall a b c, R a b -> R b c -> R a c) ->
  StronglySorted R (sortWith after l).
Proof.
  intros Hno Hyes Htrans. unfold sortWith.
  induction l as [|x l IH]; cbn [fold_right]; [constructor|].
  now apply (insertSorted_sorted after R).
Qed.

Lemma lessRelevant_sorts (l : list NodeInfo.t) :
  StronglySorted ranksAtLeast (sortWith lessRelevant l).
Proof.
  apply sortWith_sorted; unfold lessRelevant, Qgtb, ranksAtLeast.
  - intros a b H. apply negb_false_iff in H. now apply Qle_bool_iff.
  - intros a b H. apply negb_true_iff in H.
    destruct (Qlt_le_dec (NodeInfo.relevance a) (NodeInfo.relevance b)) as [Hlt|Hle].
    + now apply Qlt_le_weak.
    + apply Qle_bool_iff in Hle. congruence.
  - intros a b c Hab Hbc. now apply Qle_trans with (NodeInfo.relevance b).
Qed.

Lemma effectiveLimit_positive (limit : option nat) : 0 < effectiveLimit limit.
Proof. destruct limit as [[|l]|]; simpl; lia. Qed.

Lemma collectMatches_takes_the_first
  (connectionsOf : Node.t -> nat) (relevanceOf : Node.t -> Q)
  (limit : nat) (query : Query.t) (allNodes : list Node.t) :
  forall results,
    List.length results < limit ->
    collectMatches connectionsOf relevanceOf limit query allNodes results
    = results
      ++ map (createNodeInfo connectionsOf relevanceOf)
             (firstn (limit - List.length results)
                     (filter (fun node => nodeMatchesQuery node query) allNodes)).
Proof.
  induction allNodes as [|node rest IH]; intros results Hlen;
    cbn [collectMatches filter].
  - now rewrite firstn_nil, app_nil_r.
  - destruct (nodeMatchesQuery node query); [|now apply IH].
    rewrite length_app. cbn [List.length].
    destruct (Nat.leb_spec limit (List.length results + 1)) as [Hfull|Hroom].
    + replace (limit - List.length results) with 1 by lia.
      cbn [firstn map]. reflexivity.
    + rewrite IH by (rewrite length_app; cbn [List.length]; lia).
      rewrite length_app. cbn [List.length].
      replace (limit - List.length results)
        with (S (limit - (List.length results + 1))) by lia.
      cbn [firstn map]. now rewrite <- app_assoc.
Qed.

(** X19.  [performNodeSearch] returns the node infos of the first matching
    nodes of the registry, as many as the limit allows (50 when no limit or
    a limit of 0 is given), ordered by descending relevance: the limit cuts
    the matches in registry order before they are ranked, so a match beyond
    the limit is not returned however relevant it is. *)
Theorem performNodeSearch_ranks_the_first_matches
  (connectionsOf : Node.t -> nat) (relevanceOf : Node.t -> Q)
  (mesh : registry) (query : Query.t) (limit : option nat) :
  Permutation
    (performNodeSearch connectionsOf relevanceOf mesh query limit)
    (map (createNodeInfo connectionsOf relevanceOf)
         (firstn (effectiveLimit limit) (matchingNodes mesh query)))
  /\ StronglySorted ranksAtLeast
       (performNodeSearch connectionsOf relevanceOf mesh query limit)
  /\ List.length (performNodeSearch connectionsOf relevanceOf mesh query limit)
     = Nat.min (effectiveLimit limit) (List.length (matchingNodes mesh query)).
Proof.
  assert (Hperm : Permutation
            (performNodeSearch connectionsOf relevanceOf mesh query limit)
            (map (createNodeInfo connectionsOf relevanceOf)
                 (firstn (effectiveLimit limit) (matchingNodes mesh query)))).
  { unfold performNodeSearch, matchingNodes.
    rewrite collectMatches_takes_the_first by apply effectiveLimit_positive.
    cbn [List.length app]. rewrite Nat.sub_0_r. apply sortWith_perm. }
  split; [exact Hperm|]. split.
  - unfold performNodeSearch. apply lessRelevant_sorts.
  - rewrite (Permutation_length Hperm), length_map. apply length_firstn.
Qed.

Lemma In_firstn {A : Type} (k : nat) (l : list A) (x : A) :
  In x (firstn k l) -> In x l.
Proof.
  revert l. induction k as [|k IH]; intros [|y l]; cbn [firstn]; try contradiction.
  intros [->|H]; [now left | right; now apply IH].
Qed.

Lemma firstn_sorted {A : Type} (R : A -> A -> Prop) (k : nat) (l : list A) :
  StronglySorted R l -> StronglySorted R (firstn k l).
Proof.
  revert l. induction k as [|k IH]; intros l Hs; [constructor|].
  destruct l as [|x l]; [constructor|]. cbn [firstn].
  inversion Hs as [|? ? Hl Hx]; subst. constructor; [now apply IH|].
  apply Forall_forall. intros y Hy.
  apply (proj1 (Forall_forall _ _) Hx). revert Hy. apply In_firstn.
Qed.

Lemma filterResults_fused (localeCompare : string -> string -> Z)
  (results : list NodeInfo.t) (options : Options.t) :
  filterResults localeCompare results options
  = cutAt (Options.limit options)
      (match truthy (Options.sortBy options) with
       | Some sortBy =>
           sortWith (sortedAfter localeCompare sortBy)
                    (filter (keptByOptions options) results)
       | None => filter (keptByOptions options) results
       end).
Proof.
  unfold filterResults, cutAt.
  assert (Hfused :
    match truthyNat (Options.maxConnections options) with
    | Some m =>
        filter (fun info => NodeInfo.connections info <=? m)
          match truthyNat (Options.minConnections options) with
          | Some m0 =>
              filter (fun info => m0 <=? NodeInfo.connections info)
                match Options.excludeTypes options with
                | Some types =>
                    filter (fun info =>
                              negb (existsb (String.eqb (NodeInfo.type info)) types))
                           results
                | None => results
                end
          | None =>
              match Options.excludeTypes options with
              | Some types =>
                  filter (fun info =>
                            negb (existsb (String.eqb (NodeInfo.type info)) types))
                         results
              | None => results
              end
          end
    | None =>
        match truthyNat (Options.minConnections options) with
        | Some m0 =>
            filter (fun info => m0 <=? NodeInfo.connections info)
              match Options.excludeTypes options with
              | Some types =>
                  filter (fun info =>
                            negb (existsb (String.eqb (NodeInfo.type info)) types))
                         results
              | None => results
              end
        | None =>
            match Options.excludeTypes options with
            | Some types =>
                filter (fun info =>
                          negb (existsb (String.eqb (NodeInfo.type info)) types))
                       results
            | None => results
            end
        end
    end = filter (keptByOptions options) results).
  { assert (Hall : forall l : list NodeInfo.t, l = filter (fun _ => true) l).
    { intros l. induction l as [|x l IH]; simpl; [reflexivity | now rewrite <- IH]. }
    unfold keptByOptions.
    destruct (truthyNat (Options.maxConnections options)),
      (truthyNat (Options.minConnections options)),
      (Options.excludeTypes options);
      rewrite ?filter_filter; try rewrite (Hall results) at 1;
      rewrite ?filter_filter; apply filter_ext; intros info;
      repeat match goal with
             | |- context [existsb ?f ?l] => destruct (existsb f l)
             | |- context [?a <=? ?b] => destruct (a <=? b)
             end; reflexivity. }
  cbv zeta. rewrite Hfused. reflexivity.
Qed.

(** X20.  [filterResults] returns infos of the list it was given that pass
    every filter of the options; a bound of 0 for [minConnections] or
    [maxConnections] filters nothing.
    Without a limit, or with a limit of 0, it returns all of them, and with
    a limit their number is cut to it; without [sortBy] they keep their
    order, and with [sortBy: 'relevance'] they are in descending order of
    relevance. *)
Theorem filterResults_keeps_what_passes_the_options
  (localeCompare : string -> string -> Z)
  (results : list NodeInfo.t) (options : Options.t) :
  (forall info,
      In info (filterResults localeCompare results options) ->
      In info results /\ keptByOptions options info = true)
  /\ (truthyNat (Options.limit options) = None ->
      Permutation (filterResults localeCompare results options)
                  (filter (keptByOptions options) results))
  /\ (forall l,
        truthyNat (Options.limit options) = Some l ->
        List.length (filterResults localeCompare results options)
        = Nat.min l (List.length (filter (keptByOptions options) results)))
  /\ (truthy (Options.sortBy options) = None ->
      filterResults localeCompare results options
      = cutAt (Options.limit options) (filter (keptByOptions options) results))
  /\ (Options.sortBy options = Some "relevance" ->
      StronglySorted ranksAtLeast (filterResults localeCompare results options))
  /\ (forall info excluded sortBy limit,
        keptByOptions (Options.mk excluded (Some 0) (Some 0) sortBy limit) info
        = keptByOptions (Options.mk excluded None None sortBy limit) info).
Proof.
  rewrite filterResults_fused.
  assert (Hsorted : Permutation
            (match truthy (Options.sortBy options) with
             | Some sortBy =>
                 sortWith (sortedAfter localeCompare sortBy)
                          (filter (keptByOptions options) results)
             | None => filter (keptByOptions options) results
             end)
            (filter (keptByOptions options) results)).
  { destruct (truthy (Options.sortBy options));
      [apply sortWith_perm | apply Permutation_refl]. }
  split; [|split; [|split; [|split; [|split]]]].
  - intros info Hin. apply filter_In.
    apply (Permutation_in _ Hsorted). unfold cutAt in Hin.
    destruct (truthyNat (Options.limit options)); [|exact Hin].
    revert Hin. apply In_firstn.
  - intros Hno. unfold cutAt. rewrite Hno. exact Hsorted.
  - intros l Hl. unfold cutAt. rewrite Hl, length_firstn.
    now rewrite (Permutation_length Hsorted).
  - intros Hno. now rewrite Hno.
  - intros Hby. rewrite Hby. cbn [truthy].
    unfold cutAt.
    assert (Hs : StronglySorted ranksAtLeast
                   (sortWith (sortedAfter localeCompare "relevance")
                             (filter (keptByOptions options) results)))
      by apply lessRelevant_sorts.
    destruct (truthyNat (Options.limit options)); [now apply firstn_sorted | exact Hs].
  - reflexivity.
Qed.

Lemma filterResults_keeps_what_passes_the_options_witness :
  StronglySorted ranksAtLeast
    (filterResults byCodePoint
       [sampleInfo "a" "relay" 1 (1 # 2); sampleInfo "b" "edge" 4 (9 # 10);
        sampleInfo "c" "relay" 0 (7 # 10)]
       (Options.mk (Some ["edge"]) None (Some 0) (Some "relevance") None)).
Proof.
  exact (proj1 (proj2 (proj2 (proj2 (proj2
    (filterResults_keeps_what_passes_the_options byCodePoint
       [sampleInfo "a" "relay" 1 (1 # 2); sampleInfo "b" "edge" 4 (9 # 10);
        sampleInfo "c" "relay" 0 (7 # 10)]
       (Options.mk (Some ["edge"]) None (Some 0) (Some "relevance") None))))))
    eq_refl).
Defined.

Lemma neighborsIn_addToSet (m : jmap jsset) (k x k' : string) :
  neighborsIn (addToSet m k x) k'
  = if String.eqb k' k then sadd (neighborsIn m k) x else neighborsIn m k'.
Proof.
  unfold addToSet, neighborsIn.
  destruct (String.eqb_spec k' k) as [->|Hk].
  - destruct (jget m k); now rewrite jget_jset_same.
  - destruct (jget m k); now rewrite jget_jset_other.
Qed.

Lemma In_indexed_capability (nodeId : string) (caps : list (string * capval)) :
  forall (m : jmap jsset) (cap x : string),
    In x (neighborsIn (fold_left (indexCapability nodeId) caps m) cap)
    <-> In x (neighborsIn m cap) \/ (x = nodeId /\ In (cap, CapBool true) caps).
Proof.
  induction caps as [|[k v] caps IH]; intros m cap x; cbn [fold_left].
  - simpl. tauto.
  - rewrite IH. unfold indexCapability. cbn [fst snd].
    destruct v as [[|]|s|z];
      try (split; [intros [H | [H1 H2]]; [now left | right; split; [exact H1 | now right]]
                  | intros [H | [H1 [H2 | H2]]];
                    [now left | discriminate || congruence | right; now split]]).
    rewrite neighborsIn_addToSet.
    destruct (String.eqb_spec cap k) as [->|Hk].
    + rewrite In_sadd. split.
      * intros [[H | H] | [H1 H2]];
          [now left | right; split; [exact H | now left]
           | right; split; [exact H1 | now right]].
      * intros [H | [H1 [H2 | H2]]];
          [left; now left | left; now right | right; now split].
    + split.
      * intros [H | [H1 H2]]; [now left | right; split; [exact H1 | now right]].
      * intros [H | [H1 [H2 | H2]]];
          [now left | inversion H2; congruence | right; now split].
Qed.

Lemma jget_removeFromSet (nodeId : string) (m : jmap jsset) (cap : string) :
  jget (map (removeFromSet nodeId) m) cap
  = option_map (fun s => sdelete s nodeId) (jget m cap).
Proof.
  induction m as [|[k s] m IH]; cbn [map jget removeFromSet fst snd]; [reflexivity|].
  destruct (String.eqb k cap); [reflexivity | exact IH].
Qed.

Lemma neighborsIn_removeFromSet (nodeId : string) (m : jmap jsset) (cap : string) :
  neighborsIn (map (removeFromSet nodeId) m) cap
  = sdelete (neighborsIn m cap) nodeId.
Proof.
  unfold neighborsIn. rewrite jget_removeFromSet. now destruct (jget m cap).
Qed.

Lemma neighborsIn_removed_type (nodeId type : string) (m : jmap jsset) (t : string) :
  neighborsIn (match jget m type with
               | Some s => jset m type (sdelete s nodeId)
               | None => m
               end) t
  = if String.eqb t type then sdelete (neighborsIn m type) nodeId
    else neighborsIn m t.
Proof.
  unfold neighborsIn. destruct (String.eqb_spec t type) as [->|Ht].
  - destruct (jget m type) eqn:E; [now rewrite jget_jset_same | now rewrite E].
  - destruct (jget m type); [now rewrite jget_jset_other | reflexivity].
Qed.

(** X21.  After [updateSearchIndex] the index gives the node's id for its
    name, whatever the case of the letters, and holds the id under the
    node's type and under every capability whose value is [true].  After
    [removeFromSearchIndex] for the same node the name is unknown again,
    and the id is neither under the node's type nor under any capability,
    while what the index held before for other names and other ids is as it
    was.  The name index has one entry for a lower-cased name: removing any
    node of that lower-cased name takes the entry away, whichever node it
    pointed to. *)
Theorem search_index_round_trip (idx : SearchIndex) (node : Node.t) :
  (idOfName (updateSearchIndex idx node) (Node.name node) = Some (Node.id node)
   /\ In (Node.id node) (idsOfType (updateSearchIndex idx node) (Node.type node))
   /\ forall cap,
        In (cap, CapBool true) (Node.capabilities node) ->
        In (Node.id node) (idsOfCapability (updateSearchIndex idx node) cap))
  /\ (forall other,
        toLowerCase (Node.name other) = toLowerCase (Node.name node) ->
        idOfName (removeFromSearchIndex (updateSearchIndex idx node) other)
                 (Node.name node) = None)
  /\ (~ In (Node.id node)
          (idsOfType (removeFromSearchIndex (updateSearchIndex idx node) node)
                     (Node.type node))
      /\ forall cap,
           ~ In (Node.id node)
                (idsOfCapability
                   (removeFromSearchIndex (updateSearchIndex idx node) node) cap))
  /\ (forall nm,
        toLowerCase nm <> toLowerCase (Node.name node) ->
        idOfName (removeFromSearchIndex (updateSearchIndex idx node) node) nm
        = idOfName idx nm)
  /\ (forall key x,
        x <> Node.id node ->
        (In x (idsOfType (removeFromSearchIndex (updateSearchIndex idx node) node)
                         key)
         <-> In x (idsOfType idx key))
        /\ (In x (idsOfCapability
                    (removeFromSearchIndex (updateSearchIndex idx node) node) key)
            <-> In x (idsOfCapability idx key))).
Proof.
  unfold idOfName, idsOfType, idsOfCapability.
  cbn [updateSearchIndex removeFromSearchIndex byName byType byCapability
       option_map orEmpty].
  split; [|split; [|split; [|split]]].
  - split; [apply jget_jset_same|]. split.
    + rewrite neighborsIn_addToSet, String.eqb_refl. apply In_sadd. now right.
    + intros cap Hcap. apply In_indexed_capability. right. now split.
  - intros other Hsame. rewrite Hsame. apply jget_jdelete_same.
  - split.
    + rewrite neighborsIn_removed_type, String.eqb_refl, In_sdelete. tauto.
    + intros cap. rewrite neighborsIn_removeFromSet, In_sdelete. tauto.
  - intros nm Hnm. rewrite jget_jdelete_other, jget_jset_other; auto.
  - intros key x Hx. split.
    + rewrite neighborsIn_removed_type.
      destruct (String.eqb_spec key (Node.type node)) as [->|Hk].
      * rewrite In_sdelete, neighborsIn_addToSet, String.eqb_refl, In_sadd. tauto.
      * rewrite neighborsIn_addToSet.
        destruct (String.eqb_spec key (Node.type node)); [contradiction | tauto].
    + rewrite neighborsIn_removeFromSet, In_sdelete, In_indexed_capability. tauto.
Qed.

Lemma search_index_round_trip_witness :
  In "id-A" (idsOfCapability (updateSearchIndex emptyIndex (sampleNode "A"))
                             "routing").
Proof.
  apply (search_index_round_trip emptyIndex (sampleNode "A")).
  left. reflexivity.
Defined.

Lemma jget_filter_kept {V : Type} (p : string * V -> bool) (m : jmap V)
  (k : string) (v : V) :
  jget m k = Some v -> p (k, v) = true -> jget (filter p m) k = Some v.
Proof.
  induction m as [|[k' v'] m IH]; cbn [jget filter]; [discriminate|].
  destruct (String.eqb_spec k' k) as [->|Hk].
  - intros H Hp. inversion H; subst. rewrite Hp. cbn [jget].
    now rewrite String.eqb_refl.
  - intros H Hp. destruct (p (k', v')); cbn [jget].
    + apply String.eqb_neq in Hk. rewrite Hk. now apply IH.
    + now apply IH.
Qed.

Lemma filter_filter_same {A : Type} (p : A -> bool) (l : list A) :
  filter p (filter p l) = filter p l.
Proof.
  induction l as [|x l IH]; cbn [filter]; [reflexivity|].
  destruct (p x) eqn:E; cbn [filter]; [now rewrite E, IH | exact IH].
Qed.

(** X22.  The discovery cache keeps an entry longer than it serves it.
    [cleanupDiscoveryCache] keeps, in their order, exactly the entries that
    are at most thirty minutes old, and a second cleanup at the same time
    removes nothing more; [isCacheValid] accepts an entry only while it is
    less than five minutes old, so every valid entry survives a cleanup.
    [getCachedNodeInfo] returns the cached node exactly for a valid entry,
    and then adds one to its access count and changes neither the time it
    was cached at nor any other entry; for an entry between five and thirty
    minutes old it returns [null] although the cleanup leaves the entry in
    the cache. *)
Theorem cache_entries_outlive_their_validity
  (P : Type) (now : Z) (cache : jmap (CacheEntry.t P)) (nodeId : string)
  (cacheEntry : CacheEntry.t P)
  (Hcached : jget cache nodeId = Some cacheEntry) :
  (forall e, In e (cleanupDiscoveryCache now cache)
             <-> In e cache /\ (ageAt now (snd e) <= thirtyMinutes)%Z)
  /\ cleanupDiscoveryCache now (cleanupDiscoveryCache now cache)
     = cleanupDiscoveryCache now cache
  /\ (isCacheValid now cacheEntry = true <-> (ageAt now cacheEntry < fiveMinutes)%Z)
  /\ ((ageAt now cacheEntry <= thirtyMinutes)%Z ->
      jget (cleanupDiscoveryCache now cache) nodeId = Some cacheEntry)
  /\ ((ageAt now cacheEntry < fiveMinutes)%Z ->
      getCachedNodeInfo now cache nodeId
      = (jset cache nodeId
              (CacheEntry.mk (CacheEntry.payload cacheEntry)
                             (CacheEntry.cachedAt cacheEntry)
                             (S (CacheEntry.accessCount cacheEntry))),
         Some (CacheEntry.payload cacheEntry)))
  /\ ((fiveMinutes <= ageAt now cacheEntry)%Z ->
      getCachedNodeInfo now cache nodeId = (cache, None)).
Proof.
  unfold cleanupDiscoveryCache, isCacheValid, getCachedNodeInfo, ageAt,
    fiveMinutes, thirtyMinutes.
  split; [|split; [|split; [|split; [|split]]]].
  - intros e. rewrite filter_In, negb_true_iff, Z.ltb_ge. reflexivity.
  - apply filter_filter_same.
  - rewrite Z.ltb_lt. reflexivity.
  - intros Hage. apply jget_filter_kept; [exact Hcached|].
    cbn [snd]. apply negb_true_iff, Z.ltb_ge. exact Hage.
  - intros Hage. rewrite Hcached. unfold isCacheValid.
    destruct (Z.ltb_spec (now - CacheEntry.cachedAt cacheEntry) (5 * 60 * 1000));
      [reflexivity | lia].
  - intros Hage. rewrite Hcached. unfold isCacheValid.
    destruct (Z.ltb_spec (now - CacheEntry.cachedAt cacheEntry) (5 * 60 * 1000));
      [lia | reflexivity].
Qed.

Lemma cache_entries_outlive_their_validity_witness :
  jget (cleanupDiscoveryCache 1000000 [("id-A", CacheEntry.mk (sampleNode "A") 0 0)])
       "id-A"
  = Some (CacheEntry.mk (sampleNode "A") 0 0)
  /\ getCachedNodeInfo 1000000 [("id-A", CacheEntry.mk (sampleNode "A") 0 0)] "id-A"
     = ([("id-A", CacheEntry.mk (sampleNode "A") 0 0)], None).
Proof.
  pose proof (cache_entries_outlive_their_validity Node.t 1000000
                [("id-A", CacheEntry.mk (sampleNode "A") 0 0)] "id-A"
                (CacheEntry.mk (sampleNode "A") 0 0) eq_refl)
    as (_ & _ & _ & Hkept & _ & Hnull).
  split; [apply Hkept | apply Hnull]; vm_compute; discriminate.
Defined.

Lemma findShortestPath_gives_no_path (fuel : nat) (mesh : registry)
  (tm : TopologyManager) (a b : jsval) :
  findShortestPath fuel mesh tm a b = None
  \/ findShortestPath fuel mesh tm a b = Some None.
Proof.
  unfold findShortestPath.
  destruct (jget_val mesh a); [|now right].
  destruct (jget_val mesh b); [|now right].
  left. rewrite reconstructPath_runs_on; [reflexivity | discriminate].
Qed.

Lemma alternativeLoop_gives_no_path (mesh : registry) (tm : TopologyManager)
  (fuel : nat) (a b : jsval) (conns : list Connection.t) :
  alternativeLoop mesh tm fuel a b conns = None
  \/ alternativeLoop mesh tm fuel a b conns = Some None.
Proof.
  induction conns as [|c conns IH]; cbn [alternativeLoop]; [now right|].
  destruct (negb _); [|exact IH].
  destruct (findShortestPath_gives_no_path fuel mesh tm
              (JStr (otherEnd c a)) b) as [-> | ->]; [now left | exact IH].
Qed.

(** X23.  Past its first two names a routing path is never repaired:
    [findAlternativePath] returns no path, since each of its attempts asks
    [findShortestPath], which answers [null] or does not come back.  A
    pending task whose path has more than two names is therefore forwarded
    and dropped, or fails with the error of [sendMessage] or with ["Cannot
    route through node: <name>"], or keeps [processDeliveryTask] waiting; it
    is never delivered and never put back with another path. *)
Theorem long_paths_are_never_repaired
  (mesh : registry) (tm : TopologyManager)
  (receiveMessage : Node.t -> Message.t -> option string)
  (sendMessage : Node.t -> Node.t -> Message.t -> option string)
  (fuel : nat) (r : MessageRouter) (m : Message.t) (a b : jsval) (task : Task.t)
  (Hpending : Task.status task = Pending)
  (Hlong : 2 < List.length (Task.routingPath task))
  (Hinside : Task.currentHop task + 1 < List.length (Task.routingPath task)) :
  (forall path, findAlternativePath mesh tm fuel m a b <> Some (Some path))
  /\ (processDeliveryTask mesh tm receiveMessage sendMessage fuel r task = None
      \/ processDeliveryTask mesh tm receiveMessage sendMessage fuel r task
         = Some (Ok (r, Task.mk (Task.message task) (Task.routingPath task)
                                (Task.currentHop task + 1) Pending))
      \/ exists e,
           processDeliveryTask mesh tm receiveMessage sendMessage fuel r task
           = Some (Throw e)).
Proof.
  assert (Hnone : forall m' a' b' path,
            findAlternativePath mesh tm fuel m' a' b' <> Some (Some path)).
  { intros m' a' b' path. unfold findAlternativePath.
    destruct (alternativeLoop_gives_no_path mesh tm fuel a' b'
                (getNodeConnections tm a')) as [-> | ->]; discriminate. }
  split; [apply Hnone|].
  unfold processDeliveryTask. rewrite Hpending.
  destruct (Nat.leb_spec (List.length (Task.routingPath task))
                         (Task.currentHop task + 1)); [lia|].
  destruct (Nat.eqb_spec (List.length (Task.routingPath task)) 2); [lia|].
  cbn [andb].
  destruct (canRouteThroughNode mesh tm _ _).
  - destruct (forwardMessage mesh sendMessage _ _ _) as [u|e];
      [right; left; reflexivity | right; right; now exists e].
  - destruct (findAlternativePath mesh tm fuel _ _ _) as [[p|]|] eqn:E.
    + exfalso. exact (Hnone _ _ _ _ E).
    + right. right. eexists. reflexivity.
    + now left.
Qed.

Lemma long_paths_are_never_repaired_witness :
  processDeliveryTask meshABC lineABC alwaysResolves2 alwaysResolves3 0 idleRouter
    (Task.mk (Message.mk "m1" "A" "C" 0 3) [JStr "A"; JStr "B"; JStr "C"] 0 Pending)
  = None
  \/ processDeliveryTask meshABC lineABC alwaysResolves2 alwaysResolves3 0 idleRouter
       (Task.mk (Message.mk "m1" "A" "C" 0 3) [JStr "A"; JStr "B"; JStr "C"] 0 Pending)
     = Some (Ok (idleRouter,
                 Task.mk (Message.mk "m1" "A" "C" 0 3)
                         [JStr "A"; JStr "B"; JStr "C"] (0 + 1) Pending))
  \/ exists e,
       processDeliveryTask meshABC lineABC alwaysResolves2 alwaysResolves3 0
         idleRouter
         (Task.mk (Message.mk "m1" "A" "C" 0 3) [JStr "A"; JStr "B"; JStr "C"] 0
                  Pending)
       = Some (Throw e).
Proof.
  apply (long_paths_are_never_repaired meshABC lineABC alwaysResolves2
           alwaysResolves3 0 idleRouter (Message.mk "m1" "A" "C" 0 3)
           (JStr "A") (JStr "B")
           (Task.mk (Message.mk "m1" "A" "C" 0 3) [JStr "A"; JStr "B"; JStr "C"] 0
                    Pending)).
  - reflexivity.
  - simpl. lia.
  - simpl. lia.
Defined.

(** ** Counting neighbours and connections *)

Lemma total_cons {V : Type} (weight : V -> nat) (e : string * V) (m : jmap V) :
  total weight (e :: m) = weight (snd e) + total weight m.
Proof. reflexivity. Qed.

Lemma total_app {V : Type} (weight : V -> nat) (m m' : jmap V) :
  total weight (m ++ m') = total weight m + total weight m'.
Proof.
  induction m as [|e m IH]; [reflexivity|].
  cbn [app]. rewrite !total_cons, IH. lia.
Qed.

Lemma total_jset_present {V : Type} (weight : V -> nat) (m : jmap V)
  (k : string) (v v' : V) :
  jget m k = Some v ->
  total weight (jset m k v') + weight v = total weight m + weight v'.
Proof.
  induction m as [|[k0 v0] m IH]; cbn [jget jset]; [discriminate|].
  destruct (String.eqb k0 k).
  - intros H; inversion H; subst. rewrite !total_cons. cbn [snd]. lia.
  - intros H. rewrite !total_cons. cbn [snd]. specialize (IH H). lia.
Qed.

Lemma total_jset_absent {V : Type} (weight : V -> nat) (m : jmap V)
  (k : string) (v' : V) :
  jget m k = None -> total weight (jset m k v') = total weight m + weight v'.
Proof.
  intros H. rewrite (jset_fresh _ _ _ H), total_app.
  unfold total at 2. simpl. lia.
Qed.

Lemma total_jdelete {V : Type} (weight : V -> nat) (m : jmap V)
  (k : string) (v : V) :
  NoDup (jkeys m) -> jget m k = Some v ->
  total weight (jdelete m k) + weight v = total weight m.
Proof.
  induction m as [|[k0 v0] m IH]; cbn [jget jkeys map fst]; [discriminate|].
  intros Hnd H. inversion Hnd as [|? ? Hk0 Hnd']; subst.
  unfold jdelete. cbn [filter fst].
  destruct (String.eqb_spec k0 k) as [->|Hne]; cbn [negb].
  - inversion H; subst. rewrite total_cons. cbn [snd].
    fold (jdelete m k). rewrite jdelete_absent; [lia|].
    destruct (jget m k) as [v'|] eqn:E; [|reflexivity].
    exfalso. apply Hk0. apply jget_In in E. apply in_map_iff. now exists (k, v').
  - rewrite !total_cons. cbn [snd]. fold (jdelete m k).
    specialize (IH Hnd' H). lia.
Qed.

Lemma jkeys_jset {V : Type} (m : jmap V) (k : string) (v : V) :
  jkeys (jset m k v) = if jhas m k then jkeys m else jkeys m ++ [k].
Proof.
  unfold jhas, jkeys. induction m as [|[k0 v0] m IH]; cbn [jset jget map fst app];
    [reflexivity|].
  destruct (String.eqb_spec k0 k) as [->|Hne]; cbn [map fst]; [reflexivity|].
  rewrite IH. now destruct (jget m k).
Qed.

Lemma NoDup_jkeys_jset {V : Type} (m : jmap V) (k : string) (v : V) :
  NoDup (jkeys m) -> NoDup (jkeys (jset m k v)).
Proof.
  intros Hnd. rewrite jkeys_jset. unfold jhas.
  destruct (jget m k) eqn:E; [exact Hnd|].
  apply NoDup_app; [exact Hnd | constructor; [intros [] | constructor] |].
  intros x Hx [<- | []]. exact (jget_None_not_key _ _ E Hx).
Qed.

Lemma length_sadd (s : jsset) (x : string) :
  List.length (sadd s x) = List.length s + (if shas s x then 0 else 1).
Proof.
  unfold sadd. destruct (shas s x); [lia|]. rewrite length_app. reflexivity.
Qed.

Lemma length_sdelete (s : jsset) (x : string) :
  NoDup s ->
  List.length (sdelete s x) + (if shas s x then 1 else 0) = List.length s.
Proof.
  unfold sdelete, shas. induction s as [|y s IH]; intros Hnd; [reflexivity|].
  inversion Hnd as [|? ? Hy Hnd']; subst. cbn [filter existsb List.length].
  rewrite (String.eqb_sym x y).
  destruct (String.eqb_spec y x) as [->|Hne]; cbn [negb orb List.length].
  - assert (Hno : existsb (String.eqb x) s = false).
    { apply not_true_iff_false. intros H. apply existsb_exists in H as (z & Hz & E).
      apply String.eqb_eq in E. congruence. }
    specialize (IH Hnd'). rewrite Hno in IH. lia.
  - specialize (IH Hnd'). lia.
Qed.

Lemma degreeSum_total (tm : TopologyManager) :
  degreeSum tm = total (@List.length string) (topologyGraph tm).
Proof.
  unfold degreeSum, total.
  assert (H : forall (g : jmap jsset) acc,
            fold_left (fun totalConnections e => totalConnections + List.length (snd e))
                      g acc
            = acc + list_sum (map (fun e => List.length (snd e)) g)).
  { induction g as [|e g IH]; intros acc; cbn [fold_left map]; [simpl; lia|].
    rewrite IH, list_sum_head. lia. }
  now rewrite H.
Qed.

Lemma total_ensureEntry (g : jmap jsset) (k : string) :
  total (@List.length string) (ensureEntry g k) = total (@List.length string) g.
Proof.
  unfold ensureEntry, jhas. destruct (jget g k) eqn:E; [reflexivity|].
  rewrite total_jset_absent by exact E. apply Nat.add_0_r.
Qed.

Lemma NoDup_jkeys_ensureEntry (g : jmap jsset) (k : string) :
  NoDup (jkeys g) -> NoDup (jkeys (ensureEntry g k)).
Proof.
  unfold ensureEntry. destruct (jhas g k); [auto | apply NoDup_jkeys_jset].
Qed.

Lemma total_addEdgeTo (g : jmap jsset) (k x : string) :
  jhas g k = true ->
  total (@List.length string) (addEdgeTo g k x)
  = total (@List.length string) g + (if shas (neighborsIn g k) x then 0 else 1).
Proof.
  unfold jhas, addEdgeTo, neighborsIn. destruct (jget g k) as [ns|] eqn:E;
    [intros _ | discriminate].
  pose proof (total_jset_present (@List.length string) g k ns (sadd ns x) E) as H.
  rewrite length_sadd in H. cbv beta iota. unfold jsset in *. lia.
Qed.

Lemma NoDup_jkeys_addEdgeTo (g : jmap jsset) (k x : string) :
  NoDup (jkeys g) -> NoDup (jkeys (addEdgeTo g k x)).
Proof.
  unfold addEdgeTo. destruct (jget g k); [apply NoDup_jkeys_jset | auto].
Qed.

Lemma total_removeEdgeFrom (g : jmap jsset) (k x : string) :
  NoDup (neighborsIn g k) ->
  total (@List.length string) (removeEdgeFrom g k x)
  + (if shas (neighborsIn g k) x then 1 else 0)
  = total (@List.length string) g.
Proof.
  unfold removeEdgeFrom, neighborsIn. destruct (jget g k) as [ns|] eqn:E.
  - intros Hnd.
    pose proof (total_jset_present (@List.length string) g k ns (sdelete ns x) E) as H.
    pose proof (length_sdelete ns x Hnd) as Hd. cbv beta iota.
    unfold jsset in *. lia.
  - intros _. cbn [shas existsb]. lia.
Qed.

Lemma NoDup_jkeys_removeEdgeFrom (g : jmap jsset) (k x : string) :
  NoDup (jkeys g) -> NoDup (jkeys (removeEdgeFrom g k x)).
Proof.
  unfold removeEdgeFrom. destruct (jget g k); [apply NoDup_jkeys_jset | auto].
Qed.

Lemma handshake_new : handshake newTopologyManager.
Proof. split; [apply carried_new|]. split; [constructor | reflexivity]. Qed.

Lemma handshake_addNode (tm : TopologyManager) (node : Node.t) :
  wellFormedCall tm (AddNode node) = true ->
  handshake tm -> handshake (addNode tm node).
Proof.
  intros Hwf (Hc & Hk & Hsum). split; [now apply carried_addNode|].
  cbn [wellFormedCall] in Hwf. apply andb_true_iff in Hwf as [_ Hg].
  apply negb_true_iff in Hg. split.
  - cbn [addNode topologyGraph]. now apply NoDup_jkeys_jset.
  - rewrite degreeSum_total in *. cbn [addNode topologyGraph].
    unfold endsOfConnections in *. cbn [addNode connections].
    rewrite total_jset_absent.
    + rewrite <- Hsum. apply Nat.add_0_r.
    + change (jget (topologyGraph tm) (Node.name node) = None).
      unfold jhas in Hg.
      destruct (jget (topologyGraph tm) (Node.name node));
        [discriminate | reflexivity].
Qed.

Lemma handshake_removeConnection (tm : TopologyManager) (cid : string) :
  handshake tm -> handshake (removeConnection tm cid).
Proof.
  intros (Hc & Hk & Hsum). split; [now apply carried_removeConnection|].
  unfold removeConnection.
  destruct (jget (connections tm) cid) as [c|] eqn:Hget; [|now split].
  cbn [topologyGraph connections]. split.
  - now apply NoDup_jkeys_removeEdgeFrom, NoDup_jkeys_removeEdgeFrom.
  - rewrite degreeSum_total in *. unfold endsOfConnections in *.
    cbn [topologyGraph connections].
    destruct Hc as [Hids Hsym _ Hsets Hstored _ _].
    pose proof (Hstored cid c (jget_In _ _ _ Hget)) as Hab.
    pose proof (Hsym _ _ Hab) as Hba.
    pose proof (total_jdelete connectionEnds (connections tm) cid c Hids Hget) as Hconn.
    unfold total in Hconn.
    set (a := Connection.sourceNode c) in *. set (b := Connection.targetNode c) in *.
    pose proof (total_removeEdgeFrom (topologyGraph tm) a b (Hsets a)) as H1.
    assert (Hnd1 : NoDup (neighborsIn (removeEdgeFrom (topologyGraph tm) a b) b)).
    { destruct (String.eqb_spec b a) as [->|Hne].
      - rewrite neighborsIn_removeEdgeFrom_same. apply NoDup_sdelete, Hsets.
      - rewrite neighborsIn_removeEdgeFrom_other by exact Hne. apply Hsets. }
    pose proof (total_removeEdgeFrom (removeEdgeFrom (topologyGraph tm) a b) b a Hnd1)
      as H2.
    unfold adjacent, neighbors in Hab, Hba.
    apply shas_In in Hab. rewrite Hab in H1.
    assert (Hsecond :
      (if shas (neighborsIn (removeEdgeFrom (topologyGraph tm) a b) b) a
       then 1 else 0) + 1 = connectionEnds c).
    { unfold connectionEnds. fold a b. destruct (String.eqb_spec a b) as [E|Hne].
      - rewrite <- E. rewrite neighborsIn_removeEdgeFrom_same.
        replace (shas (sdelete (neighborsIn (topologyGraph tm) a) a) a) with false;
          [reflexivity|].
        symmetry. apply shas_false. rewrite In_sdelete. tauto.
      - rewrite neighborsIn_removeEdgeFrom_other by congruence.
        apply shas_In in Hba. now rewrite Hba. }
    lia.
Qed.

Lemma handshake_removals (ids : list string) :
  forall tm, handshake tm -> handshake (fold_left removeConnection ids tm).
Proof.
  induction ids as [|cid ids IH]; intros tm H; cbn [fold_left]; [exact H|].
  now apply IH, handshake_removeConnection.
Qed.

Lemma handshake_removeNode (tm : TopologyManager) (node : Node.t) :
  handshake tm -> handshake (removeNode tm node).
Proof.
  intros H. split; [apply carried_removeNode, H|].
  pose proof (handshake_removals
                (map fst (filter (involves (Node.name node)) (connections tm)))
                tm H) as (Hc1 & Hk1 & Hsum1).
  pose proof (no_involvement_after_removals tm (Node.name node)) as Hnone.
  cbn [removeNode topologyGraph]. split; [now apply NoDup_jkeys_jdelete|].
  rewrite degreeSum_total in *. unfold endsOfConnections in *.
  cbn [removeNode topologyGraph connections].
  set (tm1 := fold_left removeConnection
                (map fst (filter (involves (Node.name node)) (connections tm))) tm)
    in *.
  destruct (jget (topologyGraph tm1) (Node.name node)) as [ns|] eqn:E.
  - pose proof (total_jdelete (@List.length string) _ _ _ Hk1 E) as Hdel.
    assert (Hempty : ns = []).
    { destruct ns as [|b ns]; [reflexivity|]. exfalso.
      destruct Hc1 as [_ _ _ _ _ Hedge _].
      destruct (Hedge (Node.name node) b) as (cid & c & Hin & Hj).
      { unfold adjacent, neighbors, neighborsIn. rewrite E. now left. }
      destruct (involves_joined c cid _ _ Hj) as [Hinv _].
      assert (Hf : In (cid, c) (filter (involves (Node.name node)) (connections tm1)))
        by (apply filter_In; now split).
      rewrite Hnone in Hf. destruct Hf. }
    subst ns. cbn [List.length] in Hdel. rewrite Nat.add_0_r in Hdel.
    etransitivity; [exact Hdel | exact Hsum1].
  - rewrite jdelete_absent by exact E. exact Hsum1.
Qed.

Lemma handshake_addConnection (mesh : registry) (tm : TopologyManager)
  (c : Connection.t) :
  wellFormedCall tm (AddConnection mesh c) = true ->
  handshake tm -> handshake (addConnection mesh tm c).
Proof.
  intros Hwf (Hc & Hk & Hsum). split; [now apply carried_addConnection|].
  cbn [wellFormedCall] in Hwf. rewrite !andb_true_iff, negb_true_iff in Hwf.
  destruct Hwf as [[[[[Hfresh Hma] Hmb] Hna] Hnb] Hnone].
  assert (Hget : jget (connections tm) (Connection.id c) = None).
  { unfold jhas in Hfresh. now destruct (jget (connections tm) (Connection.id c)). }
  set (a := Connection.sourceNode c) in *. set (b := Connection.targetNode c) in *.
  destruct Hc as [Hids Hsym _ Hsets _ Hedge _].
  assert (Hab : shas (neighborsIn (topologyGraph tm) a) b = false).
  { apply shas_false. intros Hin. destruct (Hedge a b Hin) as (cid & c' & Hin' & Hj).
    exact (getConnection_none tm a b Hnone cid c' Hin' Hj). }
  assert (Hba : shas (neighborsIn (topologyGraph tm) b) a = false).
  { apply shas_false. intros Hin. apply Hsym in Hin.
    apply shas_false in Hab. exact (Hab Hin). }
  unfold addConnection. fold a b. rewrite Hma, Hmb. cbn [andb topologyGraph connections].
  set (g2 := ensureEntry (ensureEntry (topologyGraph tm) a) b).
  assert (Hha : jhas g2 a = true).
  { unfold g2. rewrite !jhas_ensureEntry, String.eqb_refl.
    now rewrite orb_true_r. }
  assert (Hhb : jhas g2 b = true).
  { unfold g2. rewrite !jhas_ensureEntry, String.eqb_refl. apply orb_true_r. }
  assert (Hn2 : forall x, neighborsIn g2 x = neighborsIn (topologyGraph tm) x).
  { intros x. unfold g2. now rewrite !neighborsIn_ensureEntry. }
  split.
  - apply NoDup_jkeys_addEdgeTo, NoDup_jkeys_addEdgeTo.
    unfold g2. now apply NoDup_jkeys_ensureEntry, NoDup_jkeys_ensureEntry.
  - rewrite degreeSum_total in *. unfold endsOfConnections in *.
    cbn [topologyGraph connections].
    rewrite (jset_fresh _ _ _ Hget), map_app, list_sum_app. cbn [map snd list_sum].
    rewrite total_addEdgeTo by (now rewrite jhas_addEdgeTo).
    rewrite total_addEdgeTo by exact Hha.
    rewrite Hn2, Hab. unfold g2 at 1. rewrite !total_ensureEntry, Hsum.
    assert (Hsecond :
      (if shas (neighborsIn (addEdgeTo g2 a b) b) a then 0 else 1) + 1
      = connectionEnds c).
    { unfold connectionEnds. fold a b. destruct (String.eqb_spec a b) as [E|Hne].
      - rewrite <- E. rewrite neighborsIn_addEdgeTo_same by exact Hha.
        replace (shas (sadd (neighborsIn g2 a) a) a) with true; [reflexivity|].
        symmetry. apply shas_In, In_sadd. now right.
      - rewrite neighborsIn_addEdgeTo_other by congruence.
        now rewrite Hn2, Hba. }
    change (list_sum [connectionEnds c]) with (connectionEnds c + 0). lia.
Qed.

Lemma handshake_mutate (tm : TopologyManager) (op : mutation) :
  wellFormedCall tm op = true -> handshake tm -> handshake (mutate tm op).
Proof.
  destruct op as [node|node|mesh c|cid]; cbn [mutate]; intros Hwf H.
  - now apply handshake_addNode.
  - now apply handshake_removeNode.
  - now apply handshake_addConnection.
  - now apply handshake_removeConnection.
Qed.

Lemma handshake_trace (ops : list mutation) :
  forall tm, wellFormedTrace tm ops = true -> handshake tm ->
             handshake (fold_left mutate ops tm).
Proof.
  induction ops as [|op ops IH]; intros tm Hwf H; cbn [fold_left]; [exact H|].
  cbn [wellFormedTrace] in Hwf. apply andb_true_iff in Hwf as [Hop Hrest].
  apply IH; [exact Hrest | now apply handshake_mutate].
Qed.

Lemma ends_without_loops (l : list (string * Connection.t)) :
  forallb (fun e => negb (isLoop e)) l = true ->
  list_sum (map (fun e => connectionEnds (snd e)) l) = 2 * List.length l.
Proof.
  induction l as [|e l IH]; [reflexivity|]. cbn [forallb map List.length].
  intros H. apply andb_true_iff in H as [He Hl]. rewrite list_sum_head, (IH Hl).
  unfold isLoop in He. unfold connectionEnds. apply negb_true_iff in He.
  rewrite He. lia.
Qed.

(** X24.  In a topology built from the empty one by well-formed calls, the
    sizes of the neighbour sets add up to the ends of the stored
    connections: two for a connection between two nodes and one for a
    connection from a node to itself.  When no connection joins a node to
    itself, the sum that [updateTopologyStats] divides by the number of
    nodes is twice the number of connections, so [averageConnectivity] is
    [2 * connections.size / nodes.size]. *)
Theorem degree_sum_counts_connection_ends (ops : list mutation)
  (Hwf : wellFormedTrace newTopologyManager ops = true) :
  degreeSum (fold_left mutate ops newTopologyManager)
  = endsOfConnections (fold_left mutate ops newTopologyManager)
  /\ (forallb (fun e => negb (isLoop e))
              (connections (fold_left mutate ops newTopologyManager)) = true ->
      degreeSum (fold_left mutate ops newTopologyManager)
      = 2 * List.length (connections (fold_left mutate ops newTopologyManager))
      /\ averageConnectivity (fold_left mutate ops newTopologyManager)
         = if List.length (nodes (fold_left mutate ops newTopologyManager)) =? 0
           then 0%Q
           else (Qnat (2 * List.length
                             (connections (fold_left mutate ops newTopologyManager)))
                 / Qnat (List.length
                           (nodes (fold_left mutate ops newTopologyManager))))%Q).
Proof.
  destruct (handshake_trace ops newTopologyManager Hwf handshake_new)
    as (_ & _ & Hsum).
  split; [exact Hsum|]. intros Hloops.
  assert (Htwice : degreeSum (fold_left mutate ops newTopologyManager)
                   = 2 * List.length
                           (connections (fold_left mutate ops newTopologyManager))).
  { rewrite Hsum. unfold endsOfConnections. now apply ends_without_loops. }
  split; [exact Htwice|]. unfold averageConnectivity. now rewrite Htwice.
Qed.

Lemma degree_sum_counts_connection_ends_witness :
  degreeSum starNamed = endsOfConnections starNamed
  /\ (forallb (fun e => negb (isLoop e)) (connections starNamed) = true ->
      degreeSum starNamed = 2 * List.length (connections starNamed)
      /\ averageConnectivity starNamed
         = if List.length (nodes starNamed) =? 0 then 0%Q
           else (Qnat (2 * List.length (connections starNamed))
                 / Qnat (List.length (nodes starNamed)))%Q).
Proof.
  exact (degree_sum_counts_connection_ends
           [AddNode (namedNode "A"); AddNode (namedNode "B"); AddNode (namedNode "C");
            AddNode (namedNode "D");
            AddConnection meshNamed (Connection.mk "c1" "A" "B");
            AddConnection meshNamed (Connection.mk "c2" "A" "C");
            AddConnection meshNamed (Connection.mk "c3" "A" "D")]
           eq_refl).
Defined.

(** ** The range of the clustering coefficients *)








(** ** The breadth-first search returns shortest paths *)

Lemma chained_reachesIn (tm : TopologyManager) (path : list string) :
  forall s, hd_error path = Some s -> chained tm path ->
            reachesIn tm [] s (last path s) (List.length path - 1).
Proof.
  induction path as [|a path IH]; intros s Hs Hc; [discriminate|].
  inversion Hs; subst. destruct path as [|b path].
  - now constructor.
  - destruct Hc as [Hab Hc].
    replace (List.length (s :: b :: path) - 1) with (S (List.length (b :: path) - 1))
      by (cbn [List.length]; lia).
    apply (reachesIn_step tm [] s b); [reflexivity | exact Hab |].
    change (last (s :: b :: path) s) with (last (b :: path) s).
    rewrite (last_nonempty path b s b). now apply IH.
Qed.

Lemma reachesIn_unvisited (tm : TopologyManager) (visited : jsset) (x t : string)
  (d : nat) :
  reachesIn tm visited x t d -> shas visited x = false.
Proof. now destruct 1. Qed.

(** Expanding [n] leaves a way to [t] as it is, or cuts it at [n]; then a
    name linked to [n] leads to [t] in fewer steps. *)
Lemma reachesIn_expand (tm : TopologyManager) (visited : jsset) (n x t : string)
  (d : nat) :
  reachesIn tm visited x t d -> n <> t ->
  reachesIn tm (sadd visited n) x t d
  \/ exists y d', directlyLinked tm n y
                  /\ reachesIn tm (sadd visited n) y t d' /\ d' < d.
Proof.
  intros H Hnt. induction H as [x Hx | x y t d Hx Hl Hy IH].
  - left. constructor. rewrite shas_sadd, Hx. cbn [orb].
    apply String.eqb_neq. congruence.
  - destruct (IH Hnt) as [Hleft | (w & d' & Hw & Hr & Hlt)].
    + destruct (String.eqb_spec x n) as [->|Hxn].
      * right. exists y, d. repeat split; [exact Hl | exact Hleft | lia].
      * left. apply (reachesIn_step tm _ x y); [|exact Hl | exact Hleft].
        rewrite shas_sadd, Hx. cbn [orb]. now apply String.eqb_neq.
    + right. exists w, d'. repeat split; [exact Hw | exact Hr | lia].
Qed.

Lemma layered_head (e : string * list string) (rest : list (string * list string)) :
  layered (e :: rest) ->
  (forall e', In e' rest -> List.length (snd e) <= List.length (snd e'))
  /\ layered rest
  /\ forall extra,
       (forall e', In e' extra -> List.length (snd e') = S (List.length (snd e))) ->
       layered (rest ++ extra).
Proof.
  intros (h & A & B & HQ & HA & HB). destruct A as [|a A].
  - cbn [app] in HQ. subst B.
    assert (He : List.length (snd e) = S h) by (apply HB; now left).
    split; [|split].
    + intros e' He'. rewrite He, (HB e'); [lia | now right].
    + exists (S h), rest, []. rewrite app_nil_r. split; [reflexivity|].
      split; [intros e' He'; apply HB; now right | intros e' []].
    + intros extra Hextra. exists (S h), rest, extra. split; [reflexivity|].
      split; [intros e' He'; apply HB; now right|].
      intros e' He'. rewrite (Hextra e' He'), He. reflexivity.
  - cbn [app] in HQ. inversion HQ; subst.
    assert (He : List.length (snd a) = h) by (apply HA; now left).
    split; [|split].
    + intros e' He'. rewrite He. apply in_app_or in He' as [He'|He'].
      * rewrite (HA e'); [lia | now right].
      * rewrite (HB e' He'). lia.
    + exists h, A, B. split; [reflexivity|].
      split; [intros e' He'; apply HA; now right | exact HB].
    + intros extra Hextra. exists h, A, (B ++ extra). rewrite app_assoc.
      split; [reflexivity|]. split; [intros e' He'; apply HA; now right|].
      intros e' He'. apply in_app_or in He' as [He'|He']; [now apply HB|].
      rewrite (Hextra e' He'), He. reflexivity.
Qed.

Lemma fallbackLoop_shortest (tm : TopologyManager) (t : string) (bound : nat)
  (fuel : nat) :
  forall visited queue path,
    layered queue ->
    (exists z q d, In (z, q) queue /\ reachesIn tm visited z t d
                   /\ List.length q + d <= bound) ->
    fallbackLoop tm fuel t visited queue = Some (Some path) ->
    List.length path <= bound.
Proof.
  induction fuel as [|fuel IH]; intros visited queue path Hlay Hway H; [discriminate|].
  cbn [fallbackLoop] in H. destruct queue as [|[n p] rest]; [discriminate|].
  destruct (layered_head _ _ Hlay) as (Hmin & Hrest & Hgrow).
  destruct Hway as (z & q & d & Hin & Hreach & Hlen).
  assert (Hp : List.length p <= List.length q).
  { destruct Hin as [E|Hin]; [inversion E; subst; lia|].
    exact (Hmin (z, q) Hin). }
  pose proof (reachesIn_unvisited _ _ _ _ _ Hreach) as Hz.
  destruct (String.eqb_spec n t) as [->|Hnt].
  - inversion H; subst. lia.
  - destruct (shas visited n) eqn:Hv.
    + apply (IH visited rest path Hrest); [|exact H].
      exists z, q, d. split; [|now split].
      destruct Hin as [E|Hin]; [inversion E; subst; congruence | exact Hin].
    + rewrite enqueue_all in H. refine (IH _ _ path _ _ H).
      * apply Hgrow. intros e' He'. apply in_map_iff in He' as (c & <- & _).
        cbn [snd]. rewrite length_app. cbn [List.length]. lia.
      * destruct (reachesIn_expand tm visited n z t d Hreach Hnt)
          as [Hkept | (y & d' & Hl & Hy & Hlt)].
        -- exists z, q, d. split; [|now split]. apply in_or_app. left.
           destruct Hin as [E|Hin]; [|exact Hin]. inversion E; subst.
           apply reachesIn_unvisited in Hkept.
           rewrite shas_sadd, String.eqb_refl in Hkept.
           now rewrite orb_true_r in Hkept.
        -- destruct (linked_otherEnd tm n y Hl) as (c & Hc & Hend).
           exists y, (p ++ [y]), d'. split; [|split; [exact Hy|]].
           ++ apply in_or_app. right. apply in_map_iff. exists c. rewrite Hend.
              split; [reflexivity|]. apply filter_In. split; [exact Hc|].
              rewrite Hend. now rewrite (reachesIn_unvisited _ _ _ _ _ Hy).
           ++ rewrite length_app. cbn [List.length]. lia.
Qed.

(** X26.  A path that [findFallbackPath] returns is a shortest one: no list
    of names that leads from the source name to the target name, each name
    joined to the next by a stored connection, is shorter. *)
Theorem findFallbackPath_returns_a_shortest_chain
  (tm : TopologyManager) (fuel : nat) (s t : string) (path other : list string)
  (Hret : findFallbackPath tm fuel s t = Some (Some path))
  (Hstart : hd_error other = Some s)
  (Hend : last other s = t)
  (Hchain : chained tm other) :
  List.length path <= List.length other.
Proof.
  unfold findFallbackPath in Hret.
  apply (fallbackLoop_shortest tm t (List.length other) fuel [] [(s, [s])] path);
    [| |exact Hret].
  - exists 1, [(s, [s])], []. split; [reflexivity|].
    split; [intros e [<- | []]; reflexivity | intros e []].
  - exists s, [s], (List.length other - 1). split; [now left|]. split.
    + rewrite <- Hend. now apply chained_reachesIn.
    + destruct other; [discriminate | cbn [List.length]; lia].
Qed.

Lemma findFallbackPath_returns_a_shortest_chain_witness :
  List.length ["A"; "C"] <= List.length ["A"; "B"; "C"].
Proof.
  apply (findFallbackPath_returns_a_shortest_chain triangleABC 10 "A" "C"
           ["A"; "C"] ["A"; "B"; "C"]).
  - reflexivity.
  - reflexivity.
  - reflexivity.
  - split; [|split; [|exact I]].
    + exists ("c1", Connection.mk "c1" "A" "B"). split; [left; reflexivity|].
      left. split; reflexivity.
    + exists ("c2", Connection.mk "c2" "B" "C"). split; [right; left; reflexivity|].
      left. split; reflexivity.
Defined.

(** ** Every accepted envelope, call by call *)










(** ** The clustering coefficient is the mean of the local coefficients *)
















(** A hub with two leaves has clustering coefficient 0: only the hub has two
    neighbours and they are not connected with each other.  In the triangle
    with a leaf at [A] the local coefficients are 1/3, 1 and 1, rounded, and
    the network value is the double that prints as 0.7777777777777777. *)
Example clustering_samples :
  Binary64.calculateClusteringCoefficient lineABC = 0%float
  /\ Binary64.calculateClusteringCoefficient threeNodes = 0%float
  /\ eligible lineABC = [("B", ["A"; "C"])]
  /\ Binary64.calculateClusteringCoefficient kiteNamed = 0x1.8e38e38e38e38p-1%float
  /\ map (localCoefficient kiteNamed) (eligible kiteNamed)
     = [0x1.5555555555555p-2; 1; 1]%float.
Proof. repeat split. Qed.

(** Up to degree 48 and for every number of triangles that the degree
    allows, [triangles / (deg * (deg - 1) / 2)] and
    [2 * triangles / (deg * (deg - 1))] are the same double. *)
Example local_coefficient_forms_agree :
  forallb (fun d =>
     forallb (fun t =>
        (Binary64.ofSize t / (Binary64.ofSize d * (Binary64.ofSize d - 1) / 2)
         =? 2 * Binary64.ofSize t / (Binary64.ofSize d * (Binary64.ofSize d - 1)))%float)
       (seq 0 (S (d * (d - 1) / 2))))
    (seq 2 47) = true.
Proof. vm_compute. reflexivity. Qed.
